(** * liveurls: a rate-limited URL liveness prober

    A shallow embedding of the three programs of the repository:

    - [V1]: the first program of [liveurls.go] (no interrupt handling);
    - [V2]: the second program of [liveurls.go] (interrupt handling, one
      output file);
    - [V3]: the classifying program (status codes, the [-only] filter,
      one file per class).

    Pure code (string handling, the filter parser, the save phase) is
    embedded as functions.  The goroutines of each program are embedded as
    an interleaving semantics: one step relation over the shared state
    (channels, wait group, semaphore, aggregation variables, files), each
    constructor being one atomic action of one goroutine.  Time is left
    out: a tick, a response or a signal may come at any moment. *)

From Stdlib Require Import ZArith Ascii String.
From stdpp Require Import base tactics option list relations gmap strings pretty.
From Stdlib Require Import Lia.

Local Open Scope Z_scope.

(** ** The Go standard library functions the programs call *)

Module GoStrings.

(** [len(s)], as a Go [int]. *)
Definition len (s : string) : Z := Z.of_nat (String.length s).

(** [strings.HasPrefix(s, prefix)]. *)
Definition HasPrefix (s pre : string) : bool := String.prefix pre s.

(** [strings.HasSuffix(s, suffix)]:
    [len(s) >= len(suffix) && s[len(s)-len(suffix):] == suffix]. *)
Definition HasSuffix (s suf : string) : bool :=
  (String.length suf <=? String.length s)%nat &&
  String.eqb
    (String.substring (String.length s - String.length suf)
                      (String.length suf) s)
    suf.

(** The six ASCII bytes of [asciiSpace]. *)
Definition asciiSpace (c : ascii) : bool :=
  match c with
  | "009" | "010" | "011" | "012" | "013" | " " => true
  | _ => false
  end%char.

(** [unicode.IsSpace] beyond ASCII, on the UTF-8 encoding:
    U+0085 and U+00A0 take two bytes, U+1680, U+2000..U+200A, U+2028,
    U+2029, U+202F, U+205F and U+3000 take three. *)
Definition space2 (a b : ascii) : bool :=
  (N.eqb (N_of_ascii a) 194) &&
  (N.eqb (N_of_ascii b) 133 || N.eqb (N_of_ascii b) 160).

Definition space3 (a b c : ascii) : bool :=
  let a := N_of_ascii a in
  let b := N_of_ascii b in
  let c := N_of_ascii c in
  (N.eqb a 225 && N.eqb b 154 && N.eqb c 128)
  || (N.eqb a 226 && N.eqb b 128 &&
      ((N.leb 128 c && N.leb c 138) || N.eqb c 168 || N.eqb c 169
       || N.eqb c 175))
  || (N.eqb a 226 && N.eqb b 129 && N.eqb c 159)
  || (N.eqb a 227 && N.eqb b 128 && N.eqb c 128).

(** [strings.TrimLeftFunc(s, unicode.IsSpace)]: a byte sequence that is
    not the encoding of a space (invalid UTF-8 included) stops the scan. *)
Fixpoint TrimLeftSpace (s : string) : string :=
  match s with
  | EmptyString => EmptyString
  | String a s1 =>
      if asciiSpace a then TrimLeftSpace s1
      else match s1 with
           | EmptyString => s
           | String b s2 =>
               if space2 a b then TrimLeftSpace s2
               else match s2 with
                    | EmptyString => s
                    | String c s3 =>
                        if space3 a b c then TrimLeftSpace s3 else s
                    end
           end
  end.

(** The same scan from the end of the string, written on the reversed
    byte sequence (the last rune is decoded from its last byte back). *)
Fixpoint trim_rev (r : list ascii) : list ascii :=
  match r with
  | [] => []
  | c :: r1 =>
      if asciiSpace c then trim_rev r1
      else match r1 with
           | [] => r
           | b :: r2 =>
               if space2 b c then trim_rev r2
               else match r2 with
                    | [] => r
                    | a :: r3 =>
                        if space3 a b c then trim_rev r3 else r
                    end
           end
  end.

Definition TrimRightSpace (s : string) : string :=
  string_of_list_ascii
    (reverse (trim_rev (reverse (list_ascii_of_string s)))).

(** [strings.TrimSpace(s)]. *)
Definition TrimSpace (s : string) : string :=
  TrimRightSpace (TrimLeftSpace s).

(** [strings.Split(s, sep)] for a one-byte separator: the pieces between
    the occurrences of [sep], one more than there are occurrences. *)
Fixpoint Split (s : string) (sep : ascii) : list string :=
  match s with
  | EmptyString => [EmptyString]
  | String c s' =>
      if Ascii.eqb c sep then EmptyString :: Split s' sep
      else match Split s' sep with
           | [] => [String c EmptyString]
           | p :: ps => String c p :: ps
           end
  end.

(** [s[:n]]. *)
Definition slice_to (s : string) (n : nat) : string :=
  String.substring 0 n s.

End GoStrings.

Module GoStrconv.

(** The value of a decimal digit byte. *)
Definition digit (c : ascii) : option Z :=
  let n := N_of_ascii c in
  if (N.leb 48 n && N.leb n 57)%bool then Some (Z.of_N n - 48) else None.

(** The digit loop: [acc*10 + d] for each byte, an error at the first
    byte that is not a digit. *)
Fixpoint digits (acc : Z) (s : string) : option Z :=
  match s with
  | EmptyString => Some acc
  | String c s' =>
      match digit c with
      | Some d => digits (acc * 10 + d) s'
      | None => None
      end
  end.

(** [strconv.Atoi(s)]: an optional sign and decimal digits, in the range
    of a 64-bit [int]; [None] stands for a non-nil [err]. *)
Definition Atoi (s : string) : option Z :=
  let in_range (v : Z) :=
    if (Z.leb (- 2 ^ 63) v && Z.ltb v (2 ^ 63))%bool then Some v else None in
  match s with
  | EmptyString => None
  | String c r =>
      if Ascii.eqb c "-" then
        match r with
        | EmptyString => None
        | _ => v ← digits 0 r; in_range (- v)
        end
      else if Ascii.eqb c "+" then
        match r with
        | EmptyString => None
        | _ => v ← digits 0 r; in_range v
        end
      else v ← digits 0 s; in_range v
  end.

End GoStrconv.

Import GoStrings GoStrconv.


(** ** The environment: HTTP and the file system *)

(** What [http.Head(url)] returns: a non-nil [err] (DNS, connect, timeout,
    TLS), or a response with its [StatusCode]. *)
Inductive response :=
| TransportError
| Status (code : Z).

(** Lines the probers print in verbose mode. *)
Inductive event :=
| PrintError (url : string)            (* "[ERROR] %s: %v\n" *)
| PrintCheck (url : string) (code : Z) (* "[CHECK] %s: %d\n" *).

(** How a Go process ends. *)
Inductive panic :=
| MakechanSizeOutOfRange      (* make(chan T, n) with n < 0 *)
| IntegerDivideByZero         (* x / 0 on integers *)
| NonPositiveTickerInterval   (* time.NewTicker(d) with d <= 0 *)
| SendOnClosedChannel
| CloseOfClosedChannel.

Inductive pstatus :=
| Alive
| Exited (code : Z)
| Panicked (p : panic).

(** Files hold their bytes; [os.Create] truncates. *)
Abbreviation files := (gmap string string).

Definition newline : string := String "010" "".

(** The loop of [saveURLs] (and of the first [main]):
    [writer.WriteString(url + "\n")] for each url, in order. *)
Fixpoint file_of (urls : list string) : string :=
  match urls with
  | [] => ""
  | u :: rest => u +:+ newline +:+ file_of rest
  end.

(** The error [saveURLs] returns, if any: the one of [os.Create], or the
    one of [writer.WriteString] or [writer.Flush]. *)
Inductive save_error :=
| CreateError
| WriteError.

(** The device takes the whole content: [room] is the number of bytes
    that can still be written to the file ([None]: no limit). *)
Definition fits (room : option nat) (content : string) : bool :=
  match room with
  | None => true
  | Some n => (String.length content <=? n)%nat
  end.

(** What reaches the file: the whole content, or its first bytes when the
    device has room for these only (the write that comes next fails). *)
Definition reaches (room : option nat) (content : string) : string :=
  match room with
  | None => content
  | Some n => if (String.length content <=? n)%nat then content
              else slice_to content n
  end.

(** [saveURLs(filename, urls)]: the file system after the call and the
    error returned ([None] is nil).  [creatable] tells whether [os.Create]
    succeeds on a path; when it does the file exists and is empty, and
    the urls are written through the buffered writer: when the device
    has not the room for all of them, [WriteString] or [Flush] returns
    the error of the write that fails, and the file keeps what had
    reached it.  Nothing to write ([Flush] on an empty buffer) cannot
    fail. *)
Definition saveURLs (creatable : string → bool) (room : string → option nat)
    (filename : string) (urls : list string) (fs : files)
    : files * option save_error :=
  if creatable filename then
    let content := file_of urls in
    (<[filename := reaches (room filename) content]> fs,
     if fits (room filename) content then None else Some WriteError)
  else (fs, Some CreateError).

(** The exit status [main] derives from the error of a save. *)
Definition exit_of (err : option save_error) : Z :=
  match err with None => 0 | Some _ => 1 end.

(** ** Reading the endpoint list *)

(** The scanner loop of every [main], on the lines the scanner yields:
    [url := strings.TrimSpace(scanner.Text()); if url != "" { append }]. *)
Fixpoint read_urls (lines : list string) : list string :=
  match lines with
  | [] => []
  | line :: rest =>
      let url := TrimSpace line in
      if decide (url ≠ "") then url :: read_urls rest else read_urls rest
  end.

(** ** checkURL *)

(** The first statement of every [checkURL]:
    [if !HasPrefix(url, "http://") && !HasPrefix(url, "https://")
       { url = "http://" + url }].
    [url] is the callee's own parameter: the assignment rebinds it. *)
Definition add_scheme (url : string) : string :=
  if negb (HasPrefix url "http://") && negb (HasPrefix url "https://")
  then "http://" +:+ url
  else url.

Module Liveurls.

(** [checkURL] of both programs of [liveurls.go]: the lines printed and
    the value sent on [outputChan], if any. *)
Definition checkURL (Head : string → response) (url : string)
    (verbose : bool) : list event * option string :=
  let url := add_scheme url in
  match Head url with
  | TransportError =>
      if verbose then ([PrintError url], None)
      else ([], None)
  | Status code =>
      let printed := if verbose then [PrintCheck url code] else [] in
      if code =? 200 then (printed, Some url) else (printed, None)
  end.

End Liveurls.

Module Classify.

Record statusResult := { url : string; statusCode : Z }.

(** [checkURL] of the classifying program: every response is sent,
    whatever its status. *)
Definition checkURL (Head : string → response) (u : string)
    (verbose : bool) : list event * option statusResult :=
  let u := add_scheme u in
  match Head u with
  | TransportError =>
      if verbose then ([PrintError u], None)
      else ([], None)
  | Status code =>
      let printed := if verbose then [PrintCheck u code] else [] in
      (printed, Some {| url := u; statusCode := code |})
  end.

End Classify.

(** ** processURLs *)

(** The first three statements of [processURLs]:
    [semaphore := make(chan struct{}, requestsPerSecond)] and
    [ticker := time.NewTicker(time.Second / time.Duration(requestsPerSecond))].
    On success: the semaphore's capacity and the ticker's period in ns. *)
Definition processURLs_setup (requestsPerSecond : Z) : panic + (Z * Z) :=
  if requestsPerSecond <? 0 then inl MakechanSizeOutOfRange
  else if requestsPerSecond =? 0 then inl IntegerDivideByZero
  else
    let period := 1000000000 `quot` requestsPerSecond in
    if period <=? 0 then inl NonPositiveTickerInterval
    else inr (requestsPerSecond, period).

(** Program points of [processURLs]. *)
Inductive dphase :=
| Setup      (* before the semaphore and the ticker exist *)
| LoopHead   (* at the head of the range loop *)
| Acquire    (* tick received, at [semaphore <- struct{}{}] *)
| Waiting    (* at [wg.Wait()] *)
| Returned.

Section Pool.
Context {M : Type}.
(** The program's [checkURL], already applied to the HTTP environment. *)
Variable checkURL : string → bool → list event * option M.

(** The state [processURLs] and its probers share with [main]. *)
Record pool := mkPool {
  urls : list string;      (* the slice ranged over *)
  requestsPerSecond : Z;
  verbose : bool;
  phase : dphase;
  capacity : Z;            (* cap(semaphore), 0 before it is made *)
  next : nat;              (* index of the range loop *)
  running : list string;   (* arguments of the goroutines inside checkURL *)
  releasing : nat;         (* goroutines past checkURL that still hold a slot *)
  chan : list M;           (* the buffer of outputChan, oldest first *)
  closed : bool;           (* outputChan is closed *)
  stdout : list event;
  status : pstatus;
}.

Definition pool_init (us : list string) (rps : Z) (v : bool) : pool :=
  mkPool us rps v Setup 0 0 [] 0 [] false [] Alive.

Definition set_phase (p : pool) (ph : dphase) : pool :=
  mkPool (urls p) (requestsPerSecond p) (verbose p) ph (capacity p) (next p)
         (running p) (releasing p) (chan p) (closed p) (stdout p) (status p).

Definition set_status (p : pool) (st : pstatus) : pool :=
  mkPool (urls p) (requestsPerSecond p) (verbose p) (phase p) (capacity p)
         (next p) (running p) (releasing p) (chan p) (closed p) (stdout p) st.

Definition set_chan (p : pool) (c : list M) : pool :=
  mkPool (urls p) (requestsPerSecond p) (verbose p) (phase p) (capacity p)
         (next p) (running p) (releasing p) c (closed p) (stdout p) (status p).

Definition set_closed (p : pool) : pool :=
  mkPool (urls p) (requestsPerSecond p) (verbose p) (phase p) (capacity p)
         (next p) (running p) (releasing p) (chan p) true (stdout p) (status p).

(** The semaphore and the ticker are made; on to the loop. *)
Definition start (p : pool) (cap : Z) : pool :=
  mkPool (urls p) (requestsPerSecond p) (verbose p) LoopHead cap (next p)
         (running p) (releasing p) (chan p) (closed p) (stdout p) (status p).

(** [go func(u string) {...}(url)] for the url at the loop index. *)
Definition spawn (p : pool) (u : string) : pool :=
  mkPool (urls p) (requestsPerSecond p) (verbose p) LoopHead (capacity p)
         (S (next p)) (running p ++ [u]) (releasing p) (chan p) (closed p)
         (stdout p) (status p).

(** A prober leaves [checkURL]: [wg.Done()] has run, the deferred
    semaphore receive has not. *)
Definition leave (p : pool) (run : list string) (printed : list event)
    (c : list M) : pool :=
  mkPool (urls p) (requestsPerSecond p) (verbose p) (phase p) (capacity p)
         (next p) run (S (releasing p)) c (closed p) (stdout p ++ printed) (status p).

Definition release (p : pool) (n : nat) : pool :=
  mkPool (urls p) (requestsPerSecond p) (verbose p) (phase p) (capacity p)
         (next p) (running p) n (chan p) (closed p) (stdout p) (status p).

(** Slots of the semaphore in use. *)
Definition slots (p : pool) : nat := length (running p) + releasing p.

(** One atomic action of [processURLs] or of one prober.  [stopped]
    tells whether [stopChan] is closed ([false] throughout in the program
    that has no [stopChan]: its loop head is the plain [<-ticker.C]).
    Ticks are not timed: a tick may be there whenever the loop asks. *)
Inductive pool_step (stopped : bool) : pool → pool → Prop :=
| setup_ok p cap period :
    status p = Alive → phase p = Setup →
    processURLs_setup (requestsPerSecond p) = inr (cap, period) →
    pool_step stopped p (start p cap)
| setup_panic p why :
    status p = Alive → phase p = Setup →
    processURLs_setup (requestsPerSecond p) = inl why →
    pool_step stopped p (set_status p (Panicked why))
| loop_tick p :
    status p = Alive → phase p = LoopHead →
    (next p < length (urls p))%nat →
    pool_step stopped p (set_phase p Acquire)
| loop_stop p :
    status p = Alive → phase p = LoopHead →
    (next p < length (urls p))%nat →
    stopped = true →
    pool_step stopped p (set_phase p Returned)
| acquire_spawn p u :
    status p = Alive → phase p = Acquire →
    Z.of_nat (slots p) < capacity p →
    urls p !! next p = Some u →
    pool_step stopped p (spawn p u)
| loop_end p :
    status p = Alive → phase p = LoopHead →
    next p = length (urls p) →
    pool_step stopped p (set_phase p Waiting)
| wait_done p :
    status p = Alive → phase p = Waiting →
    running p = [] →
    pool_step stopped p (set_phase p Returned)
| probe_quiet p before u after printed :
    status p = Alive →
    running p = before ++ u :: after →
    checkURL u (verbose p) = (printed, None) →
    pool_step stopped p (leave p (before ++ after) printed (chan p))
| probe_send p before u after printed m :
    status p = Alive →
    running p = before ++ u :: after →
    checkURL u (verbose p) = (printed, Some m) →
    closed p = false →
    (length (chan p) < length (urls p))%nat →
    pool_step stopped p (leave p (before ++ after) printed (chan p ++ [m]))
| probe_send_closed p before u after printed m :
    status p = Alive →
    running p = before ++ u :: after →
    checkURL u (verbose p) = (printed, Some m) →
    closed p = true →
    pool_step stopped p (set_status p (Panicked SendOnClosedChannel))
| slot_release p n :
    status p = Alive →
    releasing p = S n →
    pool_step stopped p (release p n).

(** A value that some started prober sends: [n] is the loop index. *)
Definition emitted (us : list string) (v : bool) (n : nat) (m : M) : Prop :=
  ∃ u printed, u ∈ take n us ∧ checkURL u v = (printed, Some m).

(** What every state of the dispatcher and its probers satisfies. *)
Record pool_inv (p : pool) : Prop := {
  inv_next : (next p ≤ length (urls p))%nat;
  inv_slots : Z.of_nat (slots p) ≤ capacity p;
  inv_running : Forall (λ u, u ∈ take (next p) (urls p)) (running p);
  inv_chan : Forall (emitted (urls p) (verbose p) (next p)) (chan p);
  inv_setup :
    phase p = Setup →
    next p = 0%nat ∧ running p = [] ∧ releasing p = 0%nat ∧ chan p = []
    ∧ stdout p = [] ∧ capacity p = 0;
  inv_phase :
    phase p ≠ Setup →
    ∃ period,
      processURLs_setup (requestsPerSecond p) = inr (capacity p, period);
}.

End Pool.

Arguments pool : clear implicits.

(** ** The command line *)

(** The flags of the two programs of [liveurls.go]. *)
Record flags := {
  flag_l : string;   (* -l  file containing the list of URLs *)
  flag_o : string;   (* -o  output file *)
  flag_d : Z;        (* -d  number of requests per second *)
  flag_v : bool;     (* -v  verbose *)
}.

Definition default_flags : flags :=
  {| flag_l := ""; flag_o := "live_urls.txt"; flag_d := 10; flag_v := false |}.

(** ** The first program of liveurls.go *)

Module V1.

(** Program points of [main] once [processURLs] has been started. *)
Inductive mphase :=
| Ranging     (* in [for url := range outputChan] *)
| AfterLoop   (* at [close(outputChan)] *)
| Writing     (* at [os.Create] of the output path *).

Record state := mkState {
  pl : pool string;
  liveURLs : list string;
  at_main : mphase;
  fs : files;
}.

Section Run.
Variable Head : string → response.
Variable creatable : string → bool.
Variable room : string → option nat.
Variable f : flags.

(** [main] up to [go processURLs(...)]: the urls are read, and an
    empty list ends the process with status 1. *)
Definition init (lines : list string) (fs0 : files) : state :=
  let urls := read_urls lines in
  let p := pool_init urls (flag_d f) (flag_v f) in
  {| pl := if decide (length urls = 0%nat)
           then set_status p (Exited 1) else p;
     liveURLs := []; at_main := Ranging; fs := fs0 |}.

Definition with_pool (s : state) (p : pool string) : state :=
  {| pl := p; liveURLs := liveURLs s; at_main := at_main s; fs := fs s |}.

Inductive step : state → state → Prop :=
| workers s p' :
    pool_step (Liveurls.checkURL Head) false (pl s) p' →
    step s (with_pool s p')
(* one iteration of the range loop *)
| range_recv s x rest :
    status (pl s) = Alive → at_main s = Ranging →
    chan (pl s) = x :: rest →
    step s {| pl := set_chan (pl s) rest;
              liveURLs := liveURLs s ++ [x];
              at_main := Ranging; fs := fs s |}
(* the range loop ends on a closed and drained channel only *)
| range_end s :
    status (pl s) = Alive → at_main s = Ranging →
    closed (pl s) = true → chan (pl s) = [] →
    step s {| pl := pl s; liveURLs := liveURLs s;
              at_main := AfterLoop; fs := fs s |}
| close_chan s :
    status (pl s) = Alive → at_main s = AfterLoop →
    closed (pl s) = false →
    step s {| pl := set_closed (pl s); liveURLs := liveURLs s;
              at_main := Writing; fs := fs s |}
| close_closed s :
    status (pl s) = Alive → at_main s = AfterLoop →
    closed (pl s) = true →
    step s (with_pool s (set_status (pl s) (Panicked CloseOfClosedChannel)))
(* os.Create fails: os.Exit(1) *)
| write_fail s :
    status (pl s) = Alive → at_main s = Writing →
    creatable (flag_o f) = false →
    step s (with_pool s (set_status (pl s) (Exited 1)))
(* os.Create, the write loop, Flush; main returns *)
| write_ok s :
    status (pl s) = Alive → at_main s = Writing →
    creatable (flag_o f) = true →
    fits (room (flag_o f)) (file_of (liveURLs s)) = true →
    step s {| pl := set_status (pl s) (Exited 0);
              liveURLs := liveURLs s; at_main := Writing;
              fs := <[flag_o f := file_of (liveURLs s)]> (fs s) |}
(* a write fails inside [WriteString], which flushes the buffer of 4096
   bytes when it overflows: os.Exit(1) *)
| write_string_fails s :
    status (pl s) = Alive → at_main s = Writing →
    creatable (flag_o f) = true →
    fits (room (flag_o f)) (file_of (liveURLs s)) = false →
    (4096 < String.length (file_of (liveURLs s)))%nat →
    step s {| pl := set_status (pl s) (Exited 1);
              liveURLs := liveURLs s; at_main := Writing;
              fs := <[flag_o f := reaches (room (flag_o f))
                                          (file_of (liveURLs s))]> (fs s) |}
(* the write fails in the last [writer.Flush()], whose error this [main]
   does not look at: main returns.  Which of the two it is depends on
   where the buffer happens to be flushed; both are left open. *)
| flush_fails_unseen s :
    status (pl s) = Alive → at_main s = Writing →
    creatable (flag_o f) = true →
    fits (room (flag_o f)) (file_of (liveURLs s)) = false →
    step s {| pl := set_status (pl s) (Exited 0);
              liveURLs := liveURLs s; at_main := Writing;
              fs := <[flag_o f := reaches (room (flag_o f))
                                          (file_of (liveURLs s))]> (fs s) |}.

(** What every state of a run from [init lines fs0] satisfies. *)
Definition inv (lines : list string) (fs0 : files) (s : state) : Prop :=
  pool_inv (Liveurls.checkURL Head) (pl s)
  ∧ urls (pl s) = read_urls lines
  ∧ requestsPerSecond (pl s) = flag_d f
  ∧ verbose (pl s) = flag_v f
  ∧ closed (pl s) = false
  ∧ at_main s = Ranging
  ∧ fs s = fs0
  ∧ (∀ code, status (pl s) = Exited code → code = 1 ∧ read_urls lines = [])
  ∧ Forall (emitted (Liveurls.checkURL Head) (read_urls lines) (flag_v f)
                    (next (pl s)))
           (liveURLs s).

(** No goroutine can move: all are asleep (or the process has ended).
    The Go runtime ends an asleep process with "fatal error: all
    goroutines are asleep - deadlock!"; the step relation stops before. *)
Definition stuck (s : state) : Prop := ∀ s', ¬ step s s'.

End Run.

End V1.

(** ** The programs that handle the interrupt

    The second program of [liveurls.go] and the classifying program share
    their goroutines: the dispatcher ([processURLs], then
    [close(outputChan)]), the collector ([for x := range outputChan] under
    the mutex), the goroutine that the [select] of [main] starts to close
    [done] ([for range outputChan {}], then [close(done)]) and [main].
    They differ in what is sent ([M]), in what the collector builds ([A])
    and in the save phase ([finish]). *)

Module Graceful.

Inductive mphase :=
| Selecting   (* blocked in the select on sigChan and done *)
| Saving      (* past the select, at the save phase *)
| Leaving (code : Z) (* files written, before main returns *).

Section Run.
Context {M A : Type}.
Variable checkURL : string → bool → list event * option M.
(** The collector's statement under the mutex. *)
Variable collect : M → A → A.
(** The save phase: from what was aggregated and the files, the files
    left and the exit status. *)
Variable finish : A → files → files → Z → Prop.

Record state := mkState {
  pl : pool M;
  stopChan : bool;        (* stopChan is closed *)
  sigChan : bool;         (* a signal waits in sigChan *)
  holding : option M;     (* received by the collector, not yet stored *)
  agg : A;                (* liveURLs, or results *)
  done : bool;            (* done is closed *)
  at_main : mphase;
  fs : files;
}.

Definition init (us : list string) (rps : Z) (v : bool) (a0 : A)
    (fs0 : files) : state :=
  let p := pool_init us rps v in
  {| pl := if decide (length us = 0%nat)
           then set_status p (Exited 1) else p;
     stopChan := false; sigChan := false; holding := None; agg := a0;
     done := false; at_main := Selecting; fs := fs0 |}.

Definition with_pool (s : state) (p : pool M) : state :=
  mkState p (stopChan s) (sigChan s) (holding s) (agg s) (done s)
          (at_main s) (fs s).

(** What every state of a run from [init us rps v a0 fs0] satisfies. *)
Definition inv (us : list string) (rps : Z) (v : bool) (s : state) : Prop :=
  pool_inv checkURL (pl s)
  ∧ urls (pl s) = us
  ∧ requestsPerSecond (pl s) = rps
  ∧ verbose (pl s) = v
  ∧ (∀ m, holding s = Some m → emitted checkURL us v (next (pl s)) m).

Inductive step : state → state → Prop :=
| workers s p' :
    pool_step checkURL (stopChan s) (pl s) p' →
    step s (with_pool s p')
(* the dispatcher goroutine, after processURLs has returned *)
| close_output s :
    status (pl s) = Alive → phase (pl s) = Returned →
    closed (pl s) = false →
    step s (with_pool s (set_closed (pl s)))
(* the operating system delivers SIGINT or SIGTERM *)
| interrupt s :
    status (pl s) = Alive →
    step s (mkState (pl s) (stopChan s) true (holding s) (agg s)
                    (done s) (at_main s) (fs s))
| collector_recv s x rest :
    status (pl s) = Alive → holding s = None →
    chan (pl s) = x :: rest →
    step s (mkState (set_chan (pl s) rest) (stopChan s) (sigChan s)
                    (Some x) (agg s) (done s) (at_main s) (fs s))
| collector_store s x :
    status (pl s) = Alive → holding s = Some x →
    step s (mkState (pl s) (stopChan s) (sigChan s) None
                    (collect x (agg s)) (done s) (at_main s) (fs s))
(* the goroutine of the select: it receives and discards *)
| drain_recv s x rest :
    status (pl s) = Alive → done s = false →
    chan (pl s) = x :: rest →
    step s (with_pool s (set_chan (pl s) rest))
| drain_end s :
    status (pl s) = Alive → done s = false →
    closed (pl s) = true → chan (pl s) = [] →
    step s (mkState (pl s) (stopChan s) (sigChan s) (holding s) (agg s)
                    true (at_main s) (fs s))
(* case <-sigChan: close(stopChan) *)
| select_signal s :
    status (pl s) = Alive → at_main s = Selecting →
    sigChan s = true →
    step s (mkState (pl s) true false (holding s) (agg s) (done s)
                    Saving (fs s))
(* case <-done *)
| select_done s :
    status (pl s) = Alive → at_main s = Selecting →
    done s = true →
    step s (mkState (pl s) (stopChan s) (sigChan s) (holding s) (agg s)
                    (done s) Saving (fs s))
(* the save phase: os.Exit(1) on an error, else on to the last print *)
| save s fs' code :
    status (pl s) = Alive → at_main s = Saving →
    finish (agg s) (fs s) fs' code →
    step s (mkState (if decide (code = 0) then pl s
                     else set_status (pl s) (Exited code))
                    (stopChan s) (sigChan s) (holding s) (agg s)
                    (done s) (Leaving code) fs')
(* main returns *)
| main_returns s :
    status (pl s) = Alive → at_main s = Leaving 0 →
    step s (with_pool s (set_status (pl s) (Exited 0))).

End Run.

Arguments state : clear implicits.

End Graceful.

(** ** The second program of liveurls.go *)

Module V2.

Abbreviation state := (Graceful.state string (list string)).

Section Run.
Variable Head : string → response.
Variable creatable : string → bool.
Variable room : string → option nat.
Variable f : flags.

(** [saveURLs] of the output path and [liveURLs]; [os.Exit(1)] on an
    error. *)
Definition finish (liveURLs : list string) (fs fs' : files) (code : Z)
    : Prop :=
  fs' = (saveURLs creatable room (flag_o f) liveURLs fs).1
  ∧ code = exit_of (saveURLs creatable room (flag_o f) liveURLs fs).2.

Definition init (lines : list string) (fs0 : files) : state :=
  Graceful.init (read_urls lines) (flag_d f) (flag_v f) [] fs0.

(** What every state of a run from [init lines fs0] satisfies, besides
    [Graceful.inv]: what was collected was sent by a started prober; no
    file is touched before the save; and after the save the file system
    is what the save phase made of the urls collected by then. *)
Definition inv (lines : list string) (fs0 : files) (s : state) : Prop :=
  Forall (emitted (Liveurls.checkURL Head) (read_urls lines) (flag_v f)
                  (next (Graceful.pl s)))
         (Graceful.agg s)
  ∧ (Graceful.at_main s ≠ Graceful.Leaving 0 →
     status (Graceful.pl s) ≠ Exited 0)
  ∧ (Graceful.at_main s = Graceful.Selecting
     ∨ Graceful.at_main s = Graceful.Saving → Graceful.fs s = fs0)
  ∧ (∀ code, Graceful.at_main s = Graceful.Leaving code →
       ∃ l, l `prefix_of` Graceful.agg s
            ∧ finish l fs0 (Graceful.fs s) code).

(** The collector: [liveURLs = append(liveURLs, url)]. *)
Definition step : state → state → Prop :=
  Graceful.step (Liveurls.checkURL Head) (λ url l, l ++ [url]) finish.

End Run.

End V2.

(** ** The classifying program *)

Module V3.
Import Classify.

Record flags := {
  flag_l : string;
  flag_o : string;      (* -o  base name for the output files *)
  flag_d : Z;
  flag_v : bool;
  flag_only : string;   (* -only  comma-separated status code ranges *)
}.

Definition default_flags : flags :=
  {| flag_l := ""; flag_o := "status"; flag_d := 10; flag_v := false;
     flag_only := "" |}.

Abbreviation state := (Graceful.state statusResult (gmap Z (list string))).

(** The body of the loop of [parseStatusRanges] on one part. *)
Definition parse_part (ranges : gmap Z bool) (part : string)
    : gmap Z bool :=
  let part := TrimSpace part in
  if (len part <? 3) || negb (HasSuffix part "xx") then ranges
  else
    match Atoi (slice_to part 1) with
    | None => ranges
    | Some base =>
        foldl (λ r i, <[base * 100 + Z.of_nat i := true]> r) ranges
              (seq 0 100)
    end.

(** [statusRanges[status]]: a missing key reads as false. *)
Definition selected (ranges : gmap Z bool) (status : Z) : bool :=
  default false (ranges !! status).

(** A part of the filter names the class of [c]: trimmed, it starts with
    the decimal digit [N] of the hundreds of [c] and ends in "xx". *)
Definition part_selects (part : string) (c : Z) : Prop :=
  ∃ a rest N,
    TrimSpace part = String a rest ∧ digit a = Some N
    ∧ HasSuffix (String a rest) "xx" = true ∧ N * 100 ≤ c ≤ N * 100 + 99.

(** [parseStatusRanges(only)]; [None] is the nil map. *)
Definition parseStatusRanges (only : string) : option (gmap Z bool) :=
  if decide (only = "") then None
  else Some (foldl parse_part ∅ (Split only ",")).

(** The collector:
    [results[r.statusCode] = append(results[r.statusCode], r.url)]. *)
Definition collect (r : statusResult) (results : gmap Z (list string))
    : gmap Z (list string) :=
  <[statusCode r := default [] (results !! statusCode r) ++ [url r]]> results.

(** [for status, urls := range results] visits the entries in an order
    the language leaves open: the loops below take the order as [ord]. *)
Definition filteredURLs (ranges : gmap Z bool)
    (ord : list (Z * list string)) : list string :=
  foldl (λ acc e, if selected ranges e.1 then acc ++ e.2 else acc) [] ord.

(** [fmt.Sprintf("%s_%dxx.txt", *outputPtr, status/100)]. *)
Definition rangeFile (output : string) (status : Z) : string :=
  output +:+ "_" +:+ pretty (status `quot` 100) +:+ "xx.txt".

Section Run.
Variable Head : string → response.
Variable creatable : string → bool.
Variable room : string → option nat.
Variable f : flags.

(** The default branch of the save phase; the exit status is 1 at the
    first call of [saveURLs] that returns an error. *)
Fixpoint save_by_range (ord : list (Z * list string)) (fs : files)
    : files * Z :=
  match ord with
  | [] => (fs, 0)
  | e :: rest =>
      match saveURLs creatable room (rangeFile (flag_o f) e.1) e.2 fs with
      | (fs', None) => save_by_range rest fs'
      | (fs', Some _) => (fs', 1)
      end
  end.

(** The save phase of [main]: with a filter ([statusRanges != nil]) the
    selected urls go to the one file [base.txt]; without, [saveURLs] is
    called once per entry of [results].  [ord] is the order in which the
    range loop happens to visit [results]. *)
Definition finish (results : gmap Z (list string)) (fs fs' : files)
    (code : Z) : Prop :=
  ∃ ord, ord ≡ₚ map_to_list results ∧
    match parseStatusRanges (flag_only f) with
    | Some statusRanges =>
        fs' = (saveURLs creatable room (flag_o f +:+ ".txt")
                        (filteredURLs statusRanges ord) fs).1
        ∧ code = exit_of (saveURLs creatable room (flag_o f +:+ ".txt")
                                   (filteredURLs statusRanges ord) fs).2
    | None => (fs', code) = save_by_range ord fs
    end.

(** The collector's work on the results it receives, oldest first. *)
Definition aggregated (rs : list statusResult) : gmap Z (list string) :=
  foldl (λ results r, collect r results) ∅ rs.

(** The urls of the results that carry status code [c], oldest first. *)
Definition urls_with (c : Z) (rs : list statusResult) : list string :=
  url <$> filter (λ r, statusCode r = c) rs.

Definition init (lines : list string) (fs0 : files) : state :=
  Graceful.init (read_urls lines) (flag_d f) (flag_v f) ∅ fs0.

Definition step : state → state → Prop :=
  Graceful.step (Classify.checkURL Head) collect finish.

End Run.

End V3.

(** ** Inputs of the examples *)

(** The three results of the scenario of the specification. *)
Definition scenario_results : list Classify.statusResult :=
  [ {| Classify.url := "http://one.test"; Classify.statusCode := 200 |};
    {| Classify.url := "http://two.test"; Classify.statusCode := 200 |};
    {| Classify.url := "http://three.test"; Classify.statusCode := 404 |} ].

Definition only_2xx : V3.flags :=
  {| V3.flag_l := ""; V3.flag_o := "status"; V3.flag_d := 10;
     V3.flag_v := false; V3.flag_only := "2xx" |}.

(** Three completions: 200, then 204, then 200 again. *)
Definition interleaved_results : list Classify.statusResult :=
  [ {| Classify.url := "http://a.test"; Classify.statusCode := 200 |};
    {| Classify.url := "http://b.test"; Classify.statusCode := 204 |};
    {| Classify.url := "http://c.test"; Classify.statusCode := 200 |} ].

(** Two endpoints answer in the same class with different codes. *)
Definition two_codes_one_class : list Classify.statusResult :=
  [ {| Classify.url := "http://a.test"; Classify.statusCode := 200 |};
    {| Classify.url := "http://b.test"; Classify.statusCode := 204 |} ].

(** ** Statements of the specification that the programs do not meet

    Each is written down as the specification words it, to be refuted on
    a concrete input. *)


(** "A configured rate of zero or negative is a configuration error
    reported before any probing begins": a diagnostic and an exit status,
    so in particular no run with such a rate ends in a runtime panic. *)
Definition rate_is_validated : Prop :=
  ∀ Head creatable room (f : flags) lines fs0 s,
    flag_d f ≤ 0 →
    rtc (V1.step Head creatable room f) (V1.init f lines fs0) s →
    ∀ why, status (V1.pl s) ≠ Panicked why.

(** "An admission gate with capacity C (configurable, independent of
    rate)": two runs under the same rate can have semaphores of different
    capacities. *)
Definition capacity_independent_of_rate : Prop :=
  ∃ Head creatable room (f1 f2 : flags) lines fs0 s1 s2,
    flag_d f1 = flag_d f2
    ∧ rtc (V1.step Head creatable room f1) (V1.init f1 lines fs0) s1
    ∧ rtc (V1.step Head creatable room f2) (V1.init f2 lines fs0) s2
    ∧ phase (V1.pl s1) ≠ Setup ∧ phase (V1.pl s2) ≠ Setup
    ∧ capacity (V1.pl s1) ≠ capacity (V1.pl s2).

(** "Any comma-separated part shorter than 3 characters, not ending in
    "xx", or whose first character is not a digit contributes no
    statuses", read on the parts as [strings.Split] yields them. *)
Definition malformed_parts_ignored : Prop :=
  ∀ (ranges : gmap Z bool) (part : string),
    (String.length part < 3)%nat
    ∨ HasSuffix part "xx" = false
    ∨ (∃ a rest, part = String a rest ∧ digit a = None) →
    V3.parse_part ranges part = ranges.

(** With a filter, the one output file lists the endpoints whose status
    is selected "in their completion order". *)
Definition filtered_in_completion_order : Prop :=
  ∀ (creatable : string → bool) (room : string → option nat)
    (f : V3.flags)
    (rs : list Classify.statusResult) ranges (fs fs' : files) (code : Z),
    V3.parseStatusRanges (V3.flag_only f) = Some ranges →
    creatable (V3.flag_o f +:+ ".txt") = true →
    room (V3.flag_o f +:+ ".txt") = None →
    V3.finish creatable room f (V3.aggregated rs) fs fs' code →
    fs' !! (V3.flag_o f +:+ ".txt")
    = Some (file_of
              (Classify.url <$>
                 filter (λ r, V3.selected ranges (Classify.statusCode r) = true)
                        rs)).

(** ** Bookkeeping for the properties of whole runs *)

(** What the prober of [u] sends on [outputChan], if anything. *)
Definition sends {M : Type} (checkURL : string → bool → list event * option M)
    (v : bool) (u : string) : option M :=
  (checkURL u v).2.

(** What is in [outputChan] or will be sent by the probers now inside
    [checkURL]. *)
Definition pending {M : Type}
    (checkURL : string → bool → list event * option M) (p : pool M) : list M :=
  chan p ++ omap (sends checkURL (verbose p)) (running p).

(** The results filed in the map of the classifying program, one per url. *)
Definition filed (results : gmap Z (list string))
    : list Classify.statusResult :=
  map_to_list results ≫=
    (λ e, (λ u, {| Classify.url := u; Classify.statusCode := e.1 |}) <$> e.2).

(** The probers in flight are endpoints of the list, in the order of the
    list, and the channel has room for whatever they send. *)
Record pool_order {M : Type} (p : pool M) : Prop := {
  ord_running : running p `sublist_of` take (next p) (urls p);
  ord_room : (length (chan p) + length (running p) ≤ next p)%nat;
  ord_next : (next p ≤ length (urls p))%nat;
}.

(** The url the simple prober of [u] sends: the normalized endpoint, when
    the HEAD request got the status 200. *)
Definition live_url (Head : string → response) (u : string) : option string :=
  match Head (add_scheme u) with
  | TransportError => None
  | Status code => if code =? 200 then Some (add_scheme u) else None
  end.

(** The result the classifying prober of [u] sends: the normalized
    endpoint with its status, when the HEAD request got a response. *)
Definition answer (Head : string → response) (u : string)
    : option Classify.statusResult :=
  match Head (add_scheme u) with
  | TransportError => None
  | Status code =>
      Some {| Classify.url := add_scheme u; Classify.statusCode := code |}
  end.

(** The line the verbose prober of [u] prints. *)
Definition report (Head : string → response) (u : string) : event :=
  match Head (add_scheme u) with
  | TransportError => PrintError (add_scheme u)
  | Status code => PrintCheck (add_scheme u) code
  end.

(** The lines the probers of [us] print. *)
Definition log_of (Head : string → response) (v : bool) (us : list string)
    : list event :=
  if v then report Head <$> us else [].

(** What is printed and what the probers in flight will print are the
    lines of the started endpoints. *)
Definition pool_log {M : Type} (Head : string → response) (p : pool M)
    : Prop :=
  stdout p ++ log_of Head (verbose p) (running p)
  ≡ₚ log_of Head (verbose p) (take (next p) (urls p)).

(** What holds of the later programs as long as [main] has taken no
    signal: [processURLs] returns through [wg.Wait] only, the channel is
    closed after that only, and [done] after the channel is drained. *)
Definition no_signal_inv {M A : Type} (s : Graceful.state M A) : Prop :=
  let p := Graceful.pl s in
  (phase p = Waiting → next p = length (urls p))
  ∧ (phase p = Returned → next p = length (urls p) ∧ running p = [])
  ∧ (closed p = true → phase p = Returned)
  ∧ (Graceful.done s = true → closed p = true ∧ chan p = [])
  ∧ (Graceful.at_main s ≠ Graceful.Selecting → Graceful.done s = true)
  ∧ status p ≠ Panicked SendOnClosedChannel.

(** A filter without a well-formed part. *)
Definition only_malformed : V3.flags :=
  {| V3.flag_l := ""; V3.flag_o := "status"; V3.flag_d := 10;
     V3.flag_v := false; V3.flag_only := "xx,2x,abc" |}.

(** The map [saved] is an earlier stage of the map [results]: every
    entry of [saved] is the beginning of the entry of [results] under the
    same status code. *)
Definition earlier_stage (saved results : gmap Z (list string)) : Prop :=
  ∀ c l, saved !! c = Some l → ∃ l', results !! c = Some l' ∧ l `prefix_of` l'.

(** * Properties *)

(** ** Saving *)

Lemma fits_empty (room : option nat) : fits room "" = true.
Proof. by destruct room. Qed.

Lemma fits_no_limit (content : string) : fits None content = true.
Proof. done. Qed.

Lemma reaches_fits (room : option nat) (content : string) :
  fits room content = true → reaches room content = content.
Proof. destruct room as [n|]; [|done]. simpl. by intros ->. Qed.

(** What reaches the file is a beginning of the content. *)
Lemma reaches_prefix (room : option nat) (content : string) :
  ∃ rest, content = reaches room content +:+ rest.
Proof.
  destruct room as [n|]; simpl.
  - destruct (_ <=? _)%nat.
    + exists "". clear. induction content as [|a c IH]; [done|].
      change (String a c = String a (c +:+ "")). by rewrite <- IH.
    + unfold slice_to. revert n.
      induction content as [|a c IH]; intros n.
      * exists "". by destruct n.
      * destruct n as [|n]; [by exists (String a c)|].
        destruct (IH n) as [rest Hrest]. exists rest. simpl.
        change (String a c = String a (substring 0 n c +:+ rest)).
        by rewrite <- Hrest.
  - exists "". clear. induction content as [|a c IH]; [done|].
    change (String a c = String a (c +:+ "")). by rewrite <- IH.
Qed.

Section SaveURLs.
Variable creatable : string → bool.
Variable room : string → option nat.

Lemma saveURLs_create_fails p urls (fs : files) :
  creatable p = false →
  saveURLs creatable room p urls fs = (fs, Some CreateError).
Proof. unfold saveURLs. by intros ->. Qed.

Lemma saveURLs_fits p urls (fs : files) :
  creatable p = true → fits (room p) (file_of urls) = true →
  saveURLs creatable room p urls fs = (<[p := file_of urls]> fs, None).
Proof.
  unfold saveURLs. intros -> Hfit. by rewrite Hfit, reaches_fits.
Qed.

Lemma saveURLs_no_limit p urls (fs : files) :
  creatable p = true → room p = None →
  saveURLs creatable room p urls fs = (<[p := file_of urls]> fs, None).
Proof. intros Hcr Hroom. apply saveURLs_fits; [done|]. by rewrite Hroom. Qed.

Lemma saveURLs_short p urls (fs : files) :
  creatable p = true → fits (room p) (file_of urls) = false →
  saveURLs creatable room p urls fs
  = (<[p := reaches (room p) (file_of urls)]> fs, Some WriteError).
Proof. unfold saveURLs. by intros -> ->. Qed.

(** The three ways a save can go. *)
Lemma saveURLs_cases p urls (fs : files) :
  (creatable p = false
   ∧ saveURLs creatable room p urls fs = (fs, Some CreateError))
  ∨ (creatable p = true ∧ fits (room p) (file_of urls) = true
     ∧ saveURLs creatable room p urls fs = (<[p := file_of urls]> fs, None))
  ∨ (creatable p = true ∧ fits (room p) (file_of urls) = false
     ∧ saveURLs creatable room p urls fs
       = (<[p := reaches (room p) (file_of urls)]> fs, Some WriteError)).
Proof.
  destruct (creatable p) eqn:Hcr.
  - destruct (fits (room p) (file_of urls)) eqn:Hfit.
    + right; left. by rewrite saveURLs_fits.
    + right; right. by rewrite saveURLs_short.
  - left. by rewrite saveURLs_create_fails.
Qed.

(** The three outcomes of a save, as the callers see them: the file
    system afterwards and the exit status they make of the error. *)
Lemma saveURLs_outcome (filename : string) (urls : list string)
    (fs fs' : files) (code : Z) :
  fs' = (saveURLs creatable room filename urls fs).1 →
  code = exit_of (saveURLs creatable room filename urls fs).2 →
  (creatable filename = false ∧ code = 1 ∧ fs' = fs)
  ∨ (creatable filename = true
     ∧ fits (room filename) (file_of urls) = true
     ∧ code = 0
     ∧ fs' = <[filename := file_of urls]> fs)
  ∨ (creatable filename = true
     ∧ fits (room filename) (file_of urls) = false
     ∧ code = 1
     ∧ fs' = <[filename := reaches (room filename) (file_of urls)]> fs).
Proof.
  intros -> ->.
  destruct (saveURLs_cases filename urls fs)
    as [[Hcr ->]|[(Hcr & Hfit & ->)|(Hcr & Hfit & ->)]]; simpl; auto 10.
Qed.

End SaveURLs.

Lemma V2_finish_cases (creatable : string → bool)
    (room : string → option nat) (f : flags) (l : list string)
    (fs fs' : files) (code : Z) :
  V2.finish creatable room f l fs fs' code →
  (creatable (flag_o f) = false ∧ fs' = fs ∧ code = 1)
  ∨ (creatable (flag_o f) = true
     ∧ fits (room (flag_o f)) (file_of l) = true
     ∧ fs' = <[flag_o f := file_of l]> fs ∧ code = 0)
  ∨ (creatable (flag_o f) = true
     ∧ fits (room (flag_o f)) (file_of l) = false
     ∧ fs' = <[flag_o f := reaches (room (flag_o f)) (file_of l)]> fs
     ∧ code = 1).
Proof.
  intros [-> ->].
  destruct (saveURLs_cases creatable room (flag_o f) l fs)
    as [[Hcr ->]|[(Hcr & Hfit & ->)|(Hcr & Hfit & ->)]]; simpl; auto 10.
Qed.

Lemma V2_finish_fits (creatable : string → bool)
    (room : string → option nat) (f : flags) (l : list string) (fs : files) :
  creatable (flag_o f) = true → fits (room (flag_o f)) (file_of l) = true →
  V2.finish creatable room f l fs (<[flag_o f := file_of l]> fs) 0.
Proof.
  intros Hcr Hfit. unfold V2.finish. by rewrite saveURLs_fits.
Qed.


(** ** The definitions on small inputs *)

(** A tab, spaces and a carriage return around a host. *)
Example TrimSpace_ascii :
  TrimSpace (String "009" "  example.com " +:+ String "013" "")
  = "example.com".
Proof. reflexivity. Qed.

(** U+00A0 (bytes 194 160) at the end, a plain space inside. *)
Example TrimSpace_nbsp :
  TrimSpace ("a b" +:+ String (ascii_of_N 194) (String (ascii_of_N 160) ""))
  = "a b".
Proof. reflexivity. Qed.

Example Split_commas : Split "2xx, 3xx,,x" "," = ["2xx"; " 3xx"; ""; "x"].
Proof. reflexivity. Qed.

Example Atoi_samples :
  Atoi "12" = Some 12 ∧ Atoi "-3" = Some (-3) ∧ Atoi "+" = None
  ∧ Atoi "x" = None ∧ Atoi "" = None.
Proof. by vm_compute. Qed.

Example parse_2xx_3xx :
  (V3.parseStatusRanges "2xx, 3xx" ≫= (.!! 200)) = Some true
  ∧ (V3.parseStatusRanges "2xx, 3xx" ≫= (.!! 399)) = Some true
  ∧ (V3.parseStatusRanges "2xx, 3xx" ≫= (.!! 404)) = None.
Proof. by vm_compute. Qed.

Example rangeFile_204 : V3.rangeFile "status" 204 = "status_2xx.txt".
Proof. by vm_compute. Qed.

Example checkURL_200 :
  Liveurls.checkURL (λ _, Status 200) "example.com" true
  = ([PrintCheck "http://example.com" 200], Some "http://example.com").
Proof. reflexivity. Qed.

Example checkURL_404 :
  Liveurls.checkURL (λ _, Status 404) "https://ok.test" false = ([], None)
  ∧ Classify.checkURL (λ _, Status 404) "https://ok.test" false
    = ([], Some {| Classify.url := "https://ok.test";
                   Classify.statusCode := 404 |}).
Proof. split; reflexivity. Qed.

(** ** Strings *)

Lemma HasPrefix_spec (s pre : string) :
  HasPrefix s pre = true ↔ ∃ r, s = pre +:+ r.
Proof.
  unfold HasPrefix. revert s.
  induction pre as [|a pre IH]; intros s; simpl.
  - destruct s; simpl; split; eauto.
  - destruct s as [|b s]; simpl.
    + split; [done | intros [r Hr]; discriminate].
    + destruct (Ascii.ascii_dec a b) as [->|Hne].
      * rewrite IH. split; intros [r Hr]; exists r.
        -- by rewrite Hr.
        -- change (String b pre +:+ r) with (String b (pre +:+ r)) in Hr.
           by injection Hr.
      * split; [done | intros [r Hr]].
        change (String a pre +:+ r) with (String a (pre +:+ r)) in Hr.
        injection Hr as Hab _. by symmetry in Hab.
Qed.

Lemma add_scheme_without (u : string) :
  HasPrefix u "http://" = false → HasPrefix u "https://" = false →
  add_scheme u = "http://" +:+ u.
Proof. unfold add_scheme. by intros -> ->. Qed.

Lemma add_scheme_with (u : string) :
  HasPrefix u "http://" = true ∨ HasPrefix u "https://" = true →
  add_scheme u = u.
Proof.
  unfold add_scheme. intros [-> | ->]; simpl; [done|].
  by rewrite andb_false_r.
Qed.

Lemma add_scheme_has_scheme (u : string) :
  HasPrefix (add_scheme u) "http://" = true
  ∨ HasPrefix (add_scheme u) "https://" = true.
Proof.
  unfold add_scheme.
  destruct (HasPrefix u "http://") eqn:E1; simpl; [by left|].
  destruct (HasPrefix u "https://") eqn:E2; simpl; [by right|].
  left. apply HasPrefix_spec. by exists u.
Qed.

Lemma add_scheme_idempotent (u : string) :
  add_scheme (add_scheme u) = add_scheme u.
Proof. apply add_scheme_with, add_scheme_has_scheme. Qed.



(** ** The dispatcher and its probers *)

Section PoolFacts.
Context {M : Type}.
Variable checkURL : string → bool → list event * option M.

Lemma pool_step_frame stopped (p p' : pool M) :
  pool_step checkURL stopped p p' →
  urls p' = urls p ∧ requestsPerSecond p' = requestsPerSecond p
  ∧ verbose p' = verbose p.
Proof. destruct 1; simpl; auto. Qed.

Lemma pool_step_alive stopped (p p' : pool M) :
  pool_step checkURL stopped p p' → status p = Alive.
Proof. by destruct 1. Qed.

Lemma take_S_elem (us : list string) (n : nat) (u : string) :
  u ∈ take n us → u ∈ take (S n) us.
Proof.
  intros Hu. destruct (us !! n) as [x|] eqn:E.
  - rewrite (take_S_r _ _ _ E). apply elem_of_app. by left.
  - apply lookup_ge_None in E.
    rewrite take_ge in Hu by lia. rewrite take_ge by lia. done.
Qed.

Lemma emitted_S us v n (m : M) :
  emitted checkURL us v n m → emitted checkURL us v (S n) m.
Proof.
  intros (u & pr & Hu & Hc). exists u, pr. split; [by apply take_S_elem|done].
Qed.

Lemma pool_init_inv us rps v : pool_inv checkURL (pool_init us rps v).
Proof.
  constructor; simpl; try done. lia.
Qed.

Lemma pool_step_inv stopped (p p' : pool M) :
  pool_step checkURL stopped p p' → pool_inv checkURL p → pool_inv checkURL p'.
Proof.
  intros Hstep [Hn Hs Hr Hc Hsetup Hph].
  destruct Hstep as [p cap per Hal Hp Hset|p why Hal Hp Hset|p Hal Hp Hlt
    |p Hal Hp Hlt Hst|p u Hal Hp Hslot Hu|p Hal Hp Hn'|p Hal Hp Hrun
    |p before u after pr Hal Hrun Hcu|p before u after pr m Hal Hrun Hcu Hcl Hlen
    |p before u after pr m Hal Hrun Hcu Hcl|p n Hal Hrel];
    constructor; simpl; try done; try congruence; eauto;
    try (intros _; apply Hph; congruence).
  - (* the setup succeeds *)
    destruct (Hsetup Hp) as (_ & Hrn & Hrl & _). unfold slots. simpl.
    rewrite Hrn, Hrl. simpl.
    unfold processURLs_setup in Hset. repeat case_match; simplify_eq. lia.
  - (* spawn *)
    apply lookup_lt_Some in Hu. lia.
  - unfold slots in *. simpl. rewrite length_app. simpl. lia.
  - apply Forall_app. split.
    + eapply Forall_impl; [exact Hr|]. intros x. apply take_S_elem.
    + apply Forall_singleton. rewrite (take_S_r _ _ _ Hu).
      apply elem_of_app. right. by apply list_elem_of_singleton.
  - eapply Forall_impl; [exact Hc|]. intros x. apply emitted_S.
  - (* a prober leaves without sending *)
    unfold slots in *; simpl. rewrite Hrun in Hs.
    rewrite !length_app in *. simpl in *. lia.
  - rewrite Hrun in Hr. apply Forall_app in Hr as [H1 H2].
    apply Forall_cons in H2 as [_ H2]. apply Forall_app. done.
  - intros Hp. destruct (Hsetup Hp) as (_ & Hrn & _).
    rewrite Hrn in Hrun. by destruct before.
  - (* a prober sends and leaves *)
    unfold slots in *; simpl. rewrite Hrun in Hs.
    rewrite !length_app in *. simpl in *. lia.
  - rewrite Hrun in Hr. apply Forall_app in Hr as [H1 H2].
    apply Forall_cons in H2 as [_ H2]. apply Forall_app. done.
  - apply Forall_app. split; [done|]. apply Forall_singleton.
    exists u, pr. split; [|done].
    rewrite Hrun in Hr. apply Forall_app in Hr as [_ H2].
    by apply Forall_cons in H2 as [H2 _].
  - intros Hp. destruct (Hsetup Hp) as (_ & Hrn & _).
    rewrite Hrn in Hrun. by destruct before.
  - (* a slot is released *)
    unfold slots in *; simpl. rewrite Hrel in Hs. lia.
  - intros Hp. destruct (Hsetup Hp) as (_ & _ & Hz & _). congruence.
Qed.

(** Receiving from [outputChan], closing it and ending the process keep
    the invariant. *)
Lemma set_chan_inv (p : pool M) (x : M) (rest : list M) :
  chan p = x :: rest → pool_inv checkURL p → pool_inv checkURL (set_chan p rest).
Proof.
  intros Hch [Hn Hs Hr Hc Hsetup Hph]. constructor; simpl; try done.
  - rewrite Hch in Hc. by apply Forall_cons in Hc as [_ ?].
  - intros Hp. destruct (Hsetup Hp) as (_ & _ & _ & Hz & _). congruence.
Qed.

Lemma set_closed_inv (p : pool M) :
  pool_inv checkURL p → pool_inv checkURL (set_closed p).
Proof. intros [Hn Hs Hr Hc Hsetup Hph]. by constructor. Qed.

Lemma set_status_inv (p : pool M) st :
  pool_inv checkURL p → pool_inv checkURL (set_status p st).
Proof. intros [Hn Hs Hr Hc Hsetup Hph]. by constructor. Qed.

End PoolFacts.

Lemma pool_step_closed {M : Type} (checkURL : string → bool → list event * option M)
    stopped (p p' : pool M) :
  pool_step checkURL stopped p p' → closed p' = closed p.
Proof. by destruct 1. Qed.

(** ** The first program: main never leaves its range loop *)

Section V1Facts.
Variable Head : string → response.
Variable creatable : string → bool.
Variable room : string → option nat.
Variable f : flags.
Variable lines : list string.
Variable fs0 : files.

Let step := V1.step Head creatable room f.
Let init := V1.init f lines fs0.
Let check := Liveurls.checkURL Head.

Let V1_inv := V1.inv Head f lines fs0.

Lemma V1_init_inv : V1_inv init.
Proof.
  unfold V1_inv, V1.inv, init, V1.init. simpl.
  case_decide as Hlen; simpl;
    (split; [try apply set_status_inv; apply pool_init_inv|]);
    split_and!; try done.
  intros code [= <-]. split; [done|]. by apply length_zero_iff_nil.
Qed.

Lemma V1_step_inv (s s' : V1.state) : step s s' → V1_inv s → V1_inv s'.
Proof.
  intros Hstep (Hp & Hu & Hr & Hv & Hc & Hm & Hfs & Hst & Hl).
  destruct Hstep as [s p' Hw|s x rest Hal Hat Hch|s Hal Hat Hcl Hch
    |s Hal Hat Hcl|s Hal Hat Hcl|s Hal Hat Hcr|s Hal Hat Hcr Hfit
    |s Hal Hat Hcr Hfit Hlen|s Hal Hat Hcr Hfit];
    try congruence.
  - destruct (pool_step_frame _ _ _ _ Hw) as (E1 & E2 & E3).
    unfold V1_inv, V1.inv; simpl. split_and!; try congruence.
    + by eapply pool_step_inv.
    + by rewrite (pool_step_closed _ _ _ _ Hw).
    + intros code Hcode. apply Hst. destruct Hw; simpl in *; congruence.
    + eapply Forall_impl; [exact Hl|]. intros m Hm'.
      destruct Hw; simpl; try done. by apply emitted_S.
  - unfold V1_inv, V1.inv; simpl. split_and!; try done.
    + by eapply set_chan_inv.
    + apply Forall_app. split; [done|]. apply Forall_singleton.
      destruct Hp as [_ _ _ Hchan _ _]. rewrite Hch in Hchan.
      apply Forall_cons in Hchan as [Hx _]. by rewrite Hu, Hv in Hx.
Qed.

Lemma V1_reachable_inv (s : V1.state) : rtc step init s → V1_inv s.
Proof.
  revert s. apply rtc_ind_r; [apply V1_init_inv|].
  intros y z _ Hyz IH. by eapply V1_step_inv.
Qed.

End V1Facts.

(** ** The programs that handle the interrupt *)

Section GracefulFacts.
Context {M A : Type}.
Variable checkURL : string → bool → list event * option M.
Variable collect : M → A → A.
Variable finish : A → files → files → Z → Prop.
Variables (us : list string) (rps : Z) (v : bool) (a0 : A) (fs0 : files).

Let step := Graceful.step checkURL collect finish.
Let init : Graceful.state M A := Graceful.init us rps v a0 fs0.

Let Graceful_inv := Graceful.inv checkURL us rps v (A:=A).

Lemma Graceful_init_inv : Graceful_inv init.
Proof.
  unfold Graceful_inv, Graceful.inv, init, Graceful.init. simpl.
  case_decide; simpl;
    (split; [try apply set_status_inv; apply pool_init_inv|]);
    repeat split; done.
Qed.

Lemma Graceful_step_inv (s s' : Graceful.state M A) :
  step s s' → Graceful_inv s → Graceful_inv s'.
Proof.
  intros Hstep (Hp & Hu & Hr & Hv & Hh).
  destruct Hstep as [s p' Hw|s Hal Hph Hcl|s Hal|s x rest Hal Hh' Hch
    |s x Hal Hh'|s x rest Hal Hd Hch|s Hal Hd Hcl Hch|s Hal Hat Hsig
    |s Hal Hat Hd|s fs' code Hal Hat Hfin|s Hal Hat];
    unfold Graceful_inv, Graceful.inv; simpl; split_and!; try done;
    eauto using set_closed_inv, set_chan_inv, set_status_inv.
  - by eapply pool_step_inv.
  - destruct (pool_step_frame _ _ _ _ Hw) as (E1 & E2 & E3). congruence.
  - destruct (pool_step_frame _ _ _ _ Hw) as (E1 & E2 & E3). congruence.
  - destruct (pool_step_frame _ _ _ _ Hw) as (E1 & E2 & E3). congruence.
  - intros m Hm. specialize (Hh m Hm).
    destruct Hw; simpl; try done. by apply emitted_S.
  - intros m [= <-]. destruct Hp as [_ _ _ Hchan _ _]. rewrite Hch in Hchan.
    apply Forall_cons in Hchan as [Hx _]. by rewrite Hu, Hv in Hx.
  - case_decide; [done|]. by apply set_status_inv.
  - by case_decide.
  - by case_decide.
  - by case_decide.
  - case_decide; simpl; done.
Qed.

Lemma Graceful_reachable_inv (s : Graceful.state M A) :
  rtc step init s → Graceful_inv s.
Proof.
  revert s. apply rtc_ind_r; [apply Graceful_init_inv|].
  intros y z _ Hyz IH. by eapply Graceful_step_inv.
Qed.

End GracefulFacts.

(** ** Endpoints: blank lines and the default scheme *)



Lemma Classify_checkURL_probes (Head Head' : string → response) u v :
  Head (add_scheme u) = Head' (add_scheme u) →
  Classify.checkURL Head u v = Classify.checkURL Head' u v.
Proof. unfold Classify.checkURL. by intros ->. Qed.

Lemma Liveurls_checkURL_sends (Head : string → response) u v x :
  (Liveurls.checkURL Head u v).2 = Some x ↔
  x = add_scheme u ∧ Head (add_scheme u) = Status 200.
Proof.
  unfold Liveurls.checkURL.
  destruct (Head (add_scheme u)) as [|code] eqn:E.
  - destruct v; simpl; split; [done|intros [_ ?]; done|done|intros [_ ?]; done].
  - destruct (code =? 200) eqn:Hc; simpl.
    + apply Z.eqb_eq in Hc as ->. split; [by intros [= <-]|by intros [-> _]].
    + apply Z.eqb_neq in Hc. split; [done|]. intros [_ [= ?]]. done.
Qed.

Lemma Classify_checkURL_sends (Head : string → response) u v r :
  (Classify.checkURL Head u v).2 = Some r ↔
  Classify.url r = add_scheme u
  ∧ Head (add_scheme u) = Status (Classify.statusCode r).
Proof.
  unfold Classify.checkURL.
  destruct (Head (add_scheme u)) as [|code] eqn:E.
  - destruct v; simpl; split; [done|intros [_ ?]; done|done|intros [_ ?]; done].
  - simpl. split.
    + by intros [= <-].
    + destruct r as [x c]. simpl. intros [-> [= ->]]. done.
Qed.


(** The scenario of the specification: one blank line, two endpoints. *)
Example scenario_blank_line_and_scheme :
  read_urls ["example.com"; "https://ok.test"; ""]
    = ["example.com"; "https://ok.test"]
  ∧ add_scheme <$> read_urls ["example.com"; "https://ok.test"; ""]
    = ["http://example.com"; "https://ok.test"].
Proof. split; reflexivity. Qed.

(** C9. The scheme check is an exact, case-sensitive prefix match on
    "http://" and "https://": an endpoint that starts with neither byte
    sequence is probed as "http://" followed by the entire original
    string, in all the programs. *)
Theorem scheme_check_is_exact_prefix (u : string) :
  (∀ r, u ≠ "http://" +:+ r) →
  (∀ r, u ≠ "https://" +:+ r) →
  add_scheme u = "http://" +:+ u
  ∧ (∀ Head v, Head ("http://" +:+ u) = Status 200 →
       (Liveurls.checkURL Head u v).2 = Some ("http://" +:+ u))
  ∧ (∀ Head v code, Head ("http://" +:+ u) = Status code →
       (Classify.checkURL Head u v).2
       = Some {| Classify.url := "http://" +:+ u;
                 Classify.statusCode := code |}).
Proof.
  intros H1 H2.
  assert (add_scheme u = "http://" +:+ u) as Hadd.
  { apply add_scheme_without.
    - destruct (HasPrefix u "http://") eqn:E; [|done].
      apply HasPrefix_spec in E as [r ->]. by destruct (H1 r).
    - destruct (HasPrefix u "https://") eqn:E; [|done].
      apply HasPrefix_spec in E as [r ->]. by destruct (H2 r). }
  split_and!; [done|..].
  - intros Head v HH. apply Liveurls_checkURL_sends. by rewrite Hadd.
  - intros Head v code HH. apply Classify_checkURL_sends. simpl.
    by rewrite Hadd.
Qed.

Lemma scheme_check_is_exact_prefix_witness :
  add_scheme "ftp://host" = "http://ftp://host"
  ∧ add_scheme "HTTPS://host" = "http://HTTPS://host".
Proof.
  split.
  - apply (scheme_check_is_exact_prefix "ftp://host"); intros r; discriminate.
  - apply (scheme_check_is_exact_prefix "HTTPS://host"); intros r; discriminate.
Defined.

(** ** The status-class filter *)

Lemma digit_bounds (a : ascii) (N : Z) : digit a = Some N → 0 ≤ N ≤ 9.
Proof.
  unfold digit. destruct (_ && _)%bool eqn:E; [|done].
  intros [= <-]. apply andb_true_iff in E as [H1%N.leb_le H2%N.leb_le]. lia.
Qed.

Lemma Atoi_one_byte (a : ascii) : Atoi (String a "") = digit a.
Proof.
  unfold Atoi.
  destruct (Ascii.eqb a "-") eqn:E1; [by apply Ascii.eqb_eq in E1 as ->|].
  destruct (Ascii.eqb a "+") eqn:E2; [by apply Ascii.eqb_eq in E2 as ->|].
  simpl. destruct (digit a) as [N|] eqn:E; [|done]. simpl.
  apply digit_bounds in E.
  destruct (_ && _)%bool eqn:Hr; [done|].
  apply andb_false_iff in Hr as [Hr%Z.leb_gt|Hr%Z.ltb_ge]; lia.
Qed.

Lemma slice_to_1 (a : ascii) (rest : string) :
  slice_to (String a rest) 1 = String a "".
Proof. unfold slice_to. simpl. by destruct rest. Qed.

Lemma HasSuffix_xx_long (a : ascii) (rest : string) (N : Z) :
  HasSuffix (String a rest) "xx" = true → digit a = Some N →
  (3 ≤ String.length (String a rest))%nat.
Proof.
  intros Hs Hd. destruct rest as [|b [|c rest]]; simpl; [..|lia].
  - discriminate Hs.
  - unfold HasSuffix in Hs. simpl in Hs.
    destruct (Ascii.eqb a "x") eqn:Ea; [|done].
    apply Ascii.eqb_eq in Ea as ->. discriminate Hd.
Qed.

Lemma class_fold_lookup (base : Z) (r0 : gmap Z bool) (n : nat) (c : Z) :
  foldl (λ r i, <[base * 100 + Z.of_nat i := true]> r) r0 (seq 0 n) !! c
  = if decide (base * 100 ≤ c < base * 100 + Z.of_nat n) then Some true
    else r0 !! c.
Proof.
  induction n as [|n IH].
  - simpl. case_decide; [lia|done].
  - rewrite seq_S, foldl_app. simpl. rewrite lookup_insert, IH.
    repeat case_decide; try done; lia.
Qed.

Lemma parse_part_malformed (ranges : gmap Z bool) (part : string) :
  (String.length (TrimSpace part) < 3)%nat
  ∨ HasSuffix (TrimSpace part) "xx" = false
  ∨ (∃ a rest, TrimSpace part = String a rest ∧ digit a = None) →
  V3.parse_part ranges part = ranges.
Proof.
  unfold V3.parse_part, len. intros [Hlen|[Hsuf|(a & rest & Hp & Hd)]].
  - destruct (_ <? 3) eqn:E; [done|]. apply Z.ltb_ge in E. lia.
  - rewrite Hsuf. simpl. by rewrite orb_true_r.
  - destruct (_ || _); [done|].
    by rewrite Hp, slice_to_1, Atoi_one_byte, Hd.
Qed.

Lemma parse_part_class (ranges : gmap Z bool) (part : string) a rest N c :
  TrimSpace part = String a rest → digit a = Some N →
  HasSuffix (String a rest) "xx" = true →
  V3.selected (V3.parse_part ranges part) c
  = if decide (N * 100 ≤ c ≤ N * 100 + 99) then true
    else V3.selected ranges c.
Proof.
  intros Hp Hd Hs. unfold V3.parse_part, len. rewrite Hp, Hs.
  pose proof (HasSuffix_xx_long _ _ _ Hs Hd) as Hlen.
  destruct (_ <? 3) eqn:E; [apply Z.ltb_lt in E; lia|]. cbn [orb negb].
  rewrite slice_to_1, Atoi_one_byte, Hd.
  unfold V3.selected. rewrite class_fold_lookup.
  repeat case_decide; try done; lia.
Qed.

(** A part selects the status [c]: trimmed, it ends in "xx" and starts
    with the digit of the hundreds of [c]. *)
Lemma parse_part_selected (ranges : gmap Z bool) (part : string) (c : Z) :
  V3.selected (V3.parse_part ranges part) c = true ↔
  V3.selected ranges c = true ∨ V3.part_selects part c.
Proof.
  unfold V3.part_selects.
  destruct (TrimSpace part) as [|a rest] eqn:Hp.
  { rewrite parse_part_malformed by (left; rewrite Hp; simpl; lia).
    split; [by left|]. intros [?|(a & rest & N & ? & _)]; done. }
  destruct (HasSuffix (String a rest) "xx") eqn:Hs; cycle 1.
  { rewrite parse_part_malformed by (right; left; by rewrite Hp).
    split; [by left|]. intros [?|(a' & rest' & N & [= <- <-] & _ & ? & _)];
      congruence. }
  destruct (digit a) as [N|] eqn:Hd; cycle 1.
  { rewrite parse_part_malformed by (right; right; eauto).
    split; [by left|]. intros [?|(a' & rest' & N & [= <- <-] & ? & _)];
      congruence. }
  rewrite (parse_part_class _ _ _ _ _ _ Hp Hd Hs). case_decide as Hc.
  - split; [|done]. intros _. right. by exists a, rest, N.
  - split; [by left|]. intros [?|(a' & rest' & N' & [= <- <-] & ? & _ & ?)];
      [done|]. simplify_eq. lia.
Qed.

Lemma foldl_parse_part_selected (parts : list string) (r0 : gmap Z bool) c :
  V3.selected (foldl V3.parse_part r0 parts) c = true ↔
  V3.selected r0 c = true ∨ ∃ part, part ∈ parts ∧ V3.part_selects part c.
Proof.
  revert r0. induction parts as [|p parts IH]; intros r0; simpl.
  - split; [by left|]. intros [?|(p & ?%elem_of_nil & _)]; done.
  - rewrite IH, parse_part_selected. split.
    + intros [[?|?]|(q & ? & ?)]; [by left|right..].
      * exists p. split; [left|done].
      * exists q. split; [by right|done].
    + intros [?|(q & [->|?]%elem_of_cons & ?)]; [by left; left|by left; right|].
      right. by exists q.
Qed.

(** C10, as stated, fails on a padded part: in "2xx, 3xx" the second
    part is " 3xx", its first character is a space, and yet it selects
    300..399, because the loop trims the part before it looks at it. *)
Lemma padded_part_is_not_ignored : ¬ malformed_parts_ignored.
Proof.
  intros Hclaim.
  assert (V3.parse_part ∅ " 3xx" = ∅) as Hsame.
  { apply Hclaim. right; right. by exists " "%char, "3xx". }
  assert (V3.selected (V3.parse_part ∅ " 3xx") 300 = true) as Hsel.
  { by rewrite (parse_part_class ∅ " 3xx" "3" "xx" 3 300). }
  rewrite Hsame in Hsel. discriminate Hsel.
Qed.

(** C10, as amended.  [parseStatusRanges] reports no error: it returns
    the nil map on the empty string and a map otherwise.  A
    comma-separated part that, once trimmed of surrounding white space,
    is shorter than 3 bytes, does not end in "xx" or does not start with
    a digit adds nothing; a part that, once trimmed, ends in "xx" and
    starts with the digit N adds the whole class N*100 .. N*100+99,
    whatever stands between ("20xx" selects 200..299, and " 3xx" selects
    300..399). *)
Theorem parseStatusRanges_ignores_malformed :
  V3.parseStatusRanges "" = None
  ∧ (∀ only, only ≠ "" →
       ∃ ranges, V3.parseStatusRanges only = Some ranges
       ∧ ∀ c, V3.selected ranges c = true ↔
              ∃ part, part ∈ Split only "," ∧ V3.part_selects part c)
  ∧ (∀ ranges part,
       (String.length (TrimSpace part) < 3)%nat
       ∨ HasSuffix (TrimSpace part) "xx" = false
       ∨ (∃ a rest, TrimSpace part = String a rest ∧ digit a = None) →
       V3.parse_part ranges part = ranges)
  ∧ (∀ ranges part a rest N c,
       TrimSpace part = String a rest → digit a = Some N →
       HasSuffix (String a rest) "xx" = true →
       V3.selected (V3.parse_part ranges part) c
       = if decide (N * 100 ≤ c ≤ N * 100 + 99) then true
         else V3.selected ranges c)
  ∧ (∃ ranges, V3.parseStatusRanges "20xx" = Some ranges
       ∧ ∀ c, V3.selected ranges c = true ↔ 200 ≤ c ≤ 299)
  ∧ (∃ ranges, V3.parseStatusRanges "2xx, 3xx" = Some ranges
       ∧ ∀ c, V3.selected ranges c = true ↔ 200 ≤ c ≤ 399).
Proof.
  split_and!.
  - reflexivity.
  - intros only Hne. unfold V3.parseStatusRanges. case_decide; [done|].
    eexists. split; [done|]. intros c.
    rewrite foldl_parse_part_selected. unfold V3.selected at 1.
    rewrite lookup_empty. simpl. split; [intros [?|?]; done|by right].
  - apply parse_part_malformed.
  - apply parse_part_class.
  - eexists. split; [reflexivity|]. intros c. simpl.
    rewrite (parse_part_class ∅ "20xx" "2" "0xx" 2 c) by reflexivity.
    unfold V3.selected. rewrite lookup_empty. simpl.
    case_decide; split; (done || lia).
  - eexists. split; [reflexivity|]. intros c. simpl.
    rewrite (parse_part_class _ " 3xx" "3" "xx" 3 c) by reflexivity.
    rewrite (parse_part_class ∅ "2xx" "2" "xx" 2 c) by reflexivity.
    unfold V3.selected. rewrite lookup_empty. simpl.
    repeat case_decide; split; (done || lia).
Qed.

(** ** The save phase of the classifying program *)

Import Classify.

Lemma urls_with_snoc (c : Z) (rs : list statusResult) (r : statusResult) :
  V3.urls_with c (rs ++ [r])
  = V3.urls_with c rs ++ (if decide (statusCode r = c) then [url r] else []).
Proof.
  unfold V3.urls_with. rewrite filter_app, fmap_app. f_equal.
  rewrite filter_cons, filter_nil. by case_decide.
Qed.

Lemma aggregated_snoc (rs : list statusResult) (r : statusResult) :
  V3.aggregated (rs ++ [r]) = V3.collect r (V3.aggregated rs).
Proof. unfold V3.aggregated. by rewrite foldl_app. Qed.

(** The entry of a status code holds the urls received with that code,
    oldest first; a code that was not received has no entry. *)
Lemma aggregated_lookup (rs : list statusResult) (c : Z) :
  V3.aggregated rs !! c
  = match V3.urls_with c rs with [] => None | l => Some l end.
Proof.
  induction rs as [|r rs IH] using rev_ind; [done|].
  rewrite aggregated_snoc, urls_with_snoc. unfold V3.collect.
  rewrite lookup_insert. case_decide as Hc.
  - subst c. rewrite IH.
    destruct (V3.urls_with (statusCode r) rs); simpl; [done|].
    by destruct (l ++ [url r]) eqn:E; [destruct l; discriminate|].
  - by rewrite app_nil_r.
Qed.

Lemma urls_with_nil_iff (rs : list statusResult) (c : Z) :
  V3.urls_with c rs ≠ [] ↔ ∃ r, r ∈ rs ∧ statusCode r = c.
Proof.
  unfold V3.urls_with. split.
  - intros Hne. destruct (filter _ rs) as [|r l] eqn:E; [done|].
    assert (r ∈ filter (λ r, statusCode r = c) rs) as Hin by (rewrite E; left).
    apply list_elem_of_filter in Hin as [? ?]. by exists r.
  - intros (r & Hin & Hc) Hnil.
    assert (r ∈ filter (λ r, statusCode r = c) rs) as Hin'
      by by apply list_elem_of_filter.
    apply fmap_nil_inv in Hnil. rewrite Hnil in Hin'. by apply elem_of_nil in Hin'.
Qed.

Lemma filteredURLs_concat (ranges : gmap Z bool) (ord : list (Z * list string)) :
  V3.filteredURLs ranges ord
  = concat ((filter (λ e, V3.selected ranges e.1 = true) ord).*2).
Proof.
  unfold V3.filteredURLs.
  assert (∀ acc, foldl (λ acc e, if V3.selected ranges e.1 then acc ++ e.2
                                  else acc) acc ord
            = acc ++ concat ((filter (λ e, V3.selected ranges e.1 = true) ord).*2))
    as H; [|apply (H [])].
  induction ord as [|e ord IH]; intros acc; simpl.
  - by rewrite app_nil_r.
  - rewrite IH, filter_cons.
    destruct (V3.selected ranges e.1) eqn:E; case_decide; try done.
    simpl. by rewrite app_assoc.
Qed.

(** Whatever order the map is visited in, the filtered list is made of
    the groups of the selected status codes that were received, one after
    the other, each group in the order its urls were received. *)
Lemma filteredURLs_groups (ranges : gmap Z bool) (rs : list statusResult)
    (ord : list (Z * list string)) :
  ord ≡ₚ map_to_list (V3.aggregated rs) →
  ∃ codes, NoDup codes
    ∧ (∀ c, c ∈ codes ↔
         V3.selected ranges c = true ∧ ∃ r, r ∈ rs ∧ statusCode r = c)
    ∧ V3.filteredURLs ranges ord = codes ≫= (λ c, V3.urls_with c rs).
Proof.
  intros Hord.
  assert (∀ c l, (c, l) ∈ ord ↔ V3.aggregated rs !! c = Some l) as Hin.
  { intros c l. rewrite Hord. apply elem_of_map_to_list. }
  assert (NoDup (ord.*1)) as Hnd.
  { rewrite Hord. apply NoDup_fst_map_to_list. }
  exists (filter (λ c, V3.selected ranges c = true) (ord.*1)). split_and!.
  - by apply NoDup_filter.
  - intros c. rewrite list_elem_of_filter, list_elem_of_fmap. split.
    + intros [Hs ([c' l] & -> & He)]. split; [done|]. simpl in *.
      apply Hin in He. rewrite aggregated_lookup in He.
      apply urls_with_nil_iff. by destruct (V3.urls_with c' rs).
    + intros [Hs Hr]. split; [done|]. apply urls_with_nil_iff in Hr.
      exists (c, V3.urls_with c rs). split; [done|]. apply Hin.
      rewrite aggregated_lookup. by destruct (V3.urls_with c rs).
  - rewrite filteredURLs_concat.
    assert (Forall (λ e, e.2 = V3.urls_with e.1 rs) ord) as Hall.
    { apply Forall_forall. intros [c l] He. simpl. apply Hin in He.
      rewrite aggregated_lookup in He.
      by destruct (V3.urls_with c rs); simplify_eq. }
    clear Hord Hin Hnd. induction Hall as [|e ord He Hall IH]; [done|].
    rewrite fmap_cons, !filter_cons. simpl. case_decide; simpl; [|done].
    rewrite He. f_equal. exact IH.
Qed.

Lemma digit_chars (a : ascii) (N : Z) :
  digit a = Some N →
  a ∈ ["0"; "1"; "2"; "3"; "4"; "5"; "6"; "7"; "8"; "9"]%char.
Proof.
  destruct a as [[] [] [] [] [] [] [] []]; intros Hd; try discriminate Hd;
    set_solver.
Qed.

(** A one-digit selector is a well-formed part of its own. *)
Lemma one_digit_selector (a : ascii) (N : Z) :
  digit a = Some N →
  TrimSpace (String a "xx") = String a "xx"
  ∧ Split (String a "xx") "," = [String a "xx"]
  ∧ HasSuffix (String a "xx") "xx" = true.
Proof.
  intros Hd. apply digit_chars in Hd.
  repeat (apply elem_of_cons in Hd as [->|Hd]; [by vm_compute|]).
  by apply elem_of_nil in Hd.
Qed.

(** In a run of the classifying program the collector's map is built
    from results that started probers really sent, in the order the
    collector stored them. *)
Lemma V3_collected (Head : string → response) (creatable : string → bool)
    (room : string → option nat)
    (f : V3.flags) (lines : list string) (fs0 : files) (s : V3.state) :
  rtc (V3.step Head creatable room f) (V3.init f lines fs0) s →
  ∃ rs, Graceful.agg s = V3.aggregated rs
        ∧ Forall (λ r, ∃ u, u ∈ take (next (Graceful.pl s)) (read_urls lines)
                            ∧ url r = add_scheme u
                            ∧ Head (add_scheme u) = Status (statusCode r)) rs.
Proof.
  revert s. apply rtc_ind_r.
  { exists []. split; [done|]. constructor. }
  intros y z Hy Hyz (rs & Hagg & Hrs).
  apply Graceful_reachable_inv in Hy as (_ & _ & _ & _ & Hh).
  unfold V3.step in Hyz.
  destruct Hyz as [s p' Hw|s Hal Hph Hcl|s Hal|s x rest Hal Hh' Hch
    |s x Hal Hh'|s x rest Hal Hd Hch|s Hal Hd Hcl Hch|s Hal Hat Hsig
    |s Hal Hat Hd|s fs' code Hal Hat Hfin|s Hal Hat]; simpl;
    try (by exists rs).
  - exists rs. split; [done|]. eapply Forall_impl; [exact Hrs|].
    intros r (u & Hu & Hr). exists u. split; [|done].
    destruct Hw; simpl; try done. by apply take_S_elem.
  - exists (rs ++ [x]). split.
    + by rewrite aggregated_snoc, Hagg.
    + apply Forall_app. split; [done|]. apply Forall_singleton.
      destruct (Hh x Hh') as (u & pr & Hu & Hc). exists u. split; [done|].
      apply (Classify_checkURL_sends Head u (V3.flag_v f)). by rewrite Hc.
  - exists rs. split; [done|]. by case_decide.
Qed.

Lemma singleton_list (l : list Z) (x : Z) :
  NoDup l → (∀ c, c ∈ l ↔ c = x) → l = [x].
Proof.
  intros Hnd Hin. destruct l as [|y l].
  - exfalso. eapply elem_of_nil. by apply Hin.
  - assert (y = x) as -> by (apply Hin; left).
    destruct l as [|z l]; [done|].
    assert (z = x) as -> by (apply Hin; right; left).
    apply NoDup_cons in Hnd as [Hx _]. destruct Hx. left.
Qed.

Lemma finish_filtered (creatable : string → bool) (room : string → option nat)
    (f : V3.flags)
    (rs : list statusResult) ranges (fs fs' : files) (code : Z) :
  V3.parseStatusRanges (V3.flag_only f) = Some ranges →
  creatable (V3.flag_o f +:+ ".txt") = true →
  V3.finish creatable room f (V3.aggregated rs) fs fs' code →
  ∃ codes, NoDup codes
    ∧ (∀ c, c ∈ codes ↔
         V3.selected ranges c = true ∧ ∃ r, r ∈ rs ∧ statusCode r = c)
    ∧ fs' = <[V3.flag_o f +:+ ".txt" :=
                reaches (room (V3.flag_o f +:+ ".txt"))
                        (file_of (codes ≫= (λ c, V3.urls_with c rs)))]> fs
    ∧ code = (if fits (room (V3.flag_o f +:+ ".txt"))
                      (file_of (codes ≫= (λ c, V3.urls_with c rs)))
              then 0 else 1)
    ∧ (room (V3.flag_o f +:+ ".txt") = None →
       code = 0
       ∧ fs' = <[V3.flag_o f +:+ ".txt" :=
                   file_of (codes ≫= (λ c, V3.urls_with c rs))]> fs).
Proof.
  intros Hparse Hcr (ord & Hord & Hfin). rewrite Hparse in Hfin.
  unfold saveURLs in Hfin. rewrite Hcr in Hfin. simpl in Hfin.
  destruct Hfin as [-> ->].
  destruct (filteredURLs_groups ranges rs ord Hord) as (codes & Hnd & Hin & ->).
  exists codes. split_and!; [done..| |].
  - by destruct (fits _ _).
  - by intros ->.
Qed.

(** C7, as amended.  A one-digit selector "Nxx" selects exactly the
    status codes N*100 .. N*100+99.  With a filter, the save phase writes
    the one file [base.txt]; it holds exactly the endpoints the collector
    stored with a selected status code, grouped by status code: the groups
    come in the order the map happens to be visited in, and inside a group
    the endpoints are in completion order.  (That is what is written to
    the file: all of it arrives, with status 0, when the device has the
    room, and when it has not the file keeps the first bytes of it and
    the status is 1.)  Filter "2xx" with statuses 200, 200, 404 gives the
    two 200-status endpoints in completion order.  What the collector
    stores in a run are results of started probers. *)
Theorem filtered_file_groups_by_status :
  (∀ a N, digit a = Some N →
     ∃ ranges, V3.parseStatusRanges (String a "xx") = Some ranges
     ∧ ∀ c, V3.selected ranges c = true ↔ N * 100 ≤ c ≤ N * 100 + 99)
  ∧ (∀ (creatable : string → bool) (room : string → option nat)
        f rs ranges (fs fs' : files) code,
       V3.parseStatusRanges (V3.flag_only f) = Some ranges →
       creatable (V3.flag_o f +:+ ".txt") = true →
       V3.finish creatable room f (V3.aggregated rs) fs fs' code →
       ∃ codes, NoDup codes
         ∧ (∀ c, c ∈ codes ↔
              V3.selected ranges c = true ∧ ∃ r, r ∈ rs ∧ statusCode r = c)
         ∧ fs' = <[V3.flag_o f +:+ ".txt" :=
                     reaches (room (V3.flag_o f +:+ ".txt"))
                             (file_of (codes ≫= (λ c, V3.urls_with c rs)))]> fs
         ∧ code = (if fits (room (V3.flag_o f +:+ ".txt"))
                           (file_of (codes ≫= (λ c, V3.urls_with c rs)))
                   then 0 else 1)
         ∧ (room (V3.flag_o f +:+ ".txt") = None →
            code = 0
            ∧ fs' = <[V3.flag_o f +:+ ".txt" :=
                        file_of (codes ≫= (λ c, V3.urls_with c rs))]> fs))
  ∧ (∀ (fs fs' : files) code,
       V3.finish (λ _, true) (λ _, None) only_2xx
                 (V3.aggregated scenario_results) fs fs' code →
       code = 0
       ∧ fs' = <["status.txt" :=
                   file_of ["http://one.test"; "http://two.test"]]> fs)
  ∧ (∀ Head creatable room f lines fs0 (s : V3.state),
       rtc (V3.step Head creatable room f) (V3.init f lines fs0) s →
       ∃ rs, Graceful.agg s = V3.aggregated rs
             ∧ Forall (λ r, ∃ u, u ∈ read_urls lines
                                 ∧ url r = add_scheme u
                                 ∧ Head (url r) = Status (statusCode r)) rs).
Proof.
  assert (∀ a N, digit a = Some N →
     ∃ ranges, V3.parseStatusRanges (String a "xx") = Some ranges
     ∧ ∀ c, V3.selected ranges c = true ↔ N * 100 ≤ c ≤ N * 100 + 99) as Hsel.
  { intros a N Hd.
    destruct (one_digit_selector a N Hd) as (Htrim & Hsplit & Hsuf).
    unfold V3.parseStatusRanges. case_decide; [done|].
    eexists. split; [done|]. intros c. rewrite Hsplit. simpl.
    rewrite (parse_part_class ∅ _ a "xx" N c Htrim Hd Hsuf).
    unfold V3.selected. rewrite lookup_empty. simpl.
    case_decide; split; (done || lia). }
  split_and!; [done|apply finish_filtered| |].
  2:{ intros Head creatable room f lines fs0 s Hrun.
      destruct (V3_collected _ _ _ _ _ _ _ Hrun) as (rs & Hagg & Hrs).
      exists rs. split; [done|]. eapply Forall_impl; [exact Hrs|].
      intros r (u & Hu & Hr & HH). exists u. split_and!; [|done|by rewrite Hr].
      by apply elem_of_take in Hu as (i & ?%list_elem_of_lookup_2 & _). }
  intros fs fs' code Hfin.
  destruct (Hsel "2"%char 2 eq_refl) as (ranges & Hparse & Hranges).
  destruct (finish_filtered _ _ only_2xx _ ranges _ _ _ Hparse eq_refl Hfin)
    as (codes & Hnd & Hin & _ & _ & Hok).
  destruct (Hok eq_refl) as [-> ->].
  split; [done|].
  assert (codes = [200]) as ->; [|done].
  apply singleton_list; [done|]. intros c. rewrite Hin, Hranges.
  unfold scenario_results. split.
  - intros [Hc (r & Hr & <-)].
    repeat (apply elem_of_cons in Hr as [->|Hr]; simpl in *;
            [first [done|lia]|]).
    by apply elem_of_nil in Hr.
  - intros ->. split; [lia|]. eexists. split; [left|done].
Qed.

(** C7, as stated, fails: with filter "2xx" and completions a (200),
    b (204), c (200), a run writes a, c, b (or b, a, c), never the
    completion order a, b, c. *)
Lemma filtered_not_in_completion_order : ¬ filtered_in_completion_order.
Proof.
  intros Hclaim.
  pose (ranges := foldl V3.parse_part ∅ (Split "2xx" ",")).
  pose (ord := map_to_list (V3.aggregated interleaved_results)).
  assert (V3.parseStatusRanges (V3.flag_only only_2xx) = Some ranges)
    as Hparse by reflexivity.
  assert (V3.finish (λ _, true) (λ _, None) only_2xx
            (V3.aggregated interleaved_results) ∅
            (<["status.txt" := file_of (V3.filteredURLs ranges ord)]> ∅) 0)
    as Hfin.
  { exists ord. split; [done|]. rewrite Hparse. done. }
  specialize (Hclaim _ _ _ _ _ _ _ _ Hparse eq_refl eq_refl Hfin).
  change (V3.flag_o only_2xx +:+ ".txt") with "status.txt" in Hclaim.
  rewrite lookup_insert_eq in Hclaim.
  vm_compute in Hclaim. discriminate Hclaim.
Qed.

(** C2 on the code.  Without a filter the loop of the save phase runs once
    per status code, and two codes of one class name the same file: with
    a (200) and b (204) received, the run leaves the single file
    [status_2xx.txt], and it holds a alone or b alone, whichever code
    the map yields last; never both. *)
Theorem class_file_keeps_one_status_code (fs' : files) (code : Z) :
  V3.finish (λ _, true) (λ _, None) V3.default_flags
            (V3.aggregated two_codes_one_class) ∅ fs' code →
  code = 0
  ∧ dom fs' = {["status_2xx.txt"]}
  ∧ (fs' !! "status_2xx.txt" = Some (file_of ["http://a.test"])
     ∨ fs' !! "status_2xx.txt" = Some (file_of ["http://b.test"])).
Proof.
  intros (ord & Hord & Hfin).
  change (V3.parseStatusRanges (V3.flag_only V3.default_flags))
    with (@None (gmap Z bool)) in Hfin. cbv beta iota in Hfin.
  assert (V3.rangeFile (V3.flag_o V3.default_flags) 200 = "status_2xx.txt")
    as H200 by (by vm_compute).
  assert (V3.rangeFile (V3.flag_o V3.default_flags) 204 = "status_2xx.txt")
    as H204 by (by vm_compute).
  vm_compute in Hord. symmetry in Hord.
  apply Permutation_length_2_inv in Hord as [-> | ->];
    cbv beta iota delta [V3.save_by_range saveURLs fst snd] in Hfin;
    rewrite H200, H204 in Hfin; injection Hfin as -> ->;
    rewrite insert_insert_eq;
    (split_and!;
     [reflexivity
     |by rewrite dom_insert_L, dom_empty_L, (right_id_L ∅ (∪))
     |rewrite lookup_insert_eq; auto]).
Qed.

Lemma class_file_keeps_one_status_code_witness :
  ∃ fs' : files,
    dom fs' = {["status_2xx.txt"]}
    ∧ fs' !! "status_2xx.txt" ≠
      Some (file_of ["http://a.test"; "http://b.test"]).
Proof.
  pose (ord := map_to_list (V3.aggregated two_codes_one_class)).
  pose (r := V3.save_by_range (λ _, true) (λ _, None) V3.default_flags
                              ord ∅).
  assert (V3.finish (λ _, true) (λ _, None) V3.default_flags
            (V3.aggregated two_codes_one_class) ∅ r.1 r.2) as Hfin.
  { exists ord. split; [done|]. reflexivity. }
  destruct (class_file_keeps_one_status_code _ _ Hfin) as (_ & Hdom & Hfile).
  exists r.1. split; [exact Hdom|].
  destruct Hfile as [-> | ->]; intros [= ?]; discriminate.
Defined.

(** ** The rate: the semaphore and the setup of processURLs *)

Lemma setup_capacity (rps cap period : Z) :
  processURLs_setup rps = inr (cap, period) →
  cap = rps ∧ 0 < rps ≤ 1000000000 ∧ period = 1000000000 `quot` rps.
Proof.
  unfold processURLs_setup.
  destruct (rps <? 0) eqn:E1; [done|]. destruct (rps =? 0) eqn:E2; [done|].
  destruct (_ <=? 0) eqn:E3; [done|]. intros [= <- <-].
  apply Z.ltb_ge in E1. apply Z.eqb_neq in E2. apply Z.leb_gt in E3.
  split_and!; try done; try lia.
  destruct (decide (rps ≤ 1000000000)) as [|Hbig]; [done|].
  rewrite Z.quot_small in E3; lia.
Qed.

Lemma setup_nonpositive (rps : Z) :
  rps ≤ 0 →
  processURLs_setup rps
  = inl (if rps <? 0 then MakechanSizeOutOfRange else IntegerDivideByZero).
Proof.
  intros Hle. unfold processURLs_setup. destruct (rps <? 0) eqn:E1; [done|].
  apply Z.ltb_ge in E1. by replace rps with 0 by lia.
Qed.

(** When the setup panics, the dispatcher never gets past it: nothing is
    started, nothing is printed. *)
Lemma pool_inv_setup_fails {M : Type}
    (checkURL : string → bool → list event * option M) (p : pool M) why :
  pool_inv checkURL p →
  processURLs_setup (requestsPerSecond p) = inl why →
  phase p = Setup ∧ next p = 0%nat ∧ running p = [] ∧ chan p = []
  ∧ stdout p = [].
Proof.
  intros [_ _ _ _ Hsetup Hph] Hfail.
  assert (phase p = Setup) as Hp.
  { destruct (phase p) eqn:E; [done|..];
      (destruct Hph as (q & Hc); [done|congruence]). }
  destruct (Hsetup Hp) as (? & ? & ? & ? & ? & ?). done.
Qed.

(** Past the setup the capacity of the semaphore is the rate. *)
Lemma pool_inv_capacity {M : Type}
    (checkURL : string → bool → list event * option M) (p : pool M) :
  pool_inv checkURL p → phase p ≠ Setup →
  capacity p = requestsPerSecond p.
Proof.
  intros [_ _ _ _ _ Hph] Hp. destruct (Hph Hp) as (period & Hset).
  by apply setup_capacity in Hset as [-> _].
Qed.

(** C4, as stated, fails in its second half: the capacity of the
    semaphore is the rate, and no flag sets it apart from the rate. *)
Lemma capacity_is_not_independent : ¬ capacity_independent_of_rate.
Proof.
  intros (Head & creatable & room & f1 & f2 & lines & fs0 & s1 & s2
          & Hrate & Hrun1 & Hrun2 & Hp1 & Hp2 & Hcap).
  apply V1_reachable_inv in Hrun1 as (Hinv1 & _ & Hr1 & _).
  apply V1_reachable_inv in Hrun2 as (Hinv2 & _ & Hr2 & _).
  apply Hcap.
  rewrite (pool_inv_capacity _ _ Hinv1 Hp1), (pool_inv_capacity _ _ Hinv2 Hp2).
  congruence.
Qed.

(** C4, as amended.  At every instant of a run the number of probers
    inside [checkURL] is at most the capacity of the semaphore, and that
    capacity is the configured rate ([-d]): the rate is the only setting
    behind both.  Before the semaphore exists nothing runs. *)
Theorem probers_bounded_by_rate :
  (∀ rps cap period, processURLs_setup rps = inr (cap, period) → cap = rps)
  ∧ (∀ Head creatable room (f : flags) lines fs0 s,
       rtc (V1.step Head creatable room f) (V1.init f lines fs0) s →
       Z.of_nat (length (running (V1.pl s))) ≤ capacity (V1.pl s)
       ∧ (phase (V1.pl s) ≠ Setup → capacity (V1.pl s) = flag_d f)
       ∧ (phase (V1.pl s) = Setup → running (V1.pl s) = []))
  ∧ (∀ Head creatable room (f : flags) lines fs0 s,
       rtc (V2.step Head creatable room f) (V2.init f lines fs0) s →
       Z.of_nat (length (running (Graceful.pl s))) ≤ capacity (Graceful.pl s)
       ∧ (phase (Graceful.pl s) ≠ Setup →
          capacity (Graceful.pl s) = flag_d f)
       ∧ (phase (Graceful.pl s) = Setup → running (Graceful.pl s) = []))
  ∧ (∀ Head creatable room (f : V3.flags) lines fs0 s,
       rtc (V3.step Head creatable room f) (V3.init f lines fs0) s →
       Z.of_nat (length (running (Graceful.pl s))) ≤ capacity (Graceful.pl s)
       ∧ (phase (Graceful.pl s) ≠ Setup →
          capacity (Graceful.pl s) = V3.flag_d f)
       ∧ (phase (Graceful.pl s) = Setup → running (Graceful.pl s) = [])).
Proof.
  assert (∀ {M} (checkURL : string → bool → list event * option M) p rps,
            pool_inv checkURL p → requestsPerSecond p = rps →
            Z.of_nat (length (running p)) ≤ capacity p
            ∧ (phase p ≠ Setup → capacity p = rps)
            ∧ (phase p = Setup → running p = [])) as Hpool.
  { intros M checkURL p rps Hinv <-. split_and!.
    - destruct Hinv as [_ Hs _ _ _ _]. unfold slots in Hs. lia.
    - by apply pool_inv_capacity with (checkURL := checkURL).
    - destruct Hinv as [_ _ _ _ Hsetup _]. intros Hp.
      by destruct (Hsetup Hp) as (_ & ? & _). }
  split_and!.
  - intros rps cap period H. by apply setup_capacity in H as [-> _].
  - intros Head creatable room f lines fs0 s Hrun.
    apply V1_reachable_inv in Hrun as (Hinv & _ & Hr & _). by eapply Hpool.
  - intros Head creatable room f lines fs0 s Hrun.
    apply Graceful_reachable_inv in Hrun as (Hinv & _ & Hr & _).
    by eapply Hpool.
  - intros Head creatable room f lines fs0 s Hrun.
    apply Graceful_reachable_inv in Hrun as (Hinv & _ & Hr & _).
    by eapply Hpool.
Qed.

(** C5, as stated, fails: with rate 0 the first program panics. *)
Lemma rate_is_not_validated : ¬ rate_is_validated.
Proof.
  intros Hclaim.
  pose (f := {| flag_l := ""; flag_o := "live_urls.txt"; flag_d := 0;
                flag_v := false |}).
  pose (s0 := V1.init f ["example.com"] ∅).
  apply (Hclaim (λ _, TransportError) (λ _, true) (λ _, None) f
                ["example.com"] ∅
           (V1.with_pool s0 (set_status (V1.pl s0)
                                        (Panicked IntegerDivideByZero)))
           ltac:(simpl; lia)
           ltac:(apply rtc_once, V1.workers; by apply setup_panic)
           IntegerDivideByZero).
  reflexivity.
Qed.

(** C5, as amended.  The rate is the integer flag [-d], default 10, and
    it is not validated.  With a rate of zero or below and at least one
    endpoint, the first and only thing that happens is the panic of
    [processURLs] while it sets up (size out of range for the semaphore
    when the rate is negative, integer division by zero when it is zero):
    no probe is ever started, nothing is written, and the process never
    exits with a status of its own. *)
Theorem nonpositive_rate_panics_before_probing
    (Head : string → response) (creatable : string → bool)
    (room : string → option nat)
    (f : flags)
    (lines : list string) (fs0 : files) :
  flag_d f ≤ 0 → read_urls lines ≠ [] →
  let why := if flag_d f <? 0 then MakechanSizeOutOfRange
             else IntegerDivideByZero in
  flag_d default_flags = 10
  ∧ processURLs_setup (flag_d f) = inl why
  ∧ (∃ s', V1.step Head creatable room f (V1.init f lines fs0) s')
  ∧ (∀ s', V1.step Head creatable room f (V1.init f lines fs0) s' →
           status (V1.pl s') = Panicked why)
  ∧ (∀ s, rtc (V1.step Head creatable room f) (V1.init f lines fs0) s →
          next (V1.pl s) = 0%nat ∧ running (V1.pl s) = []
          ∧ stdout (V1.pl s) = [] ∧ V1.fs s = fs0
          ∧ ∀ code, status (V1.pl s) ≠ Exited code).
Proof.
  intros Hrate Hurls why.
  pose proof (setup_nonpositive _ Hrate) as Hfail. fold why in Hfail.
  assert (V1.pl (V1.init f lines fs0)
          = pool_init (read_urls lines) (flag_d f) (flag_v f)) as Hinit.
  { unfold V1.init. simpl. case_decide as Hlen; [|done].
    by apply length_zero_iff_nil in Hlen. }
  split_and!; [done|done|..].
  - eexists. apply V1.workers. rewrite Hinit. by eapply setup_panic.
  - intros s' Hstep.
    inversion Hstep as [s p' Hw|s x rest Hal Hat Hch|s Hal Hat Hcl Hch
      |s Hal Hat Hcl|s Hal Hat Hcl|s Hal Hat Hcr|s Hal Hat Hcr Hfit
    |s Hal Hat Hcr Hfit Hlen|s Hal Hat Hcr Hfit];
      subst; try (rewrite Hinit in *; simpl in *; discriminate).
    rewrite Hinit in Hw. simpl.
    inversion Hw; subst; simpl in *; try discriminate; try congruence.
    all: match goal with H : [] = _ ++ _ :: _ |- _ =>
           by apply app_cons_not_nil in H end.
  - intros s Hrun.
    apply V1_reachable_inv in Hrun as (Hp & _ & Hr & _ & _ & _ & Hfs & Hst & _).
    rewrite <- Hr in Hfail.
    destruct (pool_inv_setup_fails _ _ _ Hp Hfail) as (_ & ? & ? & _ & ?).
    split_and!; try done. intros code Hc. by destruct (Hst code Hc).
Qed.

Lemma nonpositive_rate_panics_before_probing_witness :
  processURLs_setup (-3) = inl MakechanSizeOutOfRange.
Proof.
  pose (f := {| flag_l := ""; flag_o := "live_urls.txt"; flag_d := -3;
                flag_v := false |}).
  refine (proj1 (proj2 (nonpositive_rate_panics_before_probing
    (λ _, TransportError) (λ _, true) (λ _, None) f ["example.com"] ∅ _ _))).
  - simpl. lia.
  - vm_compute. discriminate.
Defined.

(** ** The first program: every goroutine ends up asleep *)

Section V1Deadlock.
Variable Head : string → response.
Variable creatable : string → bool.
Variable room : string → option nat.
Variable f : flags.
Variable lines : list string.
Variable fs0 : files.

Let step := V1.step Head creatable room f.
Let us := read_urls lines.
Let sent (u : string) : option string :=
  (Liveurls.checkURL Head u (flag_v f)).2.

(** The dispatcher at program point [ph] with a semaphore of capacity
    [cap] and loop index [n], no prober
    running, every slot free, the channel empty, [live] collected. *)
Let quiet (ph : dphase) (cap : Z) (n : nat) (out : list event)
    (live : list string) : V1.state :=
  V1.mkState
    (mkPool us (flag_d f) (flag_v f) ph cap n [] 0 [] false out Alive)
    live V1.Ranging fs0.

(** One endpoint, from the tick to the released slot (and to the receive
    in [main] when the prober sends). *)
Lemma V1_one_endpoint (n : nat) (u : string) out live :
  0 < flag_d f → us !! n = Some u →
  ∃ out', rtc step (quiet LoopHead (flag_d f) n out live)
                   (quiet LoopHead (flag_d f) (S n) out' (live ++ option_list (sent u))).
Proof.
  intros Hrate Hu. pose proof (lookup_lt_Some _ _ _ Hu) as Hn.
  destruct (Liveurls.checkURL Head u (flag_v f)) as [printed o] eqn:Hc.
  exists (out ++ printed).
  eapply rtc_l.
  { apply V1.workers. by apply loop_tick. }
  eapply rtc_l.
  { apply V1.workers. by apply (acquire_spawn _ _ _ u). }
  unfold sent. rewrite Hc. destruct o as [m|]; simpl.
  - eapply rtc_l.
    { apply V1.workers.
      apply (probe_send _ _ _ [] u [] printed m); simpl; try done. lia. }
    eapply rtc_l.
    { apply V1.workers. by apply (slot_release _ _ _ 0%nat). }
    eapply rtc_l.
    { by apply (V1.range_recv _ _ _ _ _ m []). }
    apply rtc_refl.
  - rewrite app_nil_r. eapply rtc_l.
    { apply V1.workers.
      by apply (probe_quiet _ _ _ [] u [] printed). }
    eapply rtc_l.
    { apply V1.workers. by apply (slot_release _ _ _ 0%nat). }
    apply rtc_refl.
Qed.

Lemma V1_all_endpoints (k n : nat) out live :
  0 < flag_d f → (n + k = length us)%nat →
  ∃ out', rtc step (quiet LoopHead (flag_d f) n out live)
                   (quiet LoopHead (flag_d f) (length us) out'
                          (live ++ omap sent (drop n us))).
Proof.
  intros Hrate. revert n out live.
  induction k as [|k IH]; intros n out live Hlen.
  - exists out. replace n with (length us) by lia.
    rewrite drop_all. simpl. rewrite app_nil_r. apply rtc_refl.
  - destruct (us !! n) as [u|] eqn:Hu; cycle 1.
    { apply lookup_ge_None in Hu. lia. }
    destruct (V1_one_endpoint n u out live Hrate Hu) as [out1 H1].
    destruct (IH (S n) out1 (live ++ option_list (sent u)) ltac:(lia))
      as [out2 H2].
    exists out2. etrans; [exact H1|].
    rewrite (drop_S _ _ _ Hu).
    assert (omap sent (u :: drop (S n) us)
            = option_list (sent u) ++ omap sent (drop (S n) us)) as ->
      by (simpl; by destruct (sent u)).
    rewrite app_assoc. exact H2.
Qed.

(** With the dispatcher returned, the channel empty and open, and [main]
    in its range loop, no goroutine can move. *)
Lemma V1_asleep out live :
  V1.stuck Head creatable room f
           (quiet Returned (flag_d f) (length us) out live).
Proof.
  intros s' Hstep.
  inversion Hstep as [s p' Hw|s x rest Hal Hat Hch|s Hal Hat Hcl Hch
    |s Hal Hat Hcl|s Hal Hat Hcl|s Hal Hat Hcr|s Hal Hat Hcr Hfit
    |s Hal Hat Hcr Hfit Hlen|s Hal Hat Hcr Hfit];
    subst; simpl in *; try discriminate.
  inversion Hw; subst; simpl in *; try discriminate; try lia.
  all: match goal with H : [] = _ ++ _ :: _ |- _ =>
         by apply app_cons_not_nil in H end.
Qed.

(** Whatever the endpoints answer, the first program can run every probe
    and receive every url sent, and is then stuck for good: [main] waits
    in its range loop for a channel that only [main] would close. *)
Lemma V1_deadlock :
  0 < flag_d f ≤ 1000000000 → read_urls lines ≠ [] →
  ∃ s, rtc step (V1.init f lines fs0) s
       ∧ V1.stuck Head creatable room f s
       ∧ status (V1.pl s) = Alive
       ∧ V1.at_main s = V1.Ranging
       ∧ running (V1.pl s) = []
       ∧ next (V1.pl s) = length (read_urls lines)
       ∧ V1.liveURLs s = omap sent (read_urls lines)
       ∧ V1.fs s = fs0.
Proof.
  intros Hrate Hne.
  destruct (V1_all_endpoints (length us) 0 [] [] ltac:(lia) eq_refl)
    as [out Hrun].
  exists (quiet Returned (flag_d f) (length us) out (omap sent us)).
  split_and!; try done; [|apply V1_asleep].
  assert (V1.init f lines fs0 = quiet Setup 0 0 [] []) as ->.
  { unfold V1.init, quiet. fold us. case_decide as Hlen; [|done].
    apply length_zero_iff_nil in Hlen. done. }
  eapply rtc_l.
  { apply V1.workers.
    apply (setup_ok _ _ _ (flag_d f) (1000000000 `quot` flag_d f)); try done.
    simpl. unfold processURLs_setup.
    destruct (flag_d f <? 0) eqn:E1; [apply Z.ltb_lt in E1; lia|].
    destruct (flag_d f =? 0) eqn:E2; [apply Z.eqb_eq in E2; lia|].
    destruct (_ <=? 0) eqn:E3; [|done]. apply Z.leb_le in E3.
    assert (1 ≤ 1000000000 `quot` flag_d f); [|lia].
    apply Z.quot_le_lower_bound; lia. }
  etrans; [exact Hrun|]. simpl.
  eapply rtc_l.
  { apply V1.workers. by apply loop_end. }
  eapply rtc_l.
  { apply V1.workers. by apply wait_done. }
  apply rtc_refl.
Qed.

End V1Deadlock.

(** ** The second program: the interrupt *)

(** One step of a run, then the state in normal form. *)
Ltac graceful_step tac :=
  eapply rtc_l; [tac|];
  cbn [Graceful.pl Graceful.stopChan Graceful.sigChan Graceful.holding
       Graceful.agg Graceful.done Graceful.at_main Graceful.fs
       Graceful.with_pool Graceful.init V2.init
       urls requestsPerSecond verbose phase capacity next running releasing
       chan closed stdout status pool_init
       set_phase set_status set_chan set_closed start spawn leave release
       app].


Section V2Facts.
Variable Head : string → response.
Variable creatable : string → bool.
Variable room : string → option nat.
Variable f : flags.
Variable lines : list string.
Variable fs0 : files.

Let step := V2.step Head creatable room f.
Let init := V2.init f lines fs0.
Let check := Liveurls.checkURL Head.

Lemma V2_reachable_pool (s : V2.state) :
  rtc step init s →
  Graceful.inv check (read_urls lines) (flag_d f) (flag_v f) s.
Proof. apply Graceful_reachable_inv. Qed.

Lemma V2_init_inv : V2.inv Head creatable room f lines fs0 init.
Proof.
  unfold V2.inv, init, V2.init, Graceful.init. simpl.
  split_and!; [done| |done|done].
  intros _. by case_decide.
Qed.

Lemma V2_step_inv (s s' : V2.state) :
  Graceful.inv check (read_urls lines) (flag_d f) (flag_v f) s →
  step s s' → V2.inv Head creatable room f lines fs0 s →
  V2.inv Head creatable room f lines fs0 s'.
Proof.
  intros (Hp & Hu & Hr & Hv & Hh) Hstep (Hagg & Hzero & Hbefore & Hafter).
  unfold step, V2.step in Hstep.
  destruct Hstep as [s p' Hw|s Hal Hph Hcl|s Hal|s x rest Hal Hh' Hch
    |s x Hal Hh'|s x rest Hal Hd Hch|s Hal Hd Hcl Hch|s Hal Hat Hsig
    |s Hal Hat Hd|s fs' code Hal Hat Hfin|s Hal Hat];
    unfold V2.inv; simpl; try done.
  - split_and!; [| |done|done].
    + eapply Forall_impl; [exact Hagg|]. intros m Hm.
      destruct Hw; simpl; try done. by apply emitted_S.
    + intros Hat. specialize (Hzero Hat).
      destruct Hw; simpl; congruence.
  - split_and!; [|done|done|].
    + apply Forall_app. split; [done|]. apply Forall_singleton. by apply Hh.
    + intros code Hat. destruct (Hafter code Hat) as (l & Hl & Hfs).
      exists l. split; [|done]. by apply prefix_app_r.
  - split_and!; [done|congruence| |congruence].
    intros _. apply Hbefore. by left.
  - split_and!; [done|congruence| |congruence].
    intros _. apply Hbefore. by left.
  - assert (Graceful.fs s = fs0) as Hfs by (apply Hbefore; by right).
    rewrite Hfs in Hfin. split_and!.
    + by case_decide.
    + intros Hne Hex. case_decide; [congruence|].
      injection Hex as ->. done.
    + by intros [?|?].
    + intros code' [= <-]. by exists (Graceful.agg s).
Qed.

Lemma V2_reachable_inv (s : V2.state) :
  rtc step init s → V2.inv Head creatable room f lines fs0 s.
Proof.
  revert s. apply rtc_ind_r; [apply V2_init_inv|].
  intros y z Hy Hyz IH. eapply V2_step_inv; [|done..].
  by apply V2_reachable_pool.
Qed.

(** After an exit with status 0 the output file holds what had been
    collected when [main] saved, and the save went through. *)
Lemma V2_exited_zero (s : V2.state) :
  rtc step init s → status (Graceful.pl s) = Exited 0 →
  ∃ l, l `prefix_of` Graceful.agg s
       ∧ Graceful.fs s = <[flag_o f := file_of l]> fs0
       ∧ creatable (flag_o f) = true
       ∧ fits (room (flag_o f)) (file_of l) = true.
Proof.
  intros Hrun Hexit.
  destruct (V2_reachable_inv s Hrun) as (_ & Hzero & _ & Hafter).
  assert (Graceful.at_main s = Graceful.Leaving 0) as Hat.
  { destruct (Graceful.at_main s) as [| |code] eqn:Hat;
      [by destruct Hzero..|].
    destruct (decide (code = 0)) as [->|Hc]; [done|].
    destruct Hzero; [congruence|done]. }
  destruct (Hafter 0 Hat) as (l & Hl & Hfin). exists l. split; [done|].
  apply V2_finish_cases in Hfin
    as [(_ & _ & ?)|[(? & ? & ? & _)|(_ & _ & _ & ?)]]; done.
Qed.



End V2Facts.

(** *** The sibling of the first program ends where the first cannot

    When every probe fails, the second program (no interrupt) probes
    every endpoint, closes the channel in the dispatcher goroutine, and
    [main] writes the empty output file and returns. *)

Section V2AllFail.
Variable Head : string → response.
Variable creatable : string → bool.
Variable room : string → option nat.
Variable f : flags.
Variable lines : list string.
Variable fs0 : files.
Hypothesis all_fail :
  ∀ u, u ∈ read_urls lines → Head (add_scheme u) = TransportError.

Let step := V2.step Head creatable room f.
Let us := read_urls lines.

Let calm (ph : dphase) (cap : Z) (n : nat) (out : list event) : V2.state :=
  Graceful.mkState
    (mkPool us (flag_d f) (flag_v f) ph cap n [] 0 [] false out Alive)
    false false None [] false Graceful.Selecting fs0.

Lemma V2_failed_probe (u : string) :
  u ∈ us → ∃ printed, Liveurls.checkURL Head u (flag_v f) = (printed, None).
Proof.
  intros Hu. unfold Liveurls.checkURL. rewrite (all_fail u Hu).
  destruct (flag_v f); eauto.
Qed.

Lemma V2_one_failed_endpoint (n : nat) (u : string) out :
  0 < flag_d f → us !! n = Some u →
  ∃ out', rtc step (calm LoopHead (flag_d f) n out)
                   (calm LoopHead (flag_d f) (S n) out').
Proof.
  intros Hrate Hu. pose proof (lookup_lt_Some _ _ _ Hu) as Hn.
  destruct (V2_failed_probe u) as [printed Hc];
    [by eapply list_elem_of_lookup_2|].
  exists (out ++ printed).
  graceful_step ltac:(apply Graceful.workers; by apply loop_tick).
  graceful_step ltac:(apply Graceful.workers;
                      by apply (acquire_spawn _ _ _ u)).
  graceful_step ltac:(apply Graceful.workers;
                      by apply (probe_quiet _ _ _ [] u [] printed)).
  graceful_step ltac:(apply Graceful.workers;
                      by apply (slot_release _ _ _ 0%nat)).
  apply rtc_refl.
Qed.

Lemma V2_all_failed_endpoints (k n : nat) out :
  0 < flag_d f → (n + k = length us)%nat →
  ∃ out', rtc step (calm LoopHead (flag_d f) n out)
                   (calm LoopHead (flag_d f) (length us) out').
Proof.
  intros Hrate. revert n out. induction k as [|k IH]; intros n out Hlen.
  - exists out. replace n with (length us) by lia. apply rtc_refl.
  - destruct (us !! n) as [u|] eqn:Hu; cycle 1.
    { apply lookup_ge_None in Hu. lia. }
    destruct (V2_one_failed_endpoint n u out Hrate Hu) as [out1 H1].
    destruct (IH (S n) out1 ltac:(lia)) as [out2 H2].
    exists out2. by etrans.
Qed.

Lemma V2_all_probes_fail_saves_empty_file :
  0 < flag_d f ≤ 1000000000 → read_urls lines ≠ [] →
  creatable (flag_o f) = true →
  (∃ s, rtc step (V2.init f lines fs0) s
        ∧ Graceful.stopChan s = false
        ∧ next (Graceful.pl s) = length (read_urls lines)
        ∧ running (Graceful.pl s) = []
        ∧ status (Graceful.pl s) = Exited 0
        ∧ Graceful.fs s = <[flag_o f := file_of []]> fs0)
  ∧ (∀ s, rtc step (V2.init f lines fs0) s →
          status (Graceful.pl s) = Exited 0 →
          Graceful.fs s = <[flag_o f := file_of []]> fs0).
Proof.
  intros Hrate Hne Hcr. split.
  - destruct (V2_all_failed_endpoints (length us) 0 [] ltac:(lia) eq_refl)
      as [out Hrun].
    eexists. split.
    + assert (V2.init f lines fs0 = calm Setup 0 0 []) as ->.
      { unfold V2.init, Graceful.init, calm. fold us.
        case_decide as Hlen; [|done].
        apply length_zero_iff_nil in Hlen. done. }
      graceful_step ltac:(apply Graceful.workers;
        apply (setup_ok _ _ _ (flag_d f) (1000000000 `quot` flag_d f));
        [reflexivity..|]).
      { simpl. unfold processURLs_setup.
        destruct (flag_d f <? 0) eqn:E1; [apply Z.ltb_lt in E1; lia|].
        destruct (flag_d f =? 0) eqn:E2; [apply Z.eqb_eq in E2; lia|].
        destruct (_ <=? 0) eqn:E3; [|done]. apply Z.leb_le in E3.
        assert (1 ≤ 1000000000 `quot` flag_d f); [|lia].
        apply Z.quot_le_lower_bound; lia. }
      etrans; [exact Hrun|].
      graceful_step ltac:(apply Graceful.workers; by apply loop_end).
      graceful_step ltac:(apply Graceful.workers; by apply wait_done).
      graceful_step ltac:(by apply Graceful.close_output).
      graceful_step ltac:(by apply Graceful.drain_end).
      graceful_step ltac:(by apply Graceful.select_done).
      graceful_step ltac:(apply (Graceful.save _ _ _ _
                                   (<[flag_o f := file_of []]> fs0) 0);
                          [reflexivity..|]).
      { apply V2_finish_fits; [done|apply fits_empty]. }
      graceful_step ltac:(apply Graceful.main_returns; reflexivity).
      apply rtc_refl.
    + split_and!; reflexivity.
  - intros s Hrun Hexit.
    destruct (V2_reachable_inv _ _ _ _ _ _ _ Hrun) as (Hagg & _).
    assert (Graceful.agg s = []) as Hnil.
    { destruct (Graceful.agg s) as [|x l]; [done|].
      apply Forall_cons in Hagg as [(u & pr & Hu & Hc) _].
      destruct (V2_failed_probe u) as [pr' Hc'].
      - by apply elem_of_take in Hu as (i & ?%list_elem_of_lookup_2 & _).
      - congruence. }
    destruct (V2_exited_zero _ _ _ _ _ _ _ Hrun Hexit) as (l & Hl & -> & _).
    rewrite Hnil in Hl. by apply prefix_nil_inv in Hl as ->.
Qed.

End V2AllFail.

(** ** The claims on whole runs *)






(** C3 on the code.  In the first program, when every probe fails at the
    transport level (verbose or not), [main] never leaves its range loop:
    in every state of every run nothing has been collected, no file has
    been touched and the process has not exited; and the run can reach
    (with every endpoint probed) a state in which no goroutine can move.
    The output file with zero endpoints is never written. *)
Theorem v1_all_probes_fail_never_writes
    (Head : string → response) (creatable : string → bool)
    (room : string → option nat)
    (f : flags)
    (lines : list string) (fs0 : files) :
  (∀ u, u ∈ read_urls lines → Head (add_scheme u) = TransportError) →
  0 < flag_d f ≤ 1000000000 → read_urls lines ≠ [] →
  (∀ s, rtc (V1.step Head creatable room f) (V1.init f lines fs0) s →
        V1.at_main s = V1.Ranging ∧ V1.fs s = fs0 ∧ V1.liveURLs s = []
        ∧ chan (V1.pl s) = [] ∧ closed (V1.pl s) = false
        ∧ ∀ code, status (V1.pl s) ≠ Exited code)
  ∧ (∃ s, rtc (V1.step Head creatable room f) (V1.init f lines fs0) s
          ∧ V1.stuck Head creatable room f s
          ∧ status (V1.pl s) = Alive
          ∧ next (V1.pl s) = length (read_urls lines)
          ∧ running (V1.pl s) = []
          ∧ V1.fs s = fs0).
Proof.
  intros Hfail Hrate Hne.
  assert (∀ n m, ¬ emitted (Liveurls.checkURL Head) (read_urls lines)
                            (flag_v f) n m) as Hnone.
  { intros n m (u & pr & Hu & Hc).
    pose proof (proj1 (Liveurls_checkURL_sends Head u (flag_v f) m)) as Hs.
    rewrite Hc in Hs. destruct (Hs eq_refl) as [_ H200].
    rewrite Hfail in H200; [done|].
    by apply elem_of_take in Hu as (i & ?%list_elem_of_lookup_2 & _). }
  split.
  - intros s Hrun.
    apply V1_reachable_inv in Hrun
      as (Hp & Hu & _ & Hv & Hcl & Hat & Hfs & Hst & Hlive).
    split_and!; try done.
    + destruct (V1.liveURLs s) as [|x l]; [done|].
      apply Forall_cons in Hlive as [Hx _]. by destruct (Hnone _ _ Hx).
    + destruct Hp as [_ _ _ Hchan _ _].
      destruct (chan (V1.pl s)) as [|x l]; [done|].
      apply Forall_cons in Hchan as [Hx _]. rewrite Hu, Hv in Hx.
      by destruct (Hnone _ _ Hx).
    + intros code Hcode. by destruct (Hst code Hcode).
  - destruct (V1_deadlock Head creatable room f lines fs0 Hrate Hne)
      as (s & Hrun & Hstuck & Hal & _ & Hr & Hn & _ & Hfs).
    by exists s.
Qed.

Lemma v1_all_probes_fail_never_writes_witness :
  ∃ s, rtc (V1.step (λ _, TransportError) (λ _, true) (λ _, None) default_flags)
           (V1.init default_flags ["down.invalid"] ∅) s
       ∧ V1.stuck (λ _, TransportError) (λ _, true) (λ _, None) default_flags s
       ∧ status (V1.pl s) = Alive
       ∧ V1.fs s = ∅.
Proof.
  destruct (v1_all_probes_fail_never_writes (λ _, TransportError) (λ _, true)
              (λ _, None) default_flags ["down.invalid"] ∅)
    as (_ & s & Hrun & Hstuck & Hal & _ & _ & Hfs).
  - done.
  - simpl. lia.
  - vm_compute. discriminate.
  - by exists s.
Defined.

(** C6 on the code.  In the first program the endpoint "example.com"
    answers 200: the run collects "http://example.com" in [liveURLs] and
    then every goroutine is asleep; in no state of any run does the output
    file exist, and the process never exits.  In general: what [main]
    collects are normalised endpoints that answered 200, but no run of
    the first program ever touches a file. *)
Theorem v1_live_endpoint_never_reaches_the_file :
  let Head := λ _ : string, Status 200 in
  let step := V1.step Head (λ _, true) (λ _, None) default_flags in
  let init := V1.init default_flags ["example.com"] ∅ in
  (∃ s, rtc step init s
        ∧ V1.liveURLs s = ["http://example.com"]
        ∧ running (V1.pl s) = []
        ∧ status (V1.pl s) = Alive
        ∧ V1.stuck Head (λ _, true) (λ _, None) default_flags s)
  ∧ (∀ s, rtc step init s →
          V1.fs s !! flag_o default_flags = None
          ∧ ∀ code, status (V1.pl s) ≠ Exited code)
  ∧ (∀ Head creatable room f lines fs0 s,
       rtc (V1.step Head creatable room f) (V1.init f lines fs0) s →
       V1.fs s = fs0
       ∧ Forall (λ x, ∃ u, u ∈ read_urls lines ∧ x = add_scheme u
                           ∧ Head x = Status 200)
                (V1.liveURLs s)).
Proof.
  intros Head step init. split_and!.
  - destruct (V1_deadlock Head (λ _, true) (λ _, None) default_flags
                         ["example.com"] ∅)
      as (s & Hrun & Hstuck & Hal & _ & Hr & _ & Hlive & _).
    + simpl. lia.
    + vm_compute. discriminate.
    + exists s. split_and!; done.
  - intros s Hrun.
    apply V1_reachable_inv in Hrun as (_ & _ & _ & _ & _ & _ & Hfs & Hst & _).
    split; [by rewrite Hfs|].
    intros code Hcode. destruct (Hst code Hcode) as [_ Hnil].
    vm_compute in Hnil. discriminate Hnil.
  - intros H creatable room f lines fs0 s Hrun.
    apply V1_reachable_inv in Hrun as (_ & _ & _ & _ & _ & _ & Hfs & _ & Hl).
    split; [done|]. eapply Forall_impl; [exact Hl|].
    intros x (u & pr & Hu & Hc). exists u.
    pose proof (proj1 (Liveurls_checkURL_sends H u (flag_v f) x)) as Hs.
    rewrite Hc in Hs. destruct (Hs eq_refl) as [-> H200].
    split_and!; [|done..].
    by apply elem_of_take in Hu as (i & ?%list_elem_of_lookup_2 & _).
Qed.

(** ** A run without interrupt that loses an outcome

    The goroutine that [main] starts to close [done] ranges over
    [outputChan] too, so it competes with the collector for every value.
    Here it wins: the endpoint answers 200, no signal ever arrives, and
    the process exits with status 0 and an empty output file. *)
Lemma V2_done_goroutine_discards :
  ∃ s : V2.state,
    rtc (V2.step (λ _, Status 200) (λ _, true) (λ _, None) default_flags)
        (V2.init default_flags ["example.com"] ∅) s
    ∧ Graceful.stopChan s = false ∧ Graceful.sigChan s = false
    ∧ running (Graceful.pl s) = [] ∧ next (Graceful.pl s) = 1%nat
    ∧ status (Graceful.pl s) = Exited 0
    ∧ Graceful.fs s = <[flag_o default_flags := file_of []]> ∅.
Proof.
  eexists. split.
  - graceful_step ltac:(apply Graceful.workers;
                        by apply (setup_ok _ _ _ 10 100000000)).
    graceful_step ltac:(apply Graceful.workers; apply loop_tick;
                        [reflexivity..|simpl; lia]).
    graceful_step ltac:(apply Graceful.workers;
                        by apply (acquire_spawn _ _ _ "example.com")).
    graceful_step ltac:(apply Graceful.workers;
                        apply (probe_send _ _ _ [] "example.com" [] []
                                          "http://example.com");
                        [reflexivity..|simpl; lia]).
    graceful_step ltac:(apply Graceful.workers;
                        by apply (slot_release _ _ _ 0%nat)).
    graceful_step ltac:(apply Graceful.workers; by apply loop_end).
    graceful_step ltac:(apply Graceful.workers; by apply wait_done).
    graceful_step ltac:(by apply Graceful.close_output).
    graceful_step ltac:(by apply (Graceful.drain_recv _ _ _ _
                                    "http://example.com" [])).
    graceful_step ltac:(by apply Graceful.drain_end).
    graceful_step ltac:(by apply Graceful.select_done).
    graceful_step ltac:(apply (Graceful.save _ _ _ _
                                 (<[flag_o default_flags := file_of []]> ∅) 0);
                        [reflexivity..|split; reflexivity]).
    graceful_step ltac:(apply Graceful.main_returns; reflexivity).
    apply rtc_refl.
  - split_and!; reflexivity.
Qed.

(** * More properties of the code *)

(** ** The dispatcher and its probers, counted *)

Section PoolCounting.
Context {M : Type}.
Variable checkURL : string → bool → list event * option M.

(** What a step of the dispatcher or of a prober does to the values in
    flight: nothing, or, when an endpoint is started, one more value if
    its prober is going to send. *)
Lemma pool_step_pending stopped (p p' : pool M) :
  pool_step checkURL stopped p p' →
  (next p' = next p ∧ pending checkURL p' ≡ₚ pending checkURL p)
  ∨ (∃ u, urls p !! next p = Some u ∧ next p' = S (next p)
          ∧ pending checkURL p'
            ≡ₚ pending checkURL p
               ++ option_list (sends checkURL (verbose p) u)).
Proof.
  unfold pending.
  destruct 1 as [p cap per Hal Hp Hset|p why Hal Hp Hset|p Hal Hp Hlt
    |p Hal Hp Hlt Hst|p u Hal Hp Hslot Hu|p Hal Hp Hn'|p Hal Hp Hrun
    |p before u after pr Hal Hrun Hcu|p before u after pr m Hal Hrun Hcu Hcl Hlen
    |p before u after pr m Hal Hrun Hcu Hcl|p n Hal Hrel]; simpl;
    try (by left).
  - right. exists u. split_and!; [done..|].
    rewrite omap_app. simpl. rewrite app_assoc.
    by destruct (sends checkURL (verbose p) u); rewrite ?app_nil_r.
  - left. split; [done|]. rewrite Hrun, !omap_app. simpl.
    assert (sends checkURL (verbose p) u = None) as ->
      by (unfold sends; by rewrite Hcu).
    done.
  - left. split; [done|]. rewrite Hrun, !omap_app. simpl.
    assert (sends checkURL (verbose p) u = Some m) as ->
      by (unfold sends; by rewrite Hcu).
    rewrite <- !app_assoc. f_equiv. simpl.
    by rewrite (Permutation_middle (omap _ before)).
Qed.

Lemma omap_take_S (g : string → option M) (us : list string) n u :
  us !! n = Some u →
  omap g (take (S n) us) = omap g (take n us) ++ option_list (g u).
Proof.
  intros Hu. rewrite (take_S_r _ _ _ Hu), omap_app. simpl.
  by destruct (g u).
Qed.

Lemma pool_init_order us rps v : pool_order (pool_init (M:=M) us rps v).
Proof. constructor; simpl; [apply sublist_nil_l|lia..]. Qed.

Lemma pool_step_order stopped (p p' : pool M) :
  pool_step checkURL stopped p p' → pool_order p → pool_order p'.
Proof.
  intros Hstep [Hsub Hroom Hn].
  destruct Hstep as [p cap per Hal Hp Hset|p why Hal Hp Hset|p Hal Hp Hlt
    |p Hal Hp Hlt Hst|p u Hal Hp Hslot Hu|p Hal Hp Hn'|p Hal Hp Hrun
    |p before u after pr Hal Hrun Hcu|p before u after pr m Hal Hrun Hcu Hcl Hlen
    |p before u after pr m Hal Hrun Hcu Hcl|p n Hal Hrel];
    constructor; simpl; try done.
  - rewrite (take_S_r _ _ _ Hu). by apply sublist_app.
  - rewrite length_app. simpl. lia.
  - apply lookup_lt_Some in Hu. lia.
  - etrans; [|exact Hsub]. rewrite Hrun.
    apply sublist_app; [done|]. by apply sublist_cons.
  - rewrite Hrun in Hroom. rewrite !length_app in *. simpl in *. lia.
  - etrans; [|exact Hsub]. rewrite Hrun.
    apply sublist_app; [done|]. by apply sublist_cons.
  - rewrite Hrun in Hroom. rewrite !length_app in *. simpl in *. lia.
Qed.

Lemma set_chan_order (p : pool M) x rest :
  chan p = x :: rest → pool_order p → pool_order (set_chan p rest).
Proof.
  intros Hch [Hsub Hroom Hn]. constructor; simpl; try done.
  rewrite Hch in Hroom. simpl in Hroom. lia.
Qed.

Lemma set_closed_order (p : pool M) : pool_order p → pool_order (set_closed p).
Proof. by intros []. Qed.

Lemma set_status_order (p : pool M) st :
  pool_order p → pool_order (set_status p st).
Proof. by intros []. Qed.

End PoolCounting.

(** ** Order of the probers and room in the channel, in whole runs *)

Lemma V1_reachable_order Head creatable room f lines fs0 (s : V1.state) :
  rtc (V1.step Head creatable room f) (V1.init f lines fs0) s →
  pool_order (V1.pl s).
Proof.
  revert s. apply rtc_ind_r.
  { unfold V1.init. simpl. case_decide;
      [apply set_status_order|]; apply pool_init_order. }
  intros y z _ Hyz IH.
  destruct Hyz as [s p' Hw|s x rest Hal Hat Hch|s Hal Hat Hcl Hch
    |s Hal Hat Hcl|s Hal Hat Hcl|s Hal Hat Hcr|s Hal Hat Hcr Hfit
    |s Hal Hat Hcr Hfit Hlen|s Hal Hat Hcr Hfit]; simpl;
    eauto using pool_step_order, set_chan_order, set_closed_order,
                set_status_order.
Qed.

Lemma Graceful_reachable_order {M A : Type}
    (checkURL : string → bool → list event * option M)
    (collect : M → A → A) (finish : A → files → files → Z → Prop)
    us rps v a0 fs0 (s : Graceful.state M A) :
  rtc (Graceful.step checkURL collect finish)
      (Graceful.init us rps v a0 fs0) s →
  pool_order (Graceful.pl s).
Proof.
  revert s. apply rtc_ind_r.
  { unfold Graceful.init. simpl. case_decide;
      [apply set_status_order|]; apply pool_init_order. }
  intros y z _ Hyz IH.
  destruct Hyz as [s p' Hw|s Hal Hph Hcl|s Hal|s x rest Hal Hh' Hch
    |s x Hal Hh'|s x rest Hal Hd Hch|s Hal Hd Hcl Hch|s Hal Hat Hsig
    |s Hal Hat Hd|s fs' code Hal Hat Hfin|s Hal Hat]; simpl;
    eauto using pool_step_order, set_chan_order, set_closed_order,
                set_status_order.
  case_decide; eauto using set_status_order.
Qed.

(** X1.  In every state of a run of any of the three programs, the
    probers inside [checkURL] are endpoints of the input list in input
    order (a subsequence of the started prefix of the list), and while
    some prober is inside [checkURL] the buffer of [outputChan] is not
    full: a prober never blocks on its send. *)
Theorem probers_in_input_order_and_never_blocked :
  (∀ Head creatable room (f : flags) lines fs0 s,
     rtc (V1.step Head creatable room f) (V1.init f lines fs0) s →
     running (V1.pl s) `sublist_of` take (next (V1.pl s)) (read_urls lines)
     ∧ (running (V1.pl s) ≠ [] →
        (length (chan (V1.pl s)) < length (read_urls lines))%nat))
  ∧ (∀ Head creatable room (f : flags) lines fs0 (s : V2.state),
       rtc (V2.step Head creatable room f) (V2.init f lines fs0) s →
       running (Graceful.pl s)
         `sublist_of` take (next (Graceful.pl s)) (read_urls lines)
       ∧ (running (Graceful.pl s) ≠ [] →
          (length (chan (Graceful.pl s)) < length (read_urls lines))%nat))
  ∧ (∀ Head creatable room (f : V3.flags) lines fs0 (s : V3.state),
       rtc (V3.step Head creatable room f) (V3.init f lines fs0) s →
       running (Graceful.pl s)
         `sublist_of` take (next (Graceful.pl s)) (read_urls lines)
       ∧ (running (Graceful.pl s) ≠ [] →
          (length (chan (Graceful.pl s)) < length (read_urls lines))%nat)).
Proof.
  assert (∀ {M} (p : pool M) us, pool_order p → urls p = us →
            running p `sublist_of` take (next p) us
            ∧ (running p ≠ [] → (length (chan p) < length us)%nat)) as Hpool.
  { intros M p us [Hsub Hroom Hn] <-. split; [done|].
    intros Hne. destruct (running p); [done|]. simpl in Hroom. lia. }
  split_and!; intros Head creatable room f lines fs0 s Hrun.
  - apply Hpool; [by eapply V1_reachable_order|].
    by apply V1_reachable_inv in Hrun as (_ & ? & _).
  - apply Hpool; [by eapply Graceful_reachable_order|].
    by apply Graceful_reachable_inv in Hrun as (_ & ? & _).
  - apply Hpool; [by eapply Graceful_reachable_order|].
    by apply Graceful_reachable_inv in Hrun as (_ & ? & _).
Qed.

(** ** The first program loses nothing and collects nothing twice *)

Lemma V1_reachable_conserved Head creatable room f lines fs0 (s : V1.state) :
  rtc (V1.step Head creatable room f) (V1.init f lines fs0) s →
  V1.liveURLs s ++ pending (Liveurls.checkURL Head) (V1.pl s)
  ≡ₚ omap (sends (Liveurls.checkURL Head) (flag_v f))
          (take (next (V1.pl s)) (read_urls lines)).
Proof.
  revert s. apply rtc_ind_r.
  { unfold V1.init, pending. simpl. by case_decide. }
  intros y z Hy Hyz IH.
  apply V1_reachable_inv in Hy as (_ & Hu & _ & Hv & _).
  destruct Hyz as [s p' Hw|s x rest Hal Hat Hch|s Hal Hat Hcl Hch
    |s Hal Hat Hcl|s Hal Hat Hcl|s Hal Hat Hcr|s Hal Hat Hcr Hfit
    |s Hal Hat Hcr Hfit Hlen|s Hal Hat Hcr Hfit]; simpl in *;
    try done.
  - destruct (pool_step_pending _ _ _ _ Hw) as [[-> ->]|(u & Hlk & -> & ->)];
      [done|].
    rewrite Hu in Hlk. rewrite (omap_take_S _ _ _ _ Hlk), Hv.
    by rewrite app_assoc, IH.
  - rewrite <- IH. unfold pending. simpl. rewrite Hch.
    rewrite <- !app_assoc. simpl. done.
Qed.

Lemma sends_live_url Head v u :
  sends (Liveurls.checkURL Head) v u = live_url Head u.
Proof.
  unfold sends, Liveurls.checkURL, live_url.
  destruct (Head (add_scheme u)) as [|code]; [by destruct v|].
  by destruct (code =? 200).
Qed.

Lemma sends_answer Head v u :
  sends (Classify.checkURL Head) v u = answer Head u.
Proof.
  unfold sends, Classify.checkURL, answer.
  destruct (Head (add_scheme u)) as [|code]; [by destruct v|done].
Qed.

Lemma omap_ext_sends {M} (g h : string → option M) (l : list string) :
  (∀ u, g u = h u) → omap g l = omap h l.
Proof.
  intros Hgh. induction l as [|u l IH]; [done|].
  simpl. rewrite Hgh. destruct (h u); [f_equal|]; exact IH.
Qed.

(** X2.  In the first program, at every instant, the urls [main] has
    collected, the urls waiting in [outputChan] and the urls the probers
    in flight are going to send make up, as a multiset, exactly the
    normalized forms of the started endpoints that answer 200: no live
    endpoint is lost on the way to [liveURLs] and none is collected
    twice.  When nothing is in flight, [liveURLs] is a permutation of the
    live endpoints started so far. *)
Theorem v1_collects_each_live_endpoint_once
    (Head : string → response) (creatable : string → bool)
    (room : string → option nat)
    (f : flags)
    (lines : list string) (fs0 : files) (s : V1.state) :
  rtc (V1.step Head creatable room f) (V1.init f lines fs0) s →
  V1.liveURLs s ++ chan (V1.pl s) ++ omap (live_url Head) (running (V1.pl s))
  ≡ₚ omap (live_url Head) (take (next (V1.pl s)) (read_urls lines))
  ∧ (running (V1.pl s) = [] → chan (V1.pl s) = [] →
     V1.liveURLs s
     ≡ₚ omap (live_url Head) (take (next (V1.pl s)) (read_urls lines))).
Proof.
  intros Hrun.
  pose proof (V1_reachable_conserved _ _ _ _ _ _ _ Hrun) as Hc.
  destruct (V1_reachable_inv _ _ _ _ _ _ _ Hrun) as (_ & _ & _ & Hv & _).
  unfold pending in Hc. rewrite Hv in Hc.
  rewrite !(omap_ext_sends _ _ _ (sends_live_url Head (flag_v f))) in Hc.
  split; [done|]. intros Hr Hch. rewrite Hr, Hch in Hc. simpl in Hc.
  by rewrite app_nil_r in Hc.
Qed.

Lemma v1_collects_each_live_endpoint_once_witness :
  ∃ s, rtc (V1.step (λ _, Status 200) (λ _, true) (λ _, None) default_flags)
           (V1.init default_flags ["example.com"; "ok.test"] ∅) s
       ∧ next (V1.pl s) = 2%nat
       ∧ V1.liveURLs s ≡ₚ ["http://example.com"; "http://ok.test"].
Proof.
  destruct (V1_deadlock (λ _, Status 200) (λ _, true) (λ _, None) default_flags
              ["example.com"; "ok.test"] ∅)
    as (s & Hrun & _ & _ & _ & Hr & Hn & Hlive & _).
  - simpl. lia.
  - vm_compute. discriminate.
  - exists s. split; [done|]. split; [exact Hn|].
    destruct (v1_collects_each_live_endpoint_once _ _ _ _ _ _ _ Hrun)
      as [Hall _].
    rewrite Hr, Hn in Hall. rewrite Hlive in Hall |- *. done.
Defined.

(** ** The later programs file no endpoint twice *)

Section GracefulCounting.
Context {M A : Type}.
Variable checkURL : string → bool → list event * option M.
Variable collect : M → A → A.
Variable finish : A → files → files → Z → Prop.
(** The values an aggregate holds. *)
Variable items : A → list M.
Hypothesis items_collect : ∀ m a, items (collect m a) ≡ₚ items a ++ [m].
Variables (us : list string) (rps : Z) (v : bool) (a0 : A) (fs0 : files).
Hypothesis items_a0 : items a0 = [].

Lemma Graceful_reachable_no_duplicate (s : Graceful.state M A) :
  rtc (Graceful.step checkURL collect finish)
      (Graceful.init us rps v a0 fs0) s →
  items (Graceful.agg s) ++ option_list (Graceful.holding s)
    ++ pending checkURL (Graceful.pl s)
  ⊆+ omap (sends checkURL v) (take (next (Graceful.pl s)) us).
Proof.
  revert s. apply rtc_ind_r.
  { unfold Graceful.init, pending. simpl. rewrite items_a0.
    by case_decide. }
  intros y z Hy Hyz IH.
  apply Graceful_reachable_inv in Hy as (_ & Hu & _ & Hv & _).
  destruct Hyz as [s p' Hw|s Hal Hph Hcl|s Hal|s x rest Hal Hh' Hch
    |s x Hal Hh'|s x rest Hal Hd Hch|s Hal Hd Hcl Hch|s Hal Hat Hsig
    |s Hal Hat Hd|s fs' code Hal Hat Hfin|s Hal Hat]; simpl in *;
    try done.
  - destruct (pool_step_pending _ _ _ _ Hw) as [[-> ->]|(u & Hlk & -> & ->)];
      [done|].
    rewrite Hu in Hlk. rewrite (omap_take_S _ _ _ _ Hlk), Hv.
    rewrite !app_assoc. apply submseteq_skips_r.
    by rewrite <- !app_assoc.
  - rewrite Hh' in IH. unfold pending in *. simpl in *. rewrite Hch in IH.
    simpl in IH. exact IH.
  - rewrite Hh' in IH. simpl in *. etrans; [|exact IH].
    apply Permutation_submseteq. rewrite items_collect.
    by rewrite <- app_assoc.
  - unfold pending in *. simpl in *. rewrite Hch in IH. etrans; [|exact IH].
    apply submseteq_app; [done|]. apply submseteq_app; [done|].
    simpl. by apply submseteq_cons.
  - by case_decide.
Qed.

End GracefulCounting.

Lemma filed_collect (r : Classify.statusResult) (results : gmap Z (list string)) :
  filed (V3.collect r results) ≡ₚ filed results ++ [r].
Proof.
  unfold filed, V3.collect. destruct r as [u c]. simpl.
  destruct (results !! c) as [old|] eqn:Hc; simpl.
  - rewrite <- (insert_delete_eq results).
    rewrite map_to_list_insert by apply lookup_delete_eq.
    rewrite <- (insert_delete_id results c old Hc) at 2.
    rewrite (map_to_list_insert (delete c results) c old)
      by apply lookup_delete_eq.
    simpl. rewrite fmap_app. simpl. rewrite <- !app_assoc. f_equiv.
    apply Permutation_app_comm.
  - rewrite map_to_list_insert by done. simpl.
    by rewrite Permutation_app_comm.
Qed.

(** ** The schedule that takes the endpoints one at a time

    One endpoint after the other: the tick, the slot, the probe, the slot
    given back, and the collector stores what was sent before the next
    tick.  No signal arrives. *)

Section GracefulSequential.
Context {M A : Type}.
Variable checkURL : string → bool → list event * option M.
Variable collect : M → A → A.
Variable finish : A → files → files → Z → Prop.
Variables (us : list string) (rps : Z) (v : bool) (a0 : A) (fs0 : files).

Let step := Graceful.step checkURL collect finish.

Let tidy (ph : dphase) (cap : Z) (n : nat) (out : list event) (a : A)
    (cl dn : bool) (m : Graceful.mphase) : Graceful.state M A :=
  Graceful.mkState (mkPool us rps v ph cap n [] 0 [] cl out Alive)
                   false false None a dn m fs0.

Let stored (a : A) (ms : list M) : A := foldl (λ a m, collect m a) a ms.

Lemma Graceful_one_endpoint (n : nat) (u : string) out a :
  0 < rps → us !! n = Some u →
  ∃ out',
    rtc step (tidy LoopHead rps n out a false false Graceful.Selecting)
             (tidy LoopHead rps (S n) out'
                   (stored a (option_list (sends checkURL v u)))
                   false false Graceful.Selecting).
Proof.
  intros Hrate Hu. pose proof (lookup_lt_Some _ _ _ Hu) as Hn.
  unfold sends. destruct (checkURL u v) as [printed o] eqn:Hc.
  exists (out ++ printed). unfold tidy.
  graceful_step ltac:(apply Graceful.workers; by apply loop_tick).
  graceful_step ltac:(apply Graceful.workers;
                      by apply (acquire_spawn _ _ _ u)).
  destruct o as [m|]; simpl.
  - graceful_step ltac:(apply Graceful.workers;
                        apply (probe_send _ _ _ [] u [] printed m);
                        [done..|simpl; lia]).
    graceful_step ltac:(apply Graceful.workers;
                        by apply (slot_release _ _ _ 0%nat)).
    graceful_step ltac:(by apply (Graceful.collector_recv _ _ _ _ m [])).
    graceful_step ltac:(by apply (Graceful.collector_store _ _ _ _ m)).
    apply rtc_refl.
  - graceful_step ltac:(apply Graceful.workers;
                        by apply (probe_quiet _ _ _ [] u [] printed)).
    graceful_step ltac:(apply Graceful.workers;
                        by apply (slot_release _ _ _ 0%nat)).
    apply rtc_refl.
Qed.

Lemma Graceful_all_endpoints (k n : nat) out a :
  0 < rps → (n + k = length us)%nat →
  ∃ out',
    rtc step (tidy LoopHead rps n out a false false Graceful.Selecting)
             (tidy LoopHead rps (length us) out'
                   (stored a (omap (sends checkURL v) (drop n us)))
                   false false Graceful.Selecting).
Proof.
  intros Hrate. revert n out a. induction k as [|k IH]; intros n out a Hlen.
  - exists out. replace n with (length us) by lia.
    rewrite drop_all. apply rtc_refl.
  - destruct (us !! n) as [u|] eqn:Hu; cycle 1.
    { apply lookup_ge_None in Hu. lia. }
    destruct (Graceful_one_endpoint n u out a Hrate Hu) as [out1 H1].
    destruct (IH (S n) out1 (stored a (option_list (sends checkURL v u)))
                 ltac:(lia)) as [out2 H2].
    exists out2. etrans; [exact H1|].
    rewrite (drop_S _ _ _ Hu). simpl.
    destruct (sends checkURL v u); exact H2.
Qed.

(** The whole run up to the save phase: every endpoint probed, the
    channel closed and drained, [done] closed, [main] past its select. *)
Lemma Graceful_sequential_run :
  0 < rps ≤ 1000000000 → us ≠ [] →
  ∃ out,
    rtc step (Graceful.init us rps v a0 fs0)
             (tidy Returned rps (length us) out
                   (stored a0 (omap (sends checkURL v) us))
                   true true Graceful.Saving).
Proof.
  intros Hrate Hne.
  destruct (Graceful_all_endpoints (length us) 0 [] a0 ltac:(lia) eq_refl)
    as [out Hrun].
  exists out.
  assert (Graceful.init us rps v a0 fs0
          = tidy Setup 0 0 [] a0 false false Graceful.Selecting) as ->.
  { unfold Graceful.init, tidy. case_decide as Hlen; [|done].
    by apply length_zero_iff_nil in Hlen. }
  graceful_step ltac:(apply Graceful.workers;
    apply (setup_ok _ _ _ rps (1000000000 `quot` rps));
    [reflexivity..|]).
  { simpl. unfold processURLs_setup.
    destruct (rps <? 0) eqn:E1; [apply Z.ltb_lt in E1; lia|].
    destruct (rps =? 0) eqn:E2; [apply Z.eqb_eq in E2; lia|].
    destruct (_ <=? 0) eqn:E3; [|done]. apply Z.leb_le in E3.
    assert (1 ≤ 1000000000 `quot` rps); [|lia].
    apply Z.quot_le_lower_bound; lia. }
  etrans; [exact Hrun|]. rewrite drop_0.
  graceful_step ltac:(apply Graceful.workers; by apply loop_end).
  graceful_step ltac:(apply Graceful.workers; by apply wait_done).
  graceful_step ltac:(by apply Graceful.close_output).
  graceful_step ltac:(by apply Graceful.drain_end).
  graceful_step ltac:(by apply Graceful.select_done).
  apply rtc_refl.
Qed.

(** From there, the save phase and the return of [main]. *)
Lemma Graceful_sequential_exit (fs' : files) (code : Z) :
  0 < rps ≤ 1000000000 → us ≠ [] →
  finish (stored a0 (omap (sends checkURL v) us)) fs0 fs' code →
  ∃ s, rtc step (Graceful.init us rps v a0 fs0) s
       ∧ status (Graceful.pl s) = Exited code
       ∧ Graceful.fs s = fs'
       ∧ Graceful.agg s = stored a0 (omap (sends checkURL v) us)
       ∧ Graceful.stopChan s = false
       ∧ Graceful.holding s = None
       ∧ next (Graceful.pl s) = length us
       ∧ running (Graceful.pl s) = []
       ∧ chan (Graceful.pl s) = [].
Proof.
  intros Hrate Hne Hfin.
  destruct (Graceful_sequential_run Hrate Hne) as [out Hrun].
  destruct (decide (code = 0)) as [->|Hcode].
  - eexists. split.
    + etrans; [exact Hrun|].
      graceful_step ltac:(apply (Graceful.save _ _ _ _ fs' 0);
                          [reflexivity..|exact Hfin]).
      graceful_step ltac:(apply Graceful.main_returns; reflexivity).
      apply rtc_refl.
    + done.
  - eexists. split.
    + etrans; [exact Hrun|].
      graceful_step ltac:(apply (Graceful.save _ _ _ _ fs' code);
                          [reflexivity..|exact Hfin]).
      apply rtc_refl.
    + simpl. by case_decide.
Qed.

End GracefulSequential.

(** ** What the later programs collect *)

Lemma foldl_append_one {X : Type} (a l : list X) :
  foldl (λ a m, a ++ [m]) a l = a ++ l.
Proof.
  revert a. induction l as [|x l IH]; intros a; simpl.
  - by rewrite app_nil_r.
  - by rewrite IH, <- app_assoc.
Qed.

Lemma filed_empty : filed ∅ = [].
Proof. unfold filed. by rewrite map_to_list_empty. Qed.

Lemma submseteq_omap_take {X Y : Type} (g : X → option Y) (n : nat)
    (l : list X) :
  omap g (take n l) ⊆+ omap g l.
Proof.
  rewrite <- (take_drop n l) at 2. rewrite omap_app.
  by apply submseteq_inserts_r.
Qed.

(** The sequential schedule of the second program. *)
Lemma V2_sequential (Head : string → response) (creatable : string → bool)
    (room : string → option nat)
    (f : flags) (lines : list string) (fs0 : files) :
  0 < flag_d f ≤ 1000000000 → read_urls lines ≠ [] →
  creatable (flag_o f) = true →
  fits (room (flag_o f)) (file_of (omap (live_url Head) (read_urls lines)))
  = true →
  ∃ s : V2.state,
    rtc (V2.step Head creatable room f) (V2.init f lines fs0) s
    ∧ status (Graceful.pl s) = Exited 0
    ∧ Graceful.fs s
      = <[flag_o f := file_of (omap (live_url Head) (read_urls lines))]> fs0
    ∧ Graceful.agg s = omap (live_url Head) (read_urls lines)
    ∧ Graceful.stopChan s = false
    ∧ Graceful.holding s = None
    ∧ next (Graceful.pl s) = length (read_urls lines)
    ∧ running (Graceful.pl s) = []
    ∧ chan (Graceful.pl s) = [].
Proof.
  intros Hrate Hne Hcr Hfit.
  pose proof (omap_ext_sends _ _ (read_urls lines)
                (sends_live_url Head (flag_v f))) as Hsends.
  destruct (Graceful_sequential_exit (Liveurls.checkURL Head)
              (λ url l, l ++ [url]) (V2.finish creatable room f)
              (read_urls lines) (flag_d f) (flag_v f) [] fs0
              (<[flag_o f := file_of (omap (live_url Head) (read_urls lines))]>
                 fs0) 0 Hrate Hne)
    as (s & Hrun & Hst & Hfs & Hagg & Hrest).
  { rewrite foldl_append_one, Hsends. simpl. by apply V2_finish_fits. }
  exists s. rewrite foldl_append_one, Hsends in Hagg. done.
Qed.

(** The sequential schedule of the classifying program. *)
Lemma V3_sequential (Head : string → response) (creatable : string → bool)
    (room : string → option nat)
    (f : V3.flags) (lines : list string) (fs0 fs' : files) (code : Z) :
  0 < V3.flag_d f ≤ 1000000000 → read_urls lines ≠ [] →
  V3.finish creatable room f
            (V3.aggregated (omap (answer Head) (read_urls lines)))
            fs0 fs' code →
  ∃ s : V3.state,
    rtc (V3.step Head creatable room f) (V3.init f lines fs0) s
    ∧ status (Graceful.pl s) = Exited code
    ∧ Graceful.fs s = fs'
    ∧ Graceful.agg s = V3.aggregated (omap (answer Head) (read_urls lines))
    ∧ Graceful.stopChan s = false
    ∧ Graceful.holding s = None
    ∧ next (Graceful.pl s) = length (read_urls lines)
    ∧ running (Graceful.pl s) = []
    ∧ chan (Graceful.pl s) = [].
Proof.
  intros Hrate Hne Hfin.
  pose proof (omap_ext_sends _ _ (read_urls lines)
                (sends_answer Head (V3.flag_v f))) as Hsends.
  destruct (Graceful_sequential_exit (Classify.checkURL Head)
              V3.collect (V3.finish creatable room f)
              (read_urls lines) (V3.flag_d f) (V3.flag_v f) ∅ fs0
              fs' code Hrate Hne)
    as (s & Hrun & Hst & Hfs & Hagg & Hrest).
  { rewrite Hsends. exact Hfin. }
  exists s. rewrite Hsends in Hagg. done.
Qed.

(** X3.  In the second program, at every instant, the urls collected in
    [liveURLs], the url the collector holds, the urls waiting in
    [outputChan] and those the probers in flight are going to send are
    together a sub-multiset of the normalized forms of the started
    endpoints that answer 200: no endpoint is collected more often than
    it is listed.  After an exit with status 0 the output file lists live
    endpoints only, none more often than it is in the input. *)
Theorem v2_collects_no_endpoint_twice
    (Head : string → response) (creatable : string → bool)
    (room : string → option nat)
    (f : flags)
    (lines : list string) (fs0 : files) (s : V2.state) :
  rtc (V2.step Head creatable room f) (V2.init f lines fs0) s →
  Graceful.agg s ++ option_list (Graceful.holding s)
    ++ chan (Graceful.pl s)
    ++ omap (live_url Head) (running (Graceful.pl s))
  ⊆+ omap (live_url Head) (take (next (Graceful.pl s)) (read_urls lines))
  ∧ (status (Graceful.pl s) = Exited 0 →
     ∃ l, Graceful.fs s = <[flag_o f := file_of l]> fs0
          ∧ l ⊆+ omap (live_url Head) (read_urls lines)).
Proof.
  intros Hrun.
  pose proof (Graceful_reachable_no_duplicate (Liveurls.checkURL Head)
                (λ url l, l ++ [url]) (V2.finish creatable room f) id
                (λ m a, reflexivity _)
                (read_urls lines) (flag_d f) (flag_v f) [] fs0 eq_refl s Hrun)
    as Hsub.
  unfold pending in Hsub.
  destruct (Graceful_reachable_inv _ _ _ _ _ _ _ _ _ Hrun)
    as (_ & _ & _ & Hv & _).
  rewrite Hv in Hsub.
  rewrite !(omap_ext_sends _ _ _ (sends_live_url Head (flag_v f))) in Hsub.
  split; [exact Hsub|]. intros Hexit.
  destruct (V2_exited_zero _ _ _ _ _ _ _ Hrun Hexit) as (l & Hl & Hfs & _).
  exists l. split; [done|].
  etrans; [|apply submseteq_omap_take]. etrans; [|exact Hsub].
  unfold id.
  destruct Hl as [k ->]. rewrite <- !app_assoc.
  by apply submseteq_inserts_r.
Qed.

Lemma v2_collects_no_endpoint_twice_witness :
  ∃ s : V2.state,
    rtc (V2.step (λ _, Status 200) (λ _, true) (λ _, None) default_flags)
        (V2.init default_flags ["a.test"; "https://b.test"] ∅) s
    ∧ Graceful.agg s = ["http://a.test"; "https://b.test"]
    ∧ Graceful.agg s
      ⊆+ omap (live_url (λ _, Status 200))
              (take (next (Graceful.pl s))
                    (read_urls ["a.test"; "https://b.test"])).
Proof.
  destruct (V2_sequential (λ _, Status 200) (λ _, true) (λ _, None)
              default_flags ["a.test"; "https://b.test"] ∅)
    as (s & Hrun & _ & _ & Hagg & _ & Hh & _ & Hr & Hch).
  - simpl. lia.
  - vm_compute. discriminate.
  - reflexivity.
  - reflexivity.
  - exists s. split; [exact Hrun|]. split; [exact Hagg|].
    destruct (v2_collects_no_endpoint_twice _ _ _ _ _ _ _ Hrun) as [Hsub _].
    rewrite Hh, Hr, Hch in Hsub. simpl in Hsub.
    by rewrite app_nil_r in Hsub.
Defined.

(** X4.  In the classifying program, at every instant, the results filed
    in the map, the result the collector holds, the results waiting in
    [outputChan] and those the probers in flight are going to send are
    together a sub-multiset of the answers of the started endpoints: no
    endpoint is filed twice, under one status code or under two, and
    every filed url is filed under the status its HEAD request got. *)
Theorem v3_files_no_result_twice
    (Head : string → response) (creatable : string → bool)
    (room : string → option nat)
    (f : V3.flags)
    (lines : list string) (fs0 : files) (s : V3.state) :
  rtc (V3.step Head creatable room f) (V3.init f lines fs0) s →
  filed (Graceful.agg s) ++ option_list (Graceful.holding s)
    ++ chan (Graceful.pl s)
    ++ omap (answer Head) (running (Graceful.pl s))
  ⊆+ omap (answer Head) (take (next (Graceful.pl s)) (read_urls lines)).
Proof.
  intros Hrun.
  pose proof (Graceful_reachable_no_duplicate (Classify.checkURL Head)
                V3.collect (V3.finish creatable room f) filed filed_collect
                (read_urls lines) (V3.flag_d f) (V3.flag_v f) ∅ fs0
                filed_empty s Hrun)
    as Hsub.
  unfold pending in Hsub.
  destruct (Graceful_reachable_inv _ _ _ _ _ _ _ _ _ Hrun)
    as (_ & _ & _ & Hv & _).
  rewrite Hv in Hsub.
  by rewrite !(omap_ext_sends _ _ _ (sends_answer Head (V3.flag_v f)))
    in Hsub.
Qed.

(** ** The verbose log *)

Lemma Liveurls_checkURL_prints Head u v :
  (Liveurls.checkURL Head u v).1 = log_of Head v [u].
Proof.
  unfold Liveurls.checkURL, log_of, report. simpl.
  destruct (Head (add_scheme u)) as [|code]; [by destruct v|].
  by destruct (code =? 200), v.
Qed.

Lemma Classify_checkURL_prints Head u v :
  (Classify.checkURL Head u v).1 = log_of Head v [u].
Proof.
  unfold Classify.checkURL, log_of, report. simpl.
  destruct (Head (add_scheme u)) as [|code]; by destruct v.
Qed.

Lemma log_of_app Head v (l1 l2 : list string) :
  log_of Head v (l1 ++ l2) = log_of Head v l1 ++ log_of Head v l2.
Proof. unfold log_of. destruct v; [apply fmap_app|done]. Qed.

Section PoolLog.
Context {M : Type}.
Variable checkURL : string → bool → list event * option M.
Variable Head : string → response.
Hypothesis checkURL_prints :
  ∀ u v, (checkURL u v).1 = log_of Head v [u].

Lemma pool_init_log us rps v :
  pool_log Head (pool_init (M:=M) us rps v).
Proof. unfold pool_log. simpl. by destruct v. Qed.

Lemma pool_step_log stopped (p p' : pool M) :
  pool_step checkURL stopped p p' → pool_log Head p → pool_log Head p'.
Proof.
  unfold pool_log.
  destruct 1 as [p cap period Hal Hph Hset|p why Hal Hph Hset|p Hal Hph Hn
    |p Hal Hph Hn Hst|p u Hal Hph Hsl Hu|p Hal Hph Hn|p Hal Hph Hr
    |p before u after printed Hal Hr Hc
    |p before u after printed m Hal Hr Hc Hcl Hroom
    |p before u after printed m Hal Hr Hc Hcl|p n Hal Hrel];
    simpl; intros Hlog; try done.
  - rewrite (take_S_r _ _ _ Hu), !log_of_app, app_assoc. by f_equiv.
  - pose proof (checkURL_prints u (verbose p)) as Hpr.
    rewrite Hc in Hpr. simpl in Hpr. subst printed.
    rewrite <- Hlog, Hr, !log_of_app. simpl.
    rewrite (log_of_app _ _ [u] after), <- !app_assoc.
    f_equiv. by rewrite !app_assoc, (Permutation_app_comm _ (log_of _ _ before)).
  - pose proof (checkURL_prints u (verbose p)) as Hpr.
    rewrite Hc in Hpr. simpl in Hpr. subst printed.
    rewrite <- Hlog, Hr, !log_of_app. simpl.
    rewrite (log_of_app _ _ [u] after), <- !app_assoc.
    f_equiv. by rewrite !app_assoc, (Permutation_app_comm _ (log_of _ _ before)).
Qed.

Lemma set_chan_log (p : pool M) c :
  pool_log Head p → pool_log Head (set_chan p c).
Proof. done. Qed.

Lemma set_closed_log (p : pool M) :
  pool_log Head p → pool_log Head (set_closed p).
Proof. done. Qed.

Lemma set_status_log (p : pool M) st :
  pool_log Head p → pool_log Head (set_status p st).
Proof. done. Qed.

Lemma Graceful_reachable_log {A : Type} (collect : M → A → A)
    (finish : A → files → files → Z → Prop)
    us rps v a0 fs0 (s : Graceful.state M A) :
  rtc (Graceful.step checkURL collect finish)
      (Graceful.init us rps v a0 fs0) s →
  pool_log Head (Graceful.pl s).
Proof.
  revert s. apply rtc_ind_r.
  { unfold Graceful.init. simpl. case_decide;
      [apply set_status_log|]; apply pool_init_log. }
  intros y z _ Hyz IH.
  destruct Hyz as [s p' Hw|s Hal Hph Hcl|s Hal|s x rest Hal Hh' Hch
    |s x Hal Hh'|s x rest Hal Hd Hch|s Hal Hd Hcl Hch|s Hal Hat Hsig
    |s Hal Hat Hd|s fs' code Hal Hat Hfin|s Hal Hat]; simpl;
    eauto using pool_step_log.
  by case_decide.
Qed.

(** The two readings of the log: quiet without [-v]; with [-v] one line
    per started endpoint at most, and all of them when none is in
    flight. *)
Lemma pool_log_reading (p : pool M) us v :
  pool_log Head p → urls p = us → verbose p = v →
  (v = false → stdout p = [])
  ∧ (v = true →
     stdout p ⊆+ report Head <$> take (next p) us
     ∧ (running p = [] → stdout p ≡ₚ report Head <$> take (next p) us)).
Proof.
  unfold pool_log. intros Hlog <- <-. split; intros Hv; rewrite Hv in Hlog.
  - simpl in Hlog. rewrite app_nil_r in Hlog.
    by apply Permutation_nil_r in Hlog.
  - simpl in Hlog. split.
    + rewrite <- Hlog. by apply submseteq_inserts_r.
    + intros Hr. rewrite Hr in Hlog. simpl in Hlog.
      by rewrite app_nil_r in Hlog.
Qed.

End PoolLog.

Lemma V1_reachable_log Head creatable room f lines fs0 (s : V1.state) :
  rtc (V1.step Head creatable room f) (V1.init f lines fs0) s →
  pool_log Head (V1.pl s).
Proof.
  revert s. apply rtc_ind_r.
  { unfold V1.init. simpl. case_decide;
      [apply set_status_log|]; apply pool_init_log. }
  intros y z _ Hyz IH.
  destruct Hyz as [s p' Hw|s x rest Hal Hat Hch|s Hal Hat Hcl Hch
    |s Hal Hat Hcl|s Hal Hat Hcl|s Hal Hat Hcr|s Hal Hat Hcr Hfit
    |s Hal Hat Hcr Hfit Hlen|s Hal Hat Hcr Hfit]; simpl;
    eauto using pool_step_log, Liveurls_checkURL_prints.
Qed.

(** X5.  The log of the probers, in every state of a run of any of the
    three programs.  Without [-v] the probers print nothing.  With [-v]
    every line a prober has printed is the [ERROR] line or the [CHECK]
    line of a started endpoint, with the normalized url and the status
    code its HEAD request got, no endpoint has more lines than it has
    entries in the list, and once no prober is in flight every started
    endpoint has its line. *)
Theorem verbose_log_has_one_line_per_probe :
  (∀ Head creatable room (f : flags) lines fs0 s,
     rtc (V1.step Head creatable room f) (V1.init f lines fs0) s →
     (flag_v f = false → stdout (V1.pl s) = [])
     ∧ (flag_v f = true →
        stdout (V1.pl s)
          ⊆+ report Head <$> take (next (V1.pl s)) (read_urls lines)
        ∧ (running (V1.pl s) = [] →
           stdout (V1.pl s)
             ≡ₚ report Head <$> take (next (V1.pl s)) (read_urls lines))))
  ∧ (∀ Head creatable room (f : flags) lines fs0 (s : V2.state),
       rtc (V2.step Head creatable room f) (V2.init f lines fs0) s →
       (flag_v f = false → stdout (Graceful.pl s) = [])
       ∧ (flag_v f = true →
          stdout (Graceful.pl s)
            ⊆+ report Head <$> take (next (Graceful.pl s)) (read_urls lines)
          ∧ (running (Graceful.pl s) = [] →
             stdout (Graceful.pl s)
               ≡ₚ report Head <$>
                    take (next (Graceful.pl s)) (read_urls lines))))
  ∧ (∀ Head creatable room (f : V3.flags) lines fs0 (s : V3.state),
       rtc (V3.step Head creatable room f) (V3.init f lines fs0) s →
       (V3.flag_v f = false → stdout (Graceful.pl s) = [])
       ∧ (V3.flag_v f = true →
          stdout (Graceful.pl s)
            ⊆+ report Head <$> take (next (Graceful.pl s)) (read_urls lines)
          ∧ (running (Graceful.pl s) = [] →
             stdout (Graceful.pl s)
               ≡ₚ report Head <$>
                    take (next (Graceful.pl s)) (read_urls lines)))).
Proof.
  split_and!; intros Head creatable room f lines fs0 s Hrun.
  - destruct (V1_reachable_inv _ _ _ _ _ _ _ Hrun) as (_ & Hu & _ & Hv & _).
    eapply pool_log_reading; [|done..]. by eapply V1_reachable_log.
  - destruct (Graceful_reachable_inv _ _ _ _ _ _ _ _ _ Hrun)
      as (_ & Hu & _ & Hv & _).
    eapply pool_log_reading; [|done..].
    eapply Graceful_reachable_log; [|exact Hrun].
    apply Liveurls_checkURL_prints.
  - destruct (Graceful_reachable_inv _ _ _ _ _ _ _ _ _ Hrun)
      as (_ & Hu & _ & Hv & _).
    eapply pool_log_reading; [|done..].
    eapply Graceful_reachable_log; [|exact Hrun].
    apply Classify_checkURL_prints.
Qed.

(** ** Runs without a signal, and the signal at the wrong moment *)

Lemma setup_never_send_on_closed (rps : Z) :
  processURLs_setup rps ≠ inl SendOnClosedChannel.
Proof.
  unfold processURLs_setup.
  destruct (rps <? 0); [done|]. destruct (rps =? 0); [done|].
  by destruct (_ <=? 0).
Qed.

Section GracefulNoSignal.
Context {M A : Type}.
Variable checkURL : string → bool → list event * option M.
Variable collect : M → A → A.
Variable finish : A → files → files → Z → Prop.
Variables (us : list string) (rps : Z) (v : bool) (a0 : A) (fs0 : files).

Lemma Graceful_stopChan_mono (s s' : Graceful.state M A) :
  Graceful.step checkURL collect finish s s' →
  Graceful.stopChan s' = false → Graceful.stopChan s = false.
Proof. by destruct 1. Qed.

Lemma Graceful_step_no_signal (s s' : Graceful.state M A) :
  Graceful.step checkURL collect finish s s' →
  Graceful.stopChan s' = false →
  no_signal_inv s → no_signal_inv s'.
Proof.
  unfold no_signal_inv.
  intros Hstep Hstop (Hwait & Hret & Hcl & Hdone & Hmain & Hpanic).
  destruct Hstep as [s p' Hw|s Hal Hph Hcl'|s Hal|s x rest Hal Hh' Hch
    |s x Hal Hh'|s x rest Hal Hd Hch|s Hal Hd Hcl' Hch|s Hal Hat Hsig
    |s Hal Hat Hd|s fs' code Hal Hat Hfin|s Hal Hat]; simpl in *;
    try done.
  - destruct Hw as [p cap period Hal Hph Hset|p why Hal Hph Hset|p Hal Hph Hn
      |p Hal Hph Hn Hst|p u Hal Hph Hsl Hu|p Hal Hph Hn|p Hal Hph Hr
      |p before u after printed Hal Hr Hc
      |p before u after printed m Hal Hr Hc Hcl' Hroom
      |p before u after printed m Hal Hr Hc Hcl'|p n Hal Hrel];
      simpl in *.
    + split_and!; try done. intros Hc. specialize (Hcl Hc). congruence.
    + split_and!; try done. intros [= ->].
      by apply setup_never_send_on_closed in Hset.
    + split_and!; try done. intros Hc. specialize (Hcl Hc). congruence.
    + congruence.
    + split_and!; try done. intros Hc. specialize (Hcl Hc). congruence.
    + split_and!; try done. intros Hc. specialize (Hcl Hc). congruence.
    + split_and!; try done. intros _. split; [|done]. by apply Hwait.
    + split_and!; try done. intros Hp. destruct (Hret Hp) as [_ Hnil].
      rewrite Hnil in Hr. by destruct before.
    + split_and!; try done.
      * intros Hp. destruct (Hret Hp) as [_ Hnil].
        rewrite Hnil in Hr. by destruct before.
      * intros Hd. destruct (Hdone Hd). congruence.
    + destruct (Hret (Hcl Hcl')) as [_ Hnil].
      rewrite Hnil in Hr. by destruct before.
    + done.
  - split_and!; try done. intros Hd. destruct (Hdone Hd). congruence.
  - split_and!; try done. intros Hd. destruct (Hdone Hd). congruence.
  - split_and!; try done. congruence.
  - destruct (decide (code = 0)); simpl; split_and!; try done;
      intros _; apply Hmain; congruence.
Qed.

Lemma Graceful_reachable_no_signal (s : Graceful.state M A) :
  rtc (Graceful.step checkURL collect finish)
      (Graceful.init us rps v a0 fs0) s →
  Graceful.stopChan s = false → no_signal_inv s.
Proof.
  revert s.
  apply (rtc_ind_r (λ s, Graceful.stopChan s = false → no_signal_inv s)).
  { intros _. unfold no_signal_inv, Graceful.init. simpl.
    by case_decide. }
  intros y z _ Hyz IH Hstop.
  eapply Graceful_step_no_signal; [exact Hyz|exact Hstop|].
  apply IH. by eapply Graceful_stopChan_mono.
Qed.

(** What a run without signal looks like from [main]. *)
Lemma Graceful_no_signal_reading (s : Graceful.state M A) :
  rtc (Graceful.step checkURL collect finish)
      (Graceful.init us rps v a0 fs0) s →
  Graceful.stopChan s = false →
  status (Graceful.pl s) ≠ Panicked SendOnClosedChannel
  ∧ (closed (Graceful.pl s) = true →
     next (Graceful.pl s) = length us ∧ running (Graceful.pl s) = [])
  ∧ (Graceful.at_main s ≠ Graceful.Selecting →
     closed (Graceful.pl s) = true ∧ chan (Graceful.pl s) = []
     ∧ next (Graceful.pl s) = length us ∧ running (Graceful.pl s) = []).
Proof.
  intros Hrun Hstop.
  destruct (Graceful_reachable_no_signal s Hrun Hstop)
    as (Hwait & Hret & Hcl & Hdone & Hmain & Hpanic).
  destruct (Graceful_reachable_inv _ _ _ _ _ _ _ _ _ Hrun)
    as (_ & Hu & _).
  rewrite Hu in Hret. split_and!; [done|by intros ?%Hcl%Hret|].
  intros Hat. destruct (Hdone (Hmain Hat)) as [Hc Hch].
  destruct (Hret (Hcl Hc)). done.
Qed.

(** The signal while the dispatcher is at its select and a prober that
    is going to send is in flight: [main] closes [stopChan], the
    dispatcher returns and closes [outputChan], the prober sends. *)
Lemma Graceful_interrupt_can_panic (s : Graceful.state M A)
    before u after printed m :
  status (Graceful.pl s) = Alive →
  Graceful.at_main s = Graceful.Selecting →
  phase (Graceful.pl s) = LoopHead →
  (next (Graceful.pl s) < length (urls (Graceful.pl s)))%nat →
  closed (Graceful.pl s) = false →
  running (Graceful.pl s) = before ++ u :: after →
  checkURL u (verbose (Graceful.pl s)) = (printed, Some m) →
  ∃ s', rtc (Graceful.step checkURL collect finish) s s'
        ∧ status (Graceful.pl s') = Panicked SendOnClosedChannel
        ∧ Graceful.fs s' = Graceful.fs s
        ∧ Graceful.agg s' = Graceful.agg s.
Proof.
  intros Hal Hat Hph Hn Hcl Hr Hc. eexists. split.
  - eapply rtc_l; [by apply Graceful.interrupt|].
    eapply rtc_l; [by apply Graceful.select_signal|].
    eapply rtc_l; [apply Graceful.workers; by apply loop_stop|].
    eapply rtc_l; [by apply Graceful.close_output|].
    eapply rtc_l;
      [apply Graceful.workers;
       by apply (probe_send_closed _ _ _ before u after printed m)|].
    apply rtc_refl.
  - done.
Qed.

End GracefulNoSignal.

(** X6.  As long as [main] has taken no signal, no prober of the later
    programs ever sends on the closed channel; [outputChan] is closed
    only after every endpoint was started and every prober has left
    [checkURL]; and [main] gets past its select only when, on top of
    that, the channel is drained. *)
Theorem without_signal_main_waits_for_every_probe :
  (∀ Head creatable room (f : flags) lines fs0 (s : V2.state),
     rtc (V2.step Head creatable room f) (V2.init f lines fs0) s →
     Graceful.stopChan s = false →
     status (Graceful.pl s) ≠ Panicked SendOnClosedChannel
     ∧ (closed (Graceful.pl s) = true →
        next (Graceful.pl s) = length (read_urls lines)
        ∧ running (Graceful.pl s) = [])
     ∧ (Graceful.at_main s ≠ Graceful.Selecting →
        closed (Graceful.pl s) = true ∧ chan (Graceful.pl s) = []
        ∧ next (Graceful.pl s) = length (read_urls lines)
        ∧ running (Graceful.pl s) = []))
  ∧ (∀ Head creatable room (f : V3.flags) lines fs0 (s : V3.state),
       rtc (V3.step Head creatable room f) (V3.init f lines fs0) s →
       Graceful.stopChan s = false →
       status (Graceful.pl s) ≠ Panicked SendOnClosedChannel
       ∧ (closed (Graceful.pl s) = true →
          next (Graceful.pl s) = length (read_urls lines)
          ∧ running (Graceful.pl s) = [])
       ∧ (Graceful.at_main s ≠ Graceful.Selecting →
          closed (Graceful.pl s) = true ∧ chan (Graceful.pl s) = []
          ∧ next (Graceful.pl s) = length (read_urls lines)
          ∧ running (Graceful.pl s) = [])).
Proof.
  split; intros Head creatable room f lines fs0 s Hrun Hstop;
    by eapply Graceful_no_signal_reading.
Qed.

(** ** The save phase of the classifying program always has an outcome *)

Lemma V3_finish_default (creatable : string → bool) (room : string → option nat)
    (f : V3.flags)
    (results : gmap Z (list string)) (fs : files) :
  V3.flag_only f = "" →
  V3.finish creatable room f results fs
    (V3.save_by_range creatable room f (map_to_list results) fs).1
    (V3.save_by_range creatable room f (map_to_list results) fs).2.
Proof.
  intros Honly. exists (map_to_list results). split; [done|].
  unfold V3.parseStatusRanges. rewrite Honly. simpl.
  by destruct (V3.save_by_range _ _ _ _).
Qed.

Lemma V3_finish_filter (creatable : string → bool) (room : string → option nat)
    (f : V3.flags)
    (ranges : gmap Z bool) (results : gmap Z (list string)) (fs : files) :
  V3.parseStatusRanges (V3.flag_only f) = Some ranges →
  creatable (V3.flag_o f +:+ ".txt") = true →
  room (V3.flag_o f +:+ ".txt") = None →
  V3.finish creatable room f results fs
    (<[V3.flag_o f +:+ ".txt" :=
         file_of (V3.filteredURLs ranges (map_to_list results))]> fs) 0.
Proof.
  intros Hparse Hcr Hroom. exists (map_to_list results). split; [done|].
  rewrite Hparse. by rewrite saveURLs_no_limit.
Qed.

Lemma v3_files_no_result_twice_witness :
  ∃ s : V3.state,
    rtc (V3.step (λ _, Status 404) (λ _, true) (λ _, None) only_2xx)
        (V3.init only_2xx ["a.test"; "b.test"] ∅) s
    ∧ next (Graceful.pl s) = 2%nat
    ∧ filed (Graceful.agg s)
      ⊆+ omap (answer (λ _, Status 404))
              (take (next (Graceful.pl s)) (read_urls ["a.test"; "b.test"])).
Proof.
  destruct (V3_sequential (λ _, Status 404) (λ _, true) (λ _, None) only_2xx
              ["a.test"; "b.test"] ∅
              (<[V3.flag_o only_2xx +:+ ".txt" :=
                   file_of (V3.filteredURLs
                              (foldl V3.parse_part ∅ (Split "2xx" ","))
                              (map_to_list
                                 (V3.aggregated
                                    (omap (answer (λ _, Status 404))
                                          (read_urls ["a.test"; "b.test"])))))]>
                 ∅) 0)
    as (s & Hrun & _ & _ & _ & _ & Hh & Hn & Hr & Hch).
  - simpl. lia.
  - vm_compute. discriminate.
  - by apply V3_finish_filter.
  - exists s. split; [exact Hrun|]. split; [exact Hn|].
    pose proof (v3_files_no_result_twice _ _ _ _ _ _ _ Hrun) as Hsub.
    rewrite Hh, Hr, Hch in Hsub. simpl in Hsub.
    by rewrite app_nil_r in Hsub.
Defined.

(** X7.  The second program can do what it is meant to do: with a rate
    between 1 and 10^9, a list that is not empty and an output path that
    can be created and has the room for them, there is a run without any
    signal that probes every endpoint, exits with status 0 and leaves in
    the output file the normalized forms of exactly the endpoints that
    answered 200, in the order of the input list. *)
Theorem v2_sequential_run_saves_every_live_endpoint
    (Head : string → response) (creatable : string → bool)
    (room : string → option nat)
    (f : flags)
    (lines : list string) (fs0 : files) :
  0 < flag_d f ≤ 1000000000 → read_urls lines ≠ [] →
  creatable (flag_o f) = true →
  fits (room (flag_o f)) (file_of (omap (live_url Head) (read_urls lines)))
  = true →
  ∃ s : V2.state,
    rtc (V2.step Head creatable room f) (V2.init f lines fs0) s
    ∧ Graceful.stopChan s = false
    ∧ next (Graceful.pl s) = length (read_urls lines)
    ∧ running (Graceful.pl s) = []
    ∧ status (Graceful.pl s) = Exited 0
    ∧ Graceful.fs s
      = <[flag_o f := file_of (omap (live_url Head) (read_urls lines))]> fs0.
Proof.
  intros Hrate Hne Hcr Hfit.
  destruct (V2_sequential Head creatable room f lines fs0 Hrate Hne Hcr Hfit)
    as (s & ? & ? & ? & ? & ? & ? & ? & ? & ?).
  by exists s.
Qed.

Lemma v2_sequential_run_saves_every_live_endpoint_witness :
  let Head := λ u, if String.eqb u "http://b.test" then Status 404
                   else Status 200 in
  ∃ s : V2.state,
    rtc (V2.step Head (λ _, true) (λ _, None) default_flags)
        (V2.init default_flags ["a.test"; " b.test "; ""; "https://c.test"] ∅)
        s
    ∧ status (Graceful.pl s) = Exited 0
    ∧ Graceful.fs s
      = <["live_urls.txt" := file_of ["http://a.test"; "https://c.test"]]> ∅.
Proof.
  intros Head.
  destruct (v2_sequential_run_saves_every_live_endpoint Head (λ _, true)
              (λ _, None)
              default_flags ["a.test"; " b.test "; ""; "https://c.test"] ∅)
    as (s & Hrun & _ & _ & _ & Hst & Hfs).
  - simpl. lia.
  - vm_compute. discriminate.
  - reflexivity.
  - reflexivity.
  - exists s. split; [exact Hrun|]. split; [exact Hst|]. exact Hfs.
Defined.

(** X8.  The classifying program can do what it is meant to do: with a
    rate between 1 and 10^9 and a list that is not empty, there is a run
    without any signal that probes every endpoint and in which the
    collector's map holds, under each status code, the normalized forms
    of the endpoints whose HEAD request got that code, in the order of
    the input list (and no entry for a code that no endpoint got); the
    process ends with the files and the status of the save phase on that
    map. *)
Theorem v3_sequential_run_files_every_answer
    (Head : string → response) (creatable : string → bool)
    (room : string → option nat)
    (f : V3.flags)
    (lines : list string) (fs0 fs' : files) (code : Z) :
  0 < V3.flag_d f ≤ 1000000000 → read_urls lines ≠ [] →
  V3.finish creatable room f
            (V3.aggregated (omap (answer Head) (read_urls lines)))
            fs0 fs' code →
  ∃ s : V3.state,
    rtc (V3.step Head creatable room f) (V3.init f lines fs0) s
    ∧ Graceful.stopChan s = false
    ∧ next (Graceful.pl s) = length (read_urls lines)
    ∧ running (Graceful.pl s) = []
    ∧ status (Graceful.pl s) = Exited code
    ∧ Graceful.fs s = fs'
    ∧ ∀ c, Graceful.agg s !! c
           = match V3.urls_with c (omap (answer Head) (read_urls lines)) with
             | [] => None
             | l => Some l
             end.
Proof.
  intros Hrate Hne Hfin.
  destruct (V3_sequential Head creatable room f lines fs0 fs' code Hrate Hne Hfin)
    as (s & ? & ? & ? & Hagg & ? & ? & ? & ? & ?).
  exists s. split_and!; try done.
  intros c. rewrite Hagg. apply aggregated_lookup.
Qed.

Lemma v3_sequential_run_files_every_answer_witness :
  let Head := λ u, if String.eqb u "http://b.test" then Status 404
                   else Status 200 in
  ∃ s : V3.state,
    rtc (V3.step Head (λ _, true) (λ _, None) only_2xx)
        (V3.init only_2xx ["a.test"; "b.test"; "https://c.test"] ∅) s
    ∧ status (Graceful.pl s) = Exited 0
    ∧ Graceful.agg s !! 200 = Some ["http://a.test"; "https://c.test"]
    ∧ Graceful.agg s !! 404 = Some ["http://b.test"]
    ∧ Graceful.agg s !! 500 = None.
Proof.
  intros Head.
  destruct (v3_sequential_run_files_every_answer Head (λ _, true)
              (λ _, None) only_2xx
              ["a.test"; "b.test"; "https://c.test"] ∅
              (<[V3.flag_o only_2xx +:+ ".txt" :=
                   file_of (V3.filteredURLs
                              (foldl V3.parse_part ∅ (Split "2xx" ","))
                              (map_to_list
                                 (V3.aggregated
                                    (omap (answer Head)
                                          (read_urls ["a.test"; "b.test";
                                                      "https://c.test"])))))]>
                 ∅) 0)
    as (s & Hrun & _ & _ & _ & Hst & _ & Hagg).
  - simpl. lia.
  - vm_compute. discriminate.
  - by apply V3_finish_filter.
  - exists s. split; [exact Hrun|]. split; [exact Hst|].
    rewrite !Hagg. split_and!; reflexivity.
Defined.

(** X9.  A signal at the wrong moment crashes the later programs.  When
    the signal arrives while the dispatcher waits at its select with
    endpoints left to start and a prober whose HEAD request gets a
    response (with status 200, in the second program) is in flight, this
    can happen: [main] closes [stopChan], [processURLs] returns, its
    goroutine closes [outputChan], and the prober sends on the closed
    channel: the process panics, and no file has been written. *)
Theorem signal_during_probe_can_panic :
  (∀ Head creatable room (f : flags) (s : V2.state) before u after,
     status (Graceful.pl s) = Alive →
     Graceful.at_main s = Graceful.Selecting →
     phase (Graceful.pl s) = LoopHead →
     (next (Graceful.pl s) < length (urls (Graceful.pl s)))%nat →
     closed (Graceful.pl s) = false →
     running (Graceful.pl s) = before ++ u :: after →
     Head (add_scheme u) = Status 200 →
     ∃ s', rtc (V2.step Head creatable room f) s s'
           ∧ status (Graceful.pl s') = Panicked SendOnClosedChannel
           ∧ Graceful.fs s' = Graceful.fs s)
  ∧ (∀ Head creatable room (f : V3.flags) (s : V3.state) before u after code,
       status (Graceful.pl s) = Alive →
       Graceful.at_main s = Graceful.Selecting →
       phase (Graceful.pl s) = LoopHead →
       (next (Graceful.pl s) < length (urls (Graceful.pl s)))%nat →
       closed (Graceful.pl s) = false →
       running (Graceful.pl s) = before ++ u :: after →
       Head (add_scheme u) = Status code →
       ∃ s', rtc (V3.step Head creatable room f) s s'
             ∧ status (Graceful.pl s') = Panicked SendOnClosedChannel
             ∧ Graceful.fs s' = Graceful.fs s).
Proof.
  split.
  - intros Head creatable room f s before u after Hal Hat Hph Hn Hcl Hr H200.
    destruct (Liveurls.checkURL Head u (verbose (Graceful.pl s)))
      as [printed o] eqn:Hc.
    assert (o = Some (add_scheme u)) as ->.
    { pose proof (sends_live_url Head (verbose (Graceful.pl s)) u) as Hs.
      unfold sends, live_url in Hs. rewrite Hc, H200 in Hs. done. }
    destruct (Graceful_interrupt_can_panic (Liveurls.checkURL Head)
                (λ url l, l ++ [url]) (V2.finish creatable room f)
                s before u after printed (add_scheme u)
                Hal Hat Hph Hn Hcl Hr Hc) as (s' & ? & ? & ? & _).
    by exists s'.
  - intros Head creatable room f s before u after code
           Hal Hat Hph Hn Hcl Hr Hcode.
    destruct (Classify.checkURL Head u (verbose (Graceful.pl s)))
      as [printed o] eqn:Hc.
    assert (o = Some {| Classify.url := add_scheme u;
                        Classify.statusCode := code |}) as ->.
    { pose proof (sends_answer Head (verbose (Graceful.pl s)) u) as Hs.
      unfold sends, answer in Hs. rewrite Hc, Hcode in Hs. done. }
    destruct (Graceful_interrupt_can_panic (Classify.checkURL Head)
                V3.collect (V3.finish creatable room f)
                s before u after printed _
                Hal Hat Hph Hn Hcl Hr Hc) as (s' & ? & ? & ? & _).
    by exists s'.
Qed.

Lemma signal_during_probe_can_panic_witness :
  ∃ s : V2.state,
    rtc (V2.step (λ _, Status 200) (λ _, true) (λ _, None) default_flags)
        (V2.init default_flags ["a.test"; "b.test"] ∅) s
    ∧ status (Graceful.pl s) = Panicked SendOnClosedChannel
    ∧ Graceful.fs s = ∅.
Proof.
  assert (∃ s0 : V2.state,
            rtc (V2.step (λ _, Status 200) (λ _, true) (λ _, None) default_flags)
                (V2.init default_flags ["a.test"; "b.test"] ∅) s0
            ∧ status (Graceful.pl s0) = Alive
            ∧ Graceful.at_main s0 = Graceful.Selecting
            ∧ phase (Graceful.pl s0) = LoopHead
            ∧ (next (Graceful.pl s0) < length (urls (Graceful.pl s0)))%nat
            ∧ closed (Graceful.pl s0) = false
            ∧ running (Graceful.pl s0) = [] ++ "a.test" :: []
            ∧ Graceful.fs s0 = ∅)
    as (s0 & Hrun & Hal & Hat & Hph & Hn & Hcl & Hr & Hfs).
  { eexists. split.
    - graceful_step ltac:(apply Graceful.workers;
                          by apply (setup_ok _ _ _ 10 100000000)).
      graceful_step ltac:(apply Graceful.workers; apply loop_tick;
                          [reflexivity..|simpl; lia]).
      graceful_step ltac:(apply Graceful.workers;
                          by apply (acquire_spawn _ _ _ "a.test")).
      apply rtc_refl.
    - simpl. split_and!; try reflexivity. lia. }
  destruct (proj1 signal_during_probe_can_panic (λ _, Status 200)
              (λ _, true) (λ _, None) default_flags s0 [] "a.test" []
              Hal Hat Hph Hn Hcl Hr eq_refl) as (s' & Hrun' & Hpanic & Hfs').
  exists s'. split; [by etrans|]. split; [exact Hpanic|]. congruence.
Defined.

(** ** How the processes end *)

Lemma V1_step_alive Head creatable room f (s s' : V1.state) :
  V1.step Head creatable room f s s' → status (V1.pl s) = Alive.
Proof. destruct 1; try done. by eapply pool_step_alive. Qed.

Lemma Graceful_step_alive {M A : Type}
    (checkURL : string → bool → list event * option M)
    (collect : M → A → A) (finish : A → files → files → Z → Prop)
    (s s' : Graceful.state M A) :
  Graceful.step checkURL collect finish s s' →
  status (Graceful.pl s) = Alive.
Proof. destruct 1; try done. by eapply pool_step_alive. Qed.

(** A process that has exited or panicked takes no step. *)
Lemma V1_ended_stays Head creatable room f (s s' : V1.state) :
  status (V1.pl s) ≠ Alive → rtc (V1.step Head creatable room f) s s' → s' = s.
Proof.
  intros Hend Hrun. destruct Hrun as [|s y z Hstep _]; [done|].
  by apply V1_step_alive in Hstep.
Qed.

Lemma Graceful_ended_stays {M A : Type}
    (checkURL : string → bool → list event * option M)
    (collect : M → A → A) (finish : A → files → files → Z → Prop)
    (s s' : Graceful.state M A) :
  status (Graceful.pl s) ≠ Alive →
  rtc (Graceful.step checkURL collect finish) s s' → s' = s.
Proof.
  intros Hend Hrun. destruct Hrun as [|s y z Hstep _]; [done|].
  by apply Graceful_step_alive in Hstep.
Qed.

(** X10.  The empty list.  When the input has no line that is not blank,
    each of the three programs ends with status 1 before [processURLs]
    is started: the semaphore is never made (so the rate is not even
    looked at), nothing is probed, nothing is printed by a prober and no
    file is created or truncated. *)
Theorem empty_list_exits_before_probing :
  (∀ Head creatable room (f : flags) lines fs0 s,
     read_urls lines = [] →
     rtc (V1.step Head creatable room f) (V1.init f lines fs0) s →
     status (V1.pl s) = Exited 1 ∧ phase (V1.pl s) = Setup
     ∧ next (V1.pl s) = 0%nat ∧ stdout (V1.pl s) = [] ∧ V1.fs s = fs0)
  ∧ (∀ Head creatable room (f : flags) lines fs0 (s : V2.state),
       read_urls lines = [] →
       rtc (V2.step Head creatable room f) (V2.init f lines fs0) s →
       status (Graceful.pl s) = Exited 1 ∧ phase (Graceful.pl s) = Setup
       ∧ next (Graceful.pl s) = 0%nat ∧ stdout (Graceful.pl s) = []
       ∧ Graceful.fs s = fs0)
  ∧ (∀ Head creatable room (f : V3.flags) lines fs0 (s : V3.state),
       read_urls lines = [] →
       rtc (V3.step Head creatable room f) (V3.init f lines fs0) s →
       status (Graceful.pl s) = Exited 1 ∧ phase (Graceful.pl s) = Setup
       ∧ next (Graceful.pl s) = 0%nat ∧ stdout (Graceful.pl s) = []
       ∧ Graceful.fs s = fs0).
Proof.
  split_and!; intros Head creatable room f lines fs0 s Hnil Hrun.
  - apply V1_ended_stays in Hrun as ->;
      unfold V1.init; rewrite Hnil; simpl; done.
  - apply Graceful_ended_stays in Hrun as ->;
      unfold V2.init, Graceful.init; rewrite Hnil; simpl; done.
  - apply Graceful_ended_stays in Hrun as ->;
      unfold V3.init, Graceful.init; rewrite Hnil; simpl; done.
Qed.

Lemma empty_list_exits_before_probing_witness :
  read_urls [""; "   "; String "009" ""] = []
  ∧ ∀ s, rtc (V2.step (λ _, Status 200) (λ _, true) (λ _, None) default_flags)
             (V2.init default_flags [""; "   "; String "009" ""] ∅) s →
         status (Graceful.pl s) = Exited 1 ∧ Graceful.fs s = ∅.
Proof.
  split; [reflexivity|]. intros s Hrun.
  destruct (proj1 (proj2 empty_list_exits_before_probing)
              (λ _, Status 200) (λ _, true) (λ _, None) default_flags
              [""; "   "; String "009" ""] ∅ s eq_refl Hrun)
    as (Hst & _ & _ & _ & Hfs).
  by split.
Defined.

Section V2Exit.
Variable Head : string → response.
Variable creatable : string → bool.
Variable room : string → option nat.
Variable f : flags.
Variable lines : list string.
Variable fs0 : files.

Lemma V2_reachable_exit (s : V2.state) :
  rtc (V2.step Head creatable room f) (V2.init f lines fs0) s →
  (status (Graceful.pl s) = Alive → read_urls lines ≠ [])
  ∧ (∀ code, status (Graceful.pl s) = Exited code →
       (read_urls lines = [] ∧ code = 1
        ∧ Graceful.at_main s = Graceful.Selecting)
       ∨ (read_urls lines ≠ []
          ∧ Graceful.at_main s = Graceful.Leaving code)).
Proof.
  revert s. apply rtc_ind_r.
  { unfold V2.init, Graceful.init. simpl. split.
    - case_decide as Hlen; [done|]. intros _ Hnil. by rewrite Hnil in Hlen.
    - case_decide as Hlen; [|done]. intros code [= <-]. left.
      split; [|done]. by apply length_zero_iff_nil. }
  intros y z _ Hyz (Hne & Hexit). unfold V2.step in Hyz.
  pose proof (Graceful_step_alive _ _ _ _ _ Hyz) as Haly.
  specialize (Hne Haly).
  destruct Hyz as [s p' Hw|s Hal Hph Hcl|s Hal|s x rest Hal Hh' Hch
    |s x Hal Hh'|s x rest Hal Hd Hch|s Hal Hd Hcl Hch|s Hal Hat Hsig
    |s Hal Hat Hd|s fs' code Hal Hat Hfin|s Hal Hat]; simpl in *;
    try (split; [done|congruence]).
  - split; [done|]. intros code Hc. exfalso.
    destruct Hw; simpl in *; congruence.
  - split; [done|]. intros code'. case_decide; simpl; [congruence|].
    intros [= <-]. by right.
  - split; [done|]. intros code [= <-]. by right.
Qed.

End V2Exit.

(** X11.  How the second program ends, once the input has been read.
    Until [main] is through its save no file is touched.  An exit status
    is 0 or 1.  Status 0: the list was not empty, the output path could
    be created and had the room, and the output file holds urls that had
    been collected (a prefix of [liveURLs]).  Status 1 comes in three
    ways: the list was empty, or the output path could not be created,
    and then the file system is as it was; or the path was created and a
    write failed for want of room, and then the output file is left
    with the first bytes of what was to be written, as many as there was
    room for. *)
Theorem v2_exit_status
    (Head : string → response) (creatable : string → bool)
    (room : string → option nat) (f : flags)
    (lines : list string) (fs0 : files) (s : V2.state) :
  rtc (V2.step Head creatable room f) (V2.init f lines fs0) s →
  (Graceful.at_main s = Graceful.Selecting
   ∨ Graceful.at_main s = Graceful.Saving → Graceful.fs s = fs0)
  ∧ ∀ code, status (Graceful.pl s) = Exited code →
      (code = 0 ∧ read_urls lines ≠ [] ∧ creatable (flag_o f) = true
       ∧ ∃ l, l `prefix_of` Graceful.agg s
              ∧ fits (room (flag_o f)) (file_of l) = true
              ∧ Graceful.fs s = <[flag_o f := file_of l]> fs0)
      ∨ (code = 1 ∧ read_urls lines = [] ∧ Graceful.fs s = fs0)
      ∨ (code = 1 ∧ read_urls lines ≠ [] ∧ creatable (flag_o f) = false
         ∧ Graceful.fs s = fs0)
      ∨ (code = 1 ∧ read_urls lines ≠ [] ∧ creatable (flag_o f) = true
         ∧ ∃ l, l `prefix_of` Graceful.agg s
                ∧ fits (room (flag_o f)) (file_of l) = false
                ∧ Graceful.fs s
                  = <[flag_o f := reaches (room (flag_o f)) (file_of l)]>
                      fs0).
Proof.
  intros Hrun.
  destruct (V2_reachable_exit _ _ _ _ _ _ _ Hrun) as (_ & Hexit).
  destruct (V2_reachable_inv _ _ _ _ _ _ _ Hrun)
    as (_ & _ & Hbefore & Hafter).
  split; [done|].
  intros code Hcode.
  destruct (Hexit code Hcode) as [(Hnil & -> & Hat)|(Hne & Hat)].
  - right; left. split_and!; [done..|]. apply Hbefore. by left.
  - destruct (Hafter code Hat) as (l & Hl & Hfin).
    apply V2_finish_cases in Hfin
      as [(Hcr & -> & ->)|[(Hcr & Hfit & -> & ->)|(Hcr & Hfit & -> & ->)]].
    + right; right; left. done.
    + left. split_and!; [done..|]. by exists l.
    + right; right; right. split_and!; [done..|]. by exists l.
Qed.

(** The device is full: the file is created and left empty, status 1. *)
Lemma v2_exit_status_witness :
  ∃ s : V2.state,
    rtc (V2.step (λ _, Status 200) (λ _, true) (λ _, Some 0%nat)
                 default_flags)
        (V2.init default_flags ["a.test"] ∅) s
    ∧ status (Graceful.pl s) = Exited 1
    ∧ Graceful.agg s = ["http://a.test"]
    ∧ Graceful.fs s = <["live_urls.txt" := ""]> ∅.
Proof.
  destruct (Graceful_sequential_exit (Liveurls.checkURL (λ _, Status 200))
              (λ url l, l ++ [url])
              (V2.finish (λ _, true) (λ _, Some 0%nat) default_flags)
              (read_urls ["a.test"]) 10 false [] ∅
              (<["live_urls.txt" := ""]> ∅) 1)
    as (s & Hrun & Hst & _ & Hagg & _).
  - lia.
  - vm_compute. discriminate.
  - split; reflexivity.
  - exists s. split; [exact Hrun|]. split; [exact Hst|].
    split; [exact Hagg|].
    destruct (v2_exit_status _ _ _ _ _ _ _ Hrun) as [_ Hexit].
    destruct (Hexit 1 Hst)
      as [(? & _)|[(_ & Hnil & _)|[(_ & _ & Hcr & _)
         |(_ & _ & _ & l & Hl & _ & Hfs)]]]; [done| | |].
    + vm_compute in Hnil. discriminate Hnil.
    + discriminate Hcr.
    + rewrite Hfs. f_equal. by destruct (file_of l).
Defined.

(** ** A rate above 10^9 *)

Lemma setup_huge (rps : Z) :
  1000000000 < rps → processURLs_setup rps = inl NonPositiveTickerInterval.
Proof.
  intros Hbig. unfold processURLs_setup.
  destruct (rps <? 0) eqn:E1; [apply Z.ltb_lt in E1; lia|].
  destruct (rps =? 0) eqn:E2; [apply Z.eqb_eq in E2; lia|].
  rewrite Z.quot_small by lia. done.
Qed.

(** X12.  The rate and the ticker.  The setup of [processURLs] succeeds
    exactly for the rates from 1 to 10^9; the period of the ticker is
    then the whole number of nanoseconds in 10^9/rate, at least 1.  A
    rate above 10^9 gives the period 0 and [time.NewTicker] panics: in
    no state of any run of any of the three programs is an endpoint
    started or a line printed by a prober. *)
Theorem rate_above_a_billion_panics :
  (∀ rps, (∃ cap period, processURLs_setup rps = inr (cap, period))
          ↔ 1 ≤ rps ≤ 1000000000)
  ∧ (∀ rps cap period, processURLs_setup rps = inr (cap, period) →
       1 ≤ period ∧ period * rps ≤ 1000000000 < (period + 1) * rps)
  ∧ (∀ rps, 1000000000 < rps →
       processURLs_setup rps = inl NonPositiveTickerInterval)
  ∧ (∀ Head creatable room (f : flags) lines fs0 s,
       1000000000 < flag_d f →
       rtc (V1.step Head creatable room f) (V1.init f lines fs0) s →
       next (V1.pl s) = 0%nat ∧ running (V1.pl s) = []
       ∧ stdout (V1.pl s) = [])
  ∧ (∀ Head creatable room (f : flags) lines fs0 (s : V2.state),
       1000000000 < flag_d f →
       rtc (V2.step Head creatable room f) (V2.init f lines fs0) s →
       next (Graceful.pl s) = 0%nat ∧ running (Graceful.pl s) = []
       ∧ stdout (Graceful.pl s) = [])
  ∧ (∀ Head creatable room (f : V3.flags) lines fs0 (s : V3.state),
       1000000000 < V3.flag_d f →
       rtc (V3.step Head creatable room f) (V3.init f lines fs0) s →
       next (Graceful.pl s) = 0%nat ∧ running (Graceful.pl s) = []
       ∧ stdout (Graceful.pl s) = []).
Proof.
  split_and!.
  - intros rps. split.
    + intros (cap & period & Hset).
      apply setup_capacity in Hset as (_ & ? & _). lia.
    + intros Hr. exists rps, (1000000000 `quot` rps).
      unfold processURLs_setup.
      destruct (rps <? 0) eqn:E1; [apply Z.ltb_lt in E1; lia|].
      destruct (rps =? 0) eqn:E2; [apply Z.eqb_eq in E2; lia|].
      destruct (_ <=? 0) eqn:E3; [|done]. apply Z.leb_le in E3.
      assert (1 ≤ 1000000000 `quot` rps); [|lia].
      apply Z.quot_le_lower_bound; lia.
  - intros rps cap period Hset.
    apply setup_capacity in Hset as (_ & Hr & ->).
    rewrite Z.quot_div_nonneg by lia.
    pose proof (Z.div_mod 1000000000 rps ltac:(lia)) as Hdm.
    pose proof (Z.mod_pos_bound 1000000000 rps ltac:(lia)) as Hm.
    split; [apply Z.div_le_lower_bound; lia|nia].
  - apply setup_huge.
  - intros Head creatable room f lines fs0 s Hbig Hrun.
    destruct (V1_reachable_inv _ _ _ _ _ _ _ Hrun) as (Hinv & _ & Hr & _).
    destruct (pool_inv_setup_fails _ _ NonPositiveTickerInterval Hinv)
      as (_ & ? & ? & _ & ?); [|done].
    rewrite Hr. by apply setup_huge.
  - intros Head creatable room f lines fs0 s Hbig Hrun.
    destruct (Graceful_reachable_inv _ _ _ _ _ _ _ _ _ Hrun)
      as (Hinv & _ & Hr & _).
    destruct (pool_inv_setup_fails _ _ NonPositiveTickerInterval Hinv)
      as (_ & ? & ? & _ & ?); [|done].
    rewrite Hr. by apply setup_huge.
  - intros Head creatable room f lines fs0 s Hbig Hrun.
    destruct (Graceful_reachable_inv _ _ _ _ _ _ _ _ _ Hrun)
      as (Hinv & _ & Hr & _).
    destruct (pool_inv_setup_fails _ _ NonPositiveTickerInterval Hinv)
      as (_ & ? & ? & _ & ?); [|done].
    rewrite Hr. by apply setup_huge.
Qed.

(** ** The filter as a set of classes, and the collector's map *)

Import Classify.

Lemma parse_part_cases (ranges : gmap Z bool) (part : string) :
  V3.parse_part ranges part = ranges
  ∨ ∃ N, 0 ≤ N ≤ 9
         ∧ V3.parse_part ranges part
           = foldl (λ r i, <[N * 100 + Z.of_nat i := true]> r) ranges
                   (seq 0 100).
Proof.
  unfold V3.parse_part, len.
  destruct (_ || _) eqn:Hc; [by left|].
  apply orb_false_iff in Hc as [Hlen%Z.ltb_ge _].
  destruct (TrimSpace part) as [|a rest]; [simpl in Hlen; lia|].
  rewrite slice_to_1, Atoi_one_byte.
  destruct (digit a) as [N|] eqn:Hd; [|by left].
  right. exists N. split; [by eapply digit_bounds|done].
Qed.

(** Every key of the filter map is a status from 0 to 999 and carries
    [true]. *)
Lemma parse_part_keys (ranges : gmap Z bool) (part : string) :
  (∀ c b, ranges !! c = Some b → b = true ∧ 0 ≤ c ≤ 999) →
  ∀ c b, V3.parse_part ranges part !! c = Some b → b = true ∧ 0 ≤ c ≤ 999.
Proof.
  intros Hr c b. destruct (parse_part_cases ranges part) as [->|(N & HN & ->)];
    [apply Hr|].
  rewrite class_fold_lookup. case_decide as Hc; [|apply Hr].
  intros [= <-]. split; [done|lia].
Qed.

Lemma foldl_parse_part_keys (parts : list string) (r0 : gmap Z bool) :
  (∀ c b, r0 !! c = Some b → b = true ∧ 0 ≤ c ≤ 999) →
  ∀ c b, foldl V3.parse_part r0 parts !! c = Some b → b = true ∧ 0 ≤ c ≤ 999.
Proof.
  revert r0. induction parts as [|p parts IH]; intros r0 Hr; simpl; [done|].
  apply IH. by apply parse_part_keys.
Qed.

Lemma part_selects_class (part : string) (c c' : Z) :
  V3.part_selects part c → 0 ≤ c' → c' `quot` 100 = c `quot` 100 →
  V3.part_selects part c'.
Proof.
  intros (a & rest & N & Hp & Hd & Hs & Hc) Hpos Hq.
  exists a, rest, N. split_and!; try done;
    apply digit_bounds in Hd;
    pose proof (Z.quot_rem' c 100) as E1;
    pose proof (Z.quot_rem' c' 100) as E2;
    pose proof (Z.rem_bound_pos c 100 ltac:(lia) ltac:(lia)) as B1;
    pose proof (Z.rem_bound_pos c' 100 ltac:(lia) ltac:(lia)) as B2;
    lia.
Qed.

(** X13.  What a filter can select.  The map [parseStatusRanges] builds
    holds only [true], and only under statuses from 0 to 999; it selects
    whole classes: with a status it selects every status (not negative)
    of the same hundreds; and the selection depends only on which parts
    the [-only] string has, not on their order or on how often a part is
    repeated. *)
Theorem filter_selects_whole_classes (only : string) (ranges : gmap Z bool) :
  V3.parseStatusRanges only = Some ranges →
  (∀ c b, ranges !! c = Some b → b = true ∧ 0 ≤ c ≤ 999)
  ∧ (∀ c c', V3.selected ranges c = true → 0 ≤ c' →
             c' `quot` 100 = c `quot` 100 → V3.selected ranges c' = true)
  ∧ (∀ only' ranges',
       V3.parseStatusRanges only' = Some ranges' →
       (∀ p, p ∈ Split only "," ↔ p ∈ Split only' ",") →
       ∀ c, V3.selected ranges' c = V3.selected ranges c).
Proof.
  unfold V3.parseStatusRanges. case_decide as Hne; [done|]. intros [= <-].
  assert (∀ parts c, V3.selected (foldl V3.parse_part ∅ parts) c = true ↔
                     ∃ part, part ∈ parts ∧ V3.part_selects part c) as Hsel.
  { intros parts c. rewrite foldl_parse_part_selected.
    unfold V3.selected at 1. rewrite lookup_empty. simpl.
    split; [intros [?|?]; done|by right]. }
  split_and!.
  - apply foldl_parse_part_keys. intros c b. by rewrite lookup_empty.
  - intros c c' Hc Hpos Hq. apply Hsel in Hc as (part & Hin & Hp).
    apply Hsel. exists part. split; [done|]. by eapply part_selects_class.
  - intros only' ranges'. case_decide as Hne'; [done|]. intros [= <-] Hparts c.
    apply eq_true_iff_eq. rewrite !Hsel. split.
    + intros (p & Hin & Hp). exists p. split; [by apply Hparts|done].
    + intros (p & Hin & Hp). exists p. split; [by apply Hparts|done].
Qed.

Lemma filter_selects_whole_classes_witness :
  ∃ ranges, V3.parseStatusRanges "5xx,2xx,2xx" = Some ranges
    ∧ (∀ c b, ranges !! c = Some b → b = true ∧ 0 ≤ c ≤ 999)
    ∧ ∀ ranges', V3.parseStatusRanges "2xx,5xx" = Some ranges' →
                 ∀ c, V3.selected ranges' c
                      = V3.selected ranges c.
Proof.
  eexists. split; [reflexivity|].
  destruct (filter_selects_whole_classes "5xx,2xx,2xx" _ eq_refl)
    as (Hkeys & _ & Hsame).
  split; [exact Hkeys|]. intros ranges' Hparse.
  apply (Hsame "2xx,5xx" ranges' Hparse).
  intros p. simpl. rewrite !elem_of_cons, !elem_of_nil. tauto.
Defined.

(** X14.  The collector's map is a faithful filing of what it received:
    read back entry by entry it gives the received results, each exactly
    once; the entry of a status code holds the urls received with that
    code, oldest first; and no entry is empty. *)
Theorem collector_files_each_result_once (rs : list statusResult) :
  filed (V3.aggregated rs) ≡ₚ rs
  ∧ (∀ c, V3.aggregated rs !! c
          = match V3.urls_with c rs with [] => None | l => Some l end)
  ∧ (∀ c l, V3.aggregated rs !! c = Some l →
            l ≠ [] ∧ l = V3.urls_with c rs)
  ∧ (∀ c, c ∈ dom (V3.aggregated rs) ↔ ∃ r, r ∈ rs ∧ statusCode r = c).
Proof.
  split_and!.
  - induction rs as [|r rs IH] using rev_ind; [apply reflexive_eq, filed_empty|].
    by rewrite aggregated_snoc, filed_collect, IH.
  - apply aggregated_lookup.
  - intros c l. rewrite aggregated_lookup.
    destruct (V3.urls_with c rs); [done|]. by intros [= <-].
  - intros c. rewrite elem_of_dom, aggregated_lookup, <- urls_with_nil_iff.
    destruct (V3.urls_with c rs); split;
      first [done|by intros [? ?]|by eexists].
Qed.

(** ** The files of the classifying program *)

Lemma append_length (a b : string) :
  String.length (a +:+ b) = (String.length a + String.length b)%nat.
Proof. induction a as [|x a IH]; [done|]. simpl. by rewrite IH. Qed.

Lemma append_cancel_r (a b s : string) : a +:+ s = b +:+ s → a = b.
Proof.
  revert b. induction a as [|x a IH]; intros [|y b] H; [done|..].
  - apply (f_equal String.length) in H.
    rewrite !append_length in H. simpl in H. lia.
  - apply (f_equal String.length) in H.
    rewrite !append_length in H. simpl in H. lia.
  - change (String x (a +:+ s) = String y (b +:+ s)) in H.
    injection H as -> H. f_equal. by apply IH.
Qed.

(** Two status codes name the same class file exactly when they have the
    same hundreds. *)
Lemma rangeFile_class (output : string) (c1 c2 : Z) :
  V3.rangeFile output c1 = V3.rangeFile output c2
  ↔ c1 `quot` 100 = c2 `quot` 100.
Proof.
  unfold V3.rangeFile. split; [|by intros ->].
  intros H. apply String.app_inj in H. apply String.app_inj in H.
  apply append_cancel_r in H. by apply pretty_Z_inj in H.
Qed.

Section SaveByRange.
Variable creatable : string → bool.
Variable room : string → option nat.
Variable f : V3.flags.

(** The save of one entry goes through: its class file can be created
    and has the room for its urls. *)
Let goes_through (e : Z * list string) : Prop :=
  creatable (V3.rangeFile (V3.flag_o f) e.1) = true
  ∧ fits (room (V3.rangeFile (V3.flag_o f) e.1)) (file_of e.2) = true.

Lemma save_by_range_code (ord : list (Z * list string)) (fs : files) :
  (Forall goes_through ord
   ∧ (V3.save_by_range creatable room f ord fs).2 = 0)
  ∨ (Exists (λ e, ¬ goes_through e) ord
     ∧ (V3.save_by_range creatable room f ord fs).2 = 1).
Proof.
  revert fs. induction ord as [|e ord IH]; intros fs; [by left|].
  cbn [V3.save_by_range].
  destruct (saveURLs_cases creatable room (V3.rangeFile (V3.flag_o f) e.1)
                           e.2 fs)
    as [[Hcr ->]|[(Hcr & Hfit & ->)|(Hcr & Hfit & ->)]].
  - right. split; [|done]. left. intros [? _]. congruence.
  - destruct (IH (<[V3.rangeFile (V3.flag_o f) e.1 := file_of e.2]> fs))
      as [[Hall ->]|[Hex ->]].
    + left. split; [|done]. by constructor.
    + right. split; [|done]. by right.
  - right. split; [|done]. left. intros [_ ?]. congruence.
Qed.

(** A path is left as it was, or is the class file of an entry, could be
    created and holds what reached it of the urls of that entry. *)
Lemma save_by_range_lookup (ord : list (Z * list string)) (fs : files)
    (path : string) :
  (V3.save_by_range creatable room f ord fs).1 !! path = fs !! path
  ∨ ∃ e, e ∈ ord ∧ V3.rangeFile (V3.flag_o f) e.1 = path
         ∧ creatable path = true
         ∧ (V3.save_by_range creatable room f ord fs).1 !! path
           = Some (reaches (room path) (file_of e.2)).
Proof.
  revert fs. induction ord as [|e ord IH]; intros fs; [by left|].
  cbn [V3.save_by_range].
  assert (∀ fs1 : files,
            fs1 = <[V3.rangeFile (V3.flag_o f) e.1 :=
                      reaches (room (V3.rangeFile (V3.flag_o f) e.1))
                              (file_of e.2)]> fs →
            creatable (V3.rangeFile (V3.flag_o f) e.1) = true →
            fs1 !! path = fs !! path
            ∨ ∃ e', e' ∈ e :: ord ∧ V3.rangeFile (V3.flag_o f) e'.1 = path
                    ∧ creatable path = true
                    ∧ fs1 !! path = Some (reaches (room path) (file_of e'.2)))
    as Hhere.
  { intros fs1 -> Hcr.
    destruct (decide (V3.rangeFile (V3.flag_o f) e.1 = path)) as [Heq|Hne].
    - right. exists e. split; [left|]. rewrite <- Heq.
      by rewrite lookup_insert_eq.
    - left. by rewrite lookup_insert_ne. }
  destruct (saveURLs_cases creatable room (V3.rangeFile (V3.flag_o f) e.1)
                           e.2 fs)
    as [[Hcr ->]|[(Hcr & Hfit & ->)|(Hcr & Hfit & ->)]].
  - by left.
  - destruct (IH (<[V3.rangeFile (V3.flag_o f) e.1 := file_of e.2]> fs))
      as [Hsame|(e' & Hin & Hf & Hc & Hl)].
    + rewrite Hsame. apply Hhere; [|done]. by rewrite reaches_fits.
    + right. exists e'. split; [by right|done].
  - by apply Hhere.
Qed.

(** When the loop runs to its end, the file of every entry holds the
    urls of an entry that names it. *)
Lemma save_by_range_written (ord : list (Z * list string)) (fs : files) :
  (V3.save_by_range creatable room f ord fs).2 = 0 →
  ∀ e, e ∈ ord →
       ∃ e', e' ∈ ord
             ∧ V3.rangeFile (V3.flag_o f) e'.1
               = V3.rangeFile (V3.flag_o f) e.1
             ∧ (V3.save_by_range creatable room f ord fs).1
                 !! V3.rangeFile (V3.flag_o f) e.1
               = Some (file_of e'.2).
Proof.
  intros Hcode.
  assert (Forall goes_through ord) as Hall.
  { destruct (save_by_range_code ord fs) as [[? _]|[_ H1]]; [done|].
    congruence. }
  clear Hcode. revert fs.
  induction ord as [|e0 ord IH]; intros fs e Hin.
  { by apply elem_of_nil in Hin. }
  apply Forall_cons in Hall as [[Hcr Hfit] Hall].
  cbn [V3.save_by_range]. rewrite (saveURLs_fits _ _ _ _ _ Hcr Hfit).
  apply elem_of_cons in Hin as [->|Hin].
  - destruct (save_by_range_lookup ord
                (<[V3.rangeFile (V3.flag_o f) e0.1 := file_of e0.2]> fs)
                (V3.rangeFile (V3.flag_o f) e0.1))
      as [Hsame|(e' & Hin' & Hf & _ & Hl)].
    + exists e0. split; [left|]. split; [done|].
      by rewrite Hsame, lookup_insert_eq.
    + exists e'. split; [by right|]. split; [done|].
      rewrite Hl. f_equal. rewrite <- Hf. apply reaches_fits.
      rewrite Forall_forall in Hall. by destruct (Hall e' Hin').
  - destruct (IH Hall
                (<[V3.rangeFile (V3.flag_o f) e0.1 := file_of e0.2]> fs)
                e Hin) as (e' & Hin' & Hf & Hl).
    exists e'. split; [by right|done].
Qed.

End SaveByRange.

Lemma elem_of_visit {X : Type} (results : gmap Z X) (ord : list (Z * X))
    (e : Z * X) :
  ord ≡ₚ map_to_list results → e ∈ ord ↔ results !! e.1 = Some e.2.
Proof.
  intros Hord. rewrite Hord. destruct e as [c x].
  apply elem_of_map_to_list.
Qed.

(** X15.  The save phase without a filter, in general.  The exit status
    is 0 when the class file of every status code of the map can be
    created and has the room for the urls of that code, and 1 when for
    some status code it cannot or has not.  Whatever the status, every
    path either is left as it was or is the class file of a status code
    of the map, was created, and holds what reached it of the urls of
    that one code: all of them, or after a failed write the first bytes,
    as many as there was room for.  Nothing received means nothing
    written. *)
Theorem class_files_outcome
    (creatable : string → bool) (room : string → option nat)
    (f : V3.flags)
    (results : gmap Z (list string)) (fs fs' : files) (code : Z) :
  V3.flag_only f = "" →
  V3.finish creatable room f results fs fs' code →
  ((code = 0
    ∧ ∀ c l, results !! c = Some l →
        creatable (V3.rangeFile (V3.flag_o f) c) = true
        ∧ fits (room (V3.rangeFile (V3.flag_o f) c)) (file_of l) = true)
   ∨ (code = 1
      ∧ ∃ c l, results !! c = Some l
          ∧ (creatable (V3.rangeFile (V3.flag_o f) c) = false
             ∨ fits (room (V3.rangeFile (V3.flag_o f) c)) (file_of l)
               = false)))
  ∧ (∀ path,
       fs' !! path = fs !! path
       ∨ ∃ c l, results !! c = Some l
                ∧ V3.rangeFile (V3.flag_o f) c = path
                ∧ creatable path = true
                ∧ fs' !! path = Some (reaches (room path) (file_of l)))
  ∧ (results = ∅ → fs' = fs ∧ code = 0).
Proof.
  intros Honly (ord & Hord & Hfin).
  unfold V3.parseStatusRanges in Hfin. rewrite Honly in Hfin. simpl in Hfin.
  split_and!.
  - destruct (save_by_range_code creatable room f ord fs)
      as [[Hall Hcode]|[Hex Hcode]]; rewrite <- Hfin in Hcode;
      simpl in Hcode; [left|right]; (split; [done|]).
    + intros c l Hl. rewrite Forall_forall in Hall.
      apply (Hall (c, l)). by apply (elem_of_visit results).
    + apply Exists_exists in Hex as ([c l] & Hin & Hno).
      exists c, l. split; [by apply (elem_of_visit results ord (c, l))|].
      simpl in Hno.
      destruct (creatable _) eqn:Hcr; [|by left]. right.
      destruct (fits _ _) eqn:Hfit; [|done]. by destruct Hno.
  - intros path.
    destruct (save_by_range_lookup creatable room f ord fs path)
      as [Hsame|([c l] & Hin & Hf & Hcr & Hl)];
      rewrite <- Hfin in *; simpl in *.
    + by left.
    + right. exists c, l. split; [|done].
      by apply (elem_of_visit results ord (c, l)).
  - intros ->. rewrite map_to_list_empty in Hord.
    apply Permutation_nil_r in Hord as ->. simpl in Hfin.
    by injection Hfin as -> ->.
Qed.

(** The device of the 2xx file is full: status 1, and every path is
    untouched or a class file holding what reached it. *)
Lemma class_files_outcome_witness :
  ∃ (fs' : files) (code : Z),
    V3.finish (λ _, true)
              (λ p, if String.eqb p "status_2xx.txt" then Some 0%nat else None)
              V3.default_flags (V3.aggregated scenario_results) ∅ fs' code
    ∧ code = 1
    ∧ fs' !! "elsewhere.txt" = None.
Proof.
  pose (room := λ p, if String.eqb p "status_2xx.txt" then Some 0%nat
                     else None).
  pose proof (V3_finish_default (λ _, true) room V3.default_flags
                (V3.aggregated scenario_results) ∅ eq_refl) as Hfin.
  eexists _, _. split; [exact Hfin|].
  destruct (class_files_outcome (λ _, true) room V3.default_flags _ _ _ _
              eq_refl Hfin)
    as ([[_ Hall]|[H1 _]] & Hpath & _).
  - exfalso.
    destruct (Hall 200 ["http://one.test"; "http://two.test"]) as [_ Hfit];
      [by rewrite aggregated_lookup|].
    discriminate Hfit.
  - split; [exact H1|].
    destruct (Hpath "elsewhere.txt") as [Hsame|(c & l & Hl & Hf & _)];
      [by rewrite Hsame|].
    exfalso. unfold V3.rangeFile in Hf.
    change "elsewhere.txt" with ("e" +:+ "lsewhere.txt") in Hf.
    change (V3.flag_o V3.default_flags +:+ "_" +:+ pretty (c `quot` 100)
            +:+ "xx.txt")
      with (String "s" ("tatus" +:+ "_" +:+ pretty (c `quot` 100)
                        +:+ "xx.txt"))
      in Hf.
    discriminate Hf.
Defined.

(** X16.  The class files after a save phase that ran to its end
    (status 0, no filter).  The class file of every status code of the
    map exists and holds the urls of one status code of that class.
    When no two status codes of the map share their hundreds, every
    class file holds the urls that were received with the status code
    that names it: nothing is lost. *)
Theorem class_file_complete_when_codes_in_distinct_classes
    (creatable : string → bool) (room : string → option nat)
    (f : V3.flags)
    (results : gmap Z (list string)) (fs fs' : files) :
  V3.flag_only f = "" →
  V3.finish creatable room f results fs fs' 0 →
  (∀ c l, results !! c = Some l →
     ∃ c' l', results !! c' = Some l' ∧ c' `quot` 100 = c `quot` 100
              ∧ fs' !! V3.rangeFile (V3.flag_o f) c = Some (file_of l'))
  ∧ ((∀ c1 c2, c1 ∈ dom results → c2 ∈ dom results →
               c1 `quot` 100 = c2 `quot` 100 → c1 = c2) →
     ∀ c l, results !! c = Some l →
            fs' !! V3.rangeFile (V3.flag_o f) c = Some (file_of l)).
Proof.
  intros Honly (ord & Hord & Hfin).
  unfold V3.parseStatusRanges in Hfin. rewrite Honly in Hfin. simpl in Hfin.
  assert (∀ c l, results !! c = Some l →
            ∃ c' l', results !! c' = Some l' ∧ c' `quot` 100 = c `quot` 100
              ∧ fs' !! V3.rangeFile (V3.flag_o f) c = Some (file_of l'))
    as Hone.
  { intros c l Hl.
    destruct (save_by_range_written creatable room f ord fs)
      with (e := (c, l)) as ([c' l'] & Hin & Hf & Hlk).
    - by rewrite <- Hfin.
    - by apply (elem_of_visit results).
    - rewrite <- Hfin in Hlk. simpl in *. exists c', l'. split_and!.
      + by apply (elem_of_visit results ord (c', l')).
      + by apply rangeFile_class in Hf.
      + done. }
  split; [exact Hone|]. intros Hdistinct c l Hl.
  destruct (Hone c l Hl) as (c' & l' & Hl' & Hq & Hlk).
  assert (c' = c) as ->.
  { apply Hdistinct; [by apply elem_of_dom..|done]. }
  congruence.
Qed.

Lemma class_file_complete_when_codes_in_distinct_classes_witness :
  ∃ fs' : files,
    V3.finish (λ _, true) (λ _, None) V3.default_flags
              (V3.aggregated scenario_results) ∅ fs' 0
    ∧ fs' !! "status_2xx.txt"
      = Some (file_of ["http://one.test"; "http://two.test"])
    ∧ fs' !! "status_4xx.txt" = Some (file_of ["http://three.test"]).
Proof.
  pose proof (V3_finish_default (λ _, true) (λ _, None) V3.default_flags
                (V3.aggregated scenario_results) ∅ eq_refl) as Hfin.
  assert ((V3.save_by_range (λ _, true) (λ _, None) V3.default_flags
             (map_to_list (V3.aggregated scenario_results)) ∅).2 = 0) as Hcode.
  { destruct (save_by_range_code (λ _, true) (λ _, None) V3.default_flags
                (map_to_list (V3.aggregated scenario_results)) ∅)
      as [[_ ?]|[Hex _]]; [done|].
    apply Exists_exists in Hex as (e & _ & Hno). by destruct Hno. }
  rewrite Hcode in Hfin.
  eexists. split; [exact Hfin|].
  destruct (class_file_complete_when_codes_in_distinct_classes
              (λ _, true) (λ _, None) V3.default_flags _ _ _ eq_refl Hfin)
    as [_ Hall].
  assert (∀ c1 c2 : Z,
            c1 ∈ dom (V3.aggregated scenario_results) →
            c2 ∈ dom (V3.aggregated scenario_results) →
            c1 `quot` 100 = c2 `quot` 100 → c1 = c2) as Hdistinct.
  { intros c1 c2 H1 H2.
    assert (dom (V3.aggregated scenario_results) = {[200; 404]}) as Hdom.
    { unfold V3.aggregated, scenario_results, V3.collect. simpl.
      rewrite !dom_insert_L, dom_empty_L. set_solver. }
    rewrite Hdom in H1, H2.
    apply elem_of_union in H1 as [->%elem_of_singleton| ->%elem_of_singleton];
      apply elem_of_union in H2 as [->%elem_of_singleton| ->%elem_of_singleton];
      done. }
  split.
  - apply (Hall Hdistinct 200). by rewrite aggregated_lookup.
  - apply (Hall Hdistinct 404). by rewrite aggregated_lookup.
Defined.

(** ** The one file of a filtered run *)

Lemma filteredURLs_filed (ranges : gmap Z bool) (ord : list (Z * list string)) :
  V3.filteredURLs ranges ord
  = Classify.url <$>
      filter (λ r, V3.selected ranges (Classify.statusCode r) = true)
             (ord ≫= (λ e, (λ u, {| Classify.url := u;
                                    Classify.statusCode := e.1 |}) <$> e.2)).
Proof.
  rewrite filteredURLs_concat.
  induction ord as [|[c l] ord IH]; [done|].
  rewrite filter_cons. cbn [mbind list_bind fst snd].
  rewrite filter_app, fmap_app, <- IH. clear IH.
  assert (∀ b : bool,
            Classify.url <$>
              filter (λ r, V3.selected ranges (Classify.statusCode r) = true)
                ((λ u, {| Classify.url := u; Classify.statusCode := c |}) <$> l)
            = if decide (V3.selected ranges c = true) then l else []) as Hl.
  { intros _. induction l as [|u l IHl]; [by case_decide|].
    rewrite fmap_cons, filter_cons. simpl. revert IHl.
    destruct (decide (V3.selected ranges c = true)) as [H|H]; intros IHl;
      [rewrite fmap_cons; f_equal|]; exact IHl. }
  rewrite (Hl true). by case_decide.
Qed.

Lemma filteredURLs_nothing_selected (ranges : gmap Z bool)
    (ord : list (Z * list string)) :
  (∀ e, e ∈ ord → V3.selected ranges e.1 = false) →
  V3.filteredURLs ranges ord = [].
Proof.
  intros Hnone. rewrite filteredURLs_concat.
  induction ord as [|e ord IH]; [done|].
  rewrite filter_cons. case_decide as Hsel.
  - rewrite Hnone in Hsel; [done|left].
  - apply IH. intros e' Hin. apply Hnone. by right.
Qed.

(** X17.  The save phase with a filter, in general.  Only the one file
    [base.txt] is concerned, whatever was received, and what is to be
    written to it is the list of the urls filed under a selected status
    code, each as often as it is filed; the list is empty when the filter
    selects none of the status codes received (a filter made of malformed
    parts selects nothing at all).  When the file cannot be created the
    status is 1 and nothing is written.  When it can and has the room for
    the list, the status is 0 and the file holds exactly the list; an
    empty list always has the room.  When it can be created but has not
    the room, the status is 1 and the file is left with the first bytes
    of the list, as many as there was room for. *)
Theorem filter_file_outcome
    (creatable : string → bool) (room : string → option nat)
    (f : V3.flags) (ranges : gmap Z bool)
    (results : gmap Z (list string)) (fs fs' : files) (code : Z) :
  V3.parseStatusRanges (V3.flag_only f) = Some ranges →
  V3.finish creatable room f results fs fs' code →
  ∃ l,
    l ≡ₚ Classify.url <$>
           filter (λ r, V3.selected ranges (Classify.statusCode r) = true)
                  (filed results)
    ∧ ((∀ c, c ∈ dom results → V3.selected ranges c = false) →
       l = [] ∧ fits (room (V3.flag_o f +:+ ".txt")) (file_of l) = true)
    ∧ ((creatable (V3.flag_o f +:+ ".txt") = false ∧ code = 1 ∧ fs' = fs)
       ∨ (creatable (V3.flag_o f +:+ ".txt") = true
          ∧ fits (room (V3.flag_o f +:+ ".txt")) (file_of l) = true
          ∧ code = 0
          ∧ fs' = <[V3.flag_o f +:+ ".txt" := file_of l]> fs)
       ∨ (creatable (V3.flag_o f +:+ ".txt") = true
          ∧ fits (room (V3.flag_o f +:+ ".txt")) (file_of l) = false
          ∧ code = 1
          ∧ fs' = <[V3.flag_o f +:+ ".txt" :=
                      reaches (room (V3.flag_o f +:+ ".txt")) (file_of l)]>
                    fs)).
Proof.
  intros Hparse (ord & Hord & Hfin). rewrite Hparse in Hfin.
  exists (V3.filteredURLs ranges ord). split_and!.
  - rewrite filteredURLs_filed. unfold filed. by rewrite Hord.
  - intros Hnone.
    rewrite filteredURLs_nothing_selected; [by rewrite fits_empty|].
    intros [c l] Hin. apply Hnone, elem_of_dom. exists l.
    by apply (elem_of_visit results ord (c, l)).
  - destruct Hfin as [Hfs Hcode]. by apply saveURLs_outcome.
Qed.

(** A filter made of malformed parts, on a device that is full: the file
    is created empty and the status is 0. *)
Lemma filter_file_outcome_witness :
  ∃ ranges,
    V3.parseStatusRanges "xx,2x,abc" = Some ranges
    ∧ ∀ (fs' : files) (code : Z),
        V3.finish (λ _, true) (λ _, Some 0%nat) only_malformed
                  (V3.aggregated scenario_results) ∅ fs' code →
        code = 0 ∧ fs' = <["status.txt" := ""]> ∅.
Proof.
  eexists. split; [reflexivity|]. intros fs' code Hfin.
  destruct (filter_file_outcome (λ _, true) (λ _, Some 0%nat) only_malformed
              (foldl V3.parse_part ∅ (Split "xx,2x,abc" ",")) _ _ _ _
              eq_refl Hfin)
    as (l & _ & Hempty & Hout).
  destruct Hempty as [-> _].
  { intros c _. unfold V3.selected.
    assert (foldl V3.parse_part ∅ (Split "xx,2x,abc" ",") = ∅) as ->.
    { by vm_compute. }
    by rewrite lookup_empty. }
  destruct Hout as [(Hcr & _)|[(_ & _ & -> & ->)|(_ & Hfit & _)]];
    [done|done|discriminate Hfit].
Defined.

(** ** How the classifying program ends *)

Lemma earlier_stage_refl (results : gmap Z (list string)) :
  earlier_stage results results.
Proof. intros c l Hl. by exists l. Qed.

Lemma earlier_stage_collect (saved results : gmap Z (list string))
    (r : Classify.statusResult) :
  earlier_stage saved results → earlier_stage saved (V3.collect r results).
Proof.
  intros Hst c l Hl. destruct (Hst c l Hl) as (l' & Hl' & Hpre).
  unfold V3.collect.
  destruct (decide (Classify.statusCode r = c)) as [->|Hne].
  - rewrite lookup_insert_eq, Hl'. simpl. eexists. split; [done|].
    by apply prefix_app_r.
  - rewrite lookup_insert_ne by done. by exists l'.
Qed.

Lemma V3_finish_code (creatable : string → bool) (room : string → option nat)
    (f : V3.flags)
    (results : gmap Z (list string)) (fs fs' : files) (code : Z) :
  V3.finish creatable room f results fs fs' code → code = 0 ∨ code = 1.
Proof.
  intros (ord & _ & Hfin).
  destruct (V3.parseStatusRanges (V3.flag_only f)).
  - destruct Hfin as [_ ->]. destruct (saveURLs _ _ _ _ _).2; auto.
  - destruct (save_by_range_code creatable room f ord fs)
      as [[_ Hcode]|[_ Hcode]]; rewrite <- Hfin in Hcode; auto.
Qed.

Section V3Exit.
Variable Head : string → response.
Variable creatable : string → bool.
Variable room : string → option nat.
Variable f : V3.flags.
Variable lines : list string.
Variable fs0 : files.

Lemma V3_reachable_exit (s : V3.state) :
  rtc (V3.step Head creatable room f) (V3.init f lines fs0) s →
  (status (Graceful.pl s) = Alive → read_urls lines ≠ [])
  ∧ match Graceful.at_main s with
    | Graceful.Leaving code =>
        (∃ saved, V3.finish creatable room f saved fs0 (Graceful.fs s) code
                  ∧ earlier_stage saved (Graceful.agg s))
        ∧ (code ≠ 0 → status (Graceful.pl s) = Exited code)
        ∧ read_urls lines ≠ []
    | _ => Graceful.fs s = fs0
           ∧ ∀ code, status (Graceful.pl s) = Exited code →
                     code = 1 ∧ read_urls lines = []
    end
  ∧ (∀ code, status (Graceful.pl s) = Exited code →
             Graceful.at_main s = Graceful.Leaving code
             ∨ read_urls lines = []).
Proof.
  revert s. apply rtc_ind_r.
  { unfold V3.init, Graceful.init. simpl. split_and!.
    - case_decide as Hlen; [done|]. intros _ Hnil. by rewrite Hnil in Hlen.
    - done.
    - case_decide as Hlen; [|done]. intros code [= <-].
      split; [done|]. by apply length_zero_iff_nil.
    - case_decide as Hlen; [|done]. intros code [= <-]. right.
      by apply length_zero_iff_nil. }
  intros y z _ Hyz (Hne & Hmain & Hexit). unfold V3.step in Hyz.
  pose proof (Graceful_step_alive _ _ _ _ _ Hyz) as Haly.
  specialize (Hne Haly).
  destruct Hyz as [s p' Hw|s Hal Hph Hcl|s Hal|s x rest Hal Hh' Hch
    |s x Hal Hh'|s x rest Hal Hd Hch|s Hal Hd Hcl Hch|s Hal Hat Hsig
    |s Hal Hat Hd|s fs' code Hal Hat Hfin|s Hal Hat]; simpl in *.
  - assert (∀ code, status p' ≠ Exited code) as Hno.
    { intros code Hc. destruct Hw; simpl in *; congruence. }
    split_and!; [done| |by intros code ?%Hno].
    destruct (Graceful.at_main s) as [| |code].
    + split; [tauto|]. by intros code ?%Hno.
    + split; [tauto|]. by intros code ?%Hno.
    + destruct Hmain as (Hsaved & Hst & _). split_and!; [done| |done].
      intros Hc. specialize (Hst Hc). congruence.
  - done.
  - done.
  - done.
  - split_and!; [done| |done].
    destruct (Graceful.at_main s) as [| |code]; [done..|].
    destruct Hmain as ((saved & Hfin & Hst) & Hrest). split; [|done].
    exists saved. split; [done|]. by apply earlier_stage_collect.
  - done.
  - done.
  - rewrite Hat in Hmain. destruct Hmain as [Hfs Hst].
    split_and!; [done..|congruence].
  - rewrite Hat in Hmain. destruct Hmain as [Hfs Hst].
    split_and!; [done..|congruence].
  - rewrite Hat in Hmain. destruct Hmain as [Hfs _]. rewrite Hfs in Hfin.
    split_and!.
    + done.
    + exists (Graceful.agg s). split; [done|apply earlier_stage_refl].
    + intros Hc. by case_decide.
    + done.
    + intros code'. case_decide; simpl; [congruence|].
      intros [= <-]. by left.
  - rewrite Hat in Hmain |- *. destruct Hmain as (Hsaved & _ & Hn).
    split_and!; [done..|]. intros code [= <-]. by left.
Qed.

End V3Exit.

(** X18.  How the classifying program ends.  Until [main] is through
    its save phase no file is touched.  An exit status is 0 or 1.  With
    an empty list the status is 1 and the file system is as it was.
    Otherwise the files and the status are those of the save phase, run
    once on the file system of the start and on the collector's map as
    it was at that moment (an earlier stage of the map: what the
    collector stores later is in no file). *)
Theorem v3_exit_status
    (Head : string → response) (creatable : string → bool)
    (room : string → option nat) (f : V3.flags)
    (lines : list string) (fs0 : files) (s : V3.state) :
  rtc (V3.step Head creatable room f) (V3.init f lines fs0) s →
  (Graceful.at_main s = Graceful.Selecting
   ∨ Graceful.at_main s = Graceful.Saving → Graceful.fs s = fs0)
  ∧ ∀ code, status (Graceful.pl s) = Exited code →
      (code = 0 ∨ code = 1)
      ∧ ((read_urls lines = [] ∧ code = 1 ∧ Graceful.fs s = fs0)
         ∨ (read_urls lines ≠ []
            ∧ ∃ saved,
                V3.finish creatable room f saved fs0 (Graceful.fs s) code
                ∧ earlier_stage saved (Graceful.agg s))).
Proof.
  intros Hrun.
  destruct (V3_reachable_exit _ _ _ _ _ _ _ Hrun) as (_ & Hmain & Hexit).
  split.
  - intros [Hat|Hat]; rewrite Hat in Hmain; tauto.
  - intros code Hcode.
    destruct (Graceful.at_main s) as [| |code'] eqn:Hat.
    + destruct Hmain as [Hfs Hst]. destruct (Hst code Hcode) as [-> Hnil].
      split; [by right|]. by left.
    + destruct Hmain as [Hfs Hst]. destruct (Hst code Hcode) as [-> Hnil].
      split; [by right|]. by left.
    + destruct Hmain as ((saved & Hfin & Hst) & _ & Hne).
      destruct (Hexit code Hcode) as [[= <-]|Hnil]; [|done].
      split; [by eapply V3_finish_code|]. right. split; [done|].
      by exists saved.
Qed.

Lemma v3_exit_status_witness :
  ∃ s : V3.state,
    rtc (V3.step (λ _, Status 404) (λ _, false) (λ _, None) V3.default_flags)
        (V3.init V3.default_flags ["a.test"] ∅) s
    ∧ status (Graceful.pl s) = Exited 1
    ∧ ∃ saved, V3.finish (λ _, false) (λ _, None) V3.default_flags saved ∅
                         (Graceful.fs s) 1.
Proof.
  destruct (V3_sequential (λ _, Status 404) (λ _, false) (λ _, None)
              V3.default_flags ["a.test"] ∅ ∅ 1) as (s & Hrun & Hst & _).
  - simpl. lia.
  - vm_compute. discriminate.
  - exists [(404, ["http://a.test"])]. split; [|reflexivity].
    rewrite <- (map_to_list_singleton (M:=gmap Z) 404 ["http://a.test"]).
    apply reflexive_eq. f_equal.
  - exists s. split; [exact Hrun|]. split; [exact Hst|].
    destruct (v3_exit_status _ _ _ _ _ _ _ Hrun) as [_ Hexit].
    destruct (Hexit 1 Hst) as [_ [(Hnil & _)|(_ & saved & Hfin & _)]].
    + vm_compute in Hnil. discriminate Hnil.
    + by exists saved.
Defined.

(** ** Reading the collected urls again *)

Lemma TrimLeftSpace_idempotent (s : string) :
  TrimLeftSpace (TrimLeftSpace s) = TrimLeftSpace s.
Proof.
  assert (∀ n s, (String.length s ≤ n)%nat →
            TrimLeftSpace (TrimLeftSpace s) = TrimLeftSpace s) as H;
    [|by apply (H (String.length s))].
  clear s. induction n as [|n IH]; intros s Hn.
  { destruct s; [done|simpl in Hn; lia]. }
  destruct s as [|a s1]; [done|]. simpl in Hn. cbn [TrimLeftSpace].
  destruct (asciiSpace a) eqn:Ha; [apply IH; lia|].
  destruct s1 as [|b s2].
  { cbn [TrimLeftSpace]. by rewrite Ha. }
  simpl in Hn. destruct (space2 a b) eqn:Hab; [apply IH; lia|].
  destruct s2 as [|c s3].
  { cbn [TrimLeftSpace]. by rewrite Ha, Hab. }
  simpl in Hn. destruct (space3 a b c) eqn:Habc; [apply IH; lia|].
  cbn [TrimLeftSpace]. by rewrite Ha, Hab, Habc.
Qed.

Lemma trim_rev_idempotent (r : list ascii) :
  trim_rev (trim_rev r) = trim_rev r.
Proof.
  assert (∀ n r, (length r ≤ n)%nat → trim_rev (trim_rev r) = trim_rev r)
    as H; [|by apply (H (length r))].
  clear r. induction n as [|n IH]; intros r Hn.
  { destruct r; [done|simpl in Hn; lia]. }
  destruct r as [|c r1]; [done|]. simpl in Hn. cbn [trim_rev].
  destruct (asciiSpace c) eqn:Hc; [apply IH; lia|].
  destruct r1 as [|b r2].
  { cbn [trim_rev]. by rewrite Hc. }
  simpl in Hn. destruct (space2 b c) eqn:Hbc; [apply IH; lia|].
  destruct r2 as [|a r3].
  { cbn [trim_rev]. by rewrite Hc, Hbc. }
  simpl in Hn. destruct (space3 a b c) eqn:Habc; [apply IH; lia|].
  cbn [trim_rev]. by rewrite Hc, Hbc, Habc.
Qed.

Lemma trim_rev_suffix (r : list ascii) : ∃ k, r = k ++ trim_rev r.
Proof.
  assert (∀ n r, (length r ≤ n)%nat → ∃ k, r = k ++ trim_rev r) as H;
    [|by apply (H (length r))].
  clear r. induction n as [|n IH]; intros r Hn.
  { destruct r; [by exists []|simpl in Hn; lia]. }
  destruct r as [|c r1]; [by exists []|]. simpl in Hn. cbn [trim_rev].
  destruct (asciiSpace c).
  { destruct (IH r1 ltac:(lia)) as [k Hk]. exists (c :: k).
    simpl. by rewrite <- Hk. }
  destruct r1 as [|b r2]; [by exists []|].
  simpl in Hn. destruct (space2 b c).
  { destruct (IH r2 ltac:(lia)) as [k Hk]. exists (c :: b :: k).
    simpl. by rewrite <- Hk. }
  destruct r2 as [|a r3]; [by exists []|].
  simpl in Hn. destruct (space3 a b c); [|by exists []].
  destruct (IH r3 ltac:(lia)) as [k Hk]. exists (c :: b :: a :: k).
  simpl. by rewrite <- Hk.
Qed.

Lemma TrimLeftSpace_length (s : string) :
  (String.length (TrimLeftSpace s) ≤ String.length s)%nat.
Proof.
  assert (∀ n s, (String.length s ≤ n)%nat →
            (String.length (TrimLeftSpace s) ≤ String.length s)%nat) as H;
    [|by apply (H (String.length s))].
  clear s. induction n as [|n IH]; intros s Hn.
  { destruct s; [done|simpl in Hn; lia]. }
  destruct s as [|a s1]; [done|]. simpl in Hn. cbn [TrimLeftSpace].
  destruct (asciiSpace a).
  { specialize (IH s1 ltac:(lia)). simpl. lia. }
  destruct s1 as [|b s2]; [done|].
  simpl in Hn. destruct (space2 a b).
  { specialize (IH s2 ltac:(lia)). simpl. lia. }
  destruct s2 as [|c s3]; [done|].
  simpl in Hn. destruct (space3 a b c); [|done].
  specialize (IH s3 ltac:(lia)). simpl. lia.
Qed.

(** A string the left scan leaves alone does not start with a space. *)
Lemma TrimLeftSpace_fixed (s : string) :
  TrimLeftSpace s = s ↔
  match s with
  | EmptyString => True
  | String a s1 =>
      asciiSpace a = false
      ∧ match s1 with
        | EmptyString => True
        | String b s2 =>
            space2 a b = false
            ∧ match s2 with
              | EmptyString => True
              | String c _ => space3 a b c = false
              end
        end
  end.
Proof.
  destruct s as [|a s1]; [done|]. cbn [TrimLeftSpace].
  destruct (asciiSpace a).
  { split; [|by intros [? _]]. intros H.
    pose proof (TrimLeftSpace_length s1) as Hl. rewrite H in Hl.
    simpl in Hl. lia. }
  destruct s1 as [|b s2]; [done|]. destruct (space2 a b).
  { split; [|by intros (_ & ? & _)]. intros H.
    pose proof (TrimLeftSpace_length s2) as Hl. rewrite H in Hl.
    simpl in Hl. lia. }
  destruct s2 as [|c s3]; [done|]. destruct (space3 a b c); [|done].
  split; [|by intros (_ & _ & ?)]. intros H.
  pose proof (TrimLeftSpace_length s3) as Hl. rewrite H in Hl.
  simpl in Hl. lia.
Qed.

Lemma trim_rev_length (r : list ascii) : (length (trim_rev r) ≤ length r)%nat.
Proof.
  destruct (trim_rev_suffix r) as [k Hk].
  rewrite Hk at 2. rewrite length_app. lia.
Qed.

(** A byte sequence the right scan leaves alone does not end in a
    space. *)
Lemma trim_rev_fixed (r : list ascii) :
  trim_rev r = r ↔
  match r with
  | [] => True
  | c :: r1 =>
      asciiSpace c = false
      ∧ match r1 with
        | [] => True
        | b :: r2 =>
            space2 b c = false
            ∧ match r2 with
              | [] => True
              | a :: _ => space3 a b c = false
              end
        end
  end.
Proof.
  destruct r as [|c r1]; [done|]. cbn [trim_rev].
  destruct (asciiSpace c).
  { split; [|by intros [? _]]. intros H.
    pose proof (trim_rev_length r1) as Hl. rewrite H in Hl.
    simpl in Hl. lia. }
  destruct r1 as [|b r2]; [done|]. destruct (space2 b c).
  { split; [|by intros (_ & ? & _)]. intros H.
    pose proof (trim_rev_length r2) as Hl. rewrite H in Hl.
    simpl in Hl. lia. }
  destruct r2 as [|a r3]; [done|]. destruct (space3 a b c); [|done].
  split; [|by intros (_ & _ & ?)]. intros H.
  pose proof (trim_rev_length r3) as Hl. rewrite H in Hl.
  simpl in Hl. lia.
Qed.

(** The right scan keeps a beginning of the string, and a beginning of a
    string that does not start with a space does not either. *)
Lemma TrimLeftSpace_TrimRightSpace (t : string) :
  TrimLeftSpace t = t → TrimLeftSpace (TrimRightSpace t) = TrimRightSpace t.
Proof.
  intros Ht. unfold TrimRightSpace.
  destruct (trim_rev_suffix (reverse (list_ascii_of_string t))) as [k Hk].
  set (p := reverse (trim_rev (reverse (list_ascii_of_string t)))).
  assert (t = string_of_list_ascii (p ++ reverse k)) as Hp.
  { unfold p. rewrite <- reverse_app, <- Hk, reverse_involutive.
    by rewrite string_of_list_ascii_of_string. }
  apply TrimLeftSpace_fixed. apply TrimLeftSpace_fixed in Ht.
  rewrite Hp in Ht. clear Hp.
  destruct p as [|a [|b [|c p3]]]; simpl in *; tauto.
Qed.

Lemma TrimSpace_idempotent (s : string) :
  TrimSpace (TrimSpace s) = TrimSpace s.
Proof.
  unfold TrimSpace.
  rewrite TrimLeftSpace_TrimRightSpace by apply TrimLeftSpace_idempotent.
  unfold TrimRightSpace. rewrite list_ascii_of_string_of_list_ascii.
  by rewrite reverse_involutive, trim_rev_idempotent.
Qed.

(** The scheme put in front of a trimmed endpoint leaves it trimmed. *)
Lemma TrimSpace_add_scheme (line : string) :
  TrimSpace line ≠ "" →
  TrimSpace (add_scheme (TrimSpace line)) = add_scheme (TrimSpace line).
Proof.
  intros Hne. unfold add_scheme.
  destruct (_ && _); [|apply TrimSpace_idempotent].
  pose proof (TrimSpace_idempotent line) as Hidem.
  set (u := TrimSpace line) in *.
  assert (trim_rev (reverse (list_ascii_of_string u))
          = reverse (list_ascii_of_string u)) as Hr.
  { unfold u, TrimSpace, TrimRightSpace.
    by rewrite list_ascii_of_string_of_list_ascii, reverse_involutive,
               trim_rev_idempotent. }
  assert (reverse (list_ascii_of_string u) ≠ []) as Hrne.
  { intros Hnil. apply Hne. rewrite <- (string_of_list_ascii_of_string u).
    apply (f_equal reverse) in Hnil. rewrite reverse_involutive in Hnil.
    by rewrite Hnil. }
  unfold TrimSpace.
  change ("http://" +:+ u)
    with (String "h" (String "t" (String "t" (String "p" (String ":"
            (String "/" (String "/" u))))))).
  assert (∀ rest, TrimLeftSpace (String "h" (String "t" (String "t" rest)))
                  = String "h" (String "t" (String "t" rest))) as ->
    by reflexivity.
  unfold TrimRightSpace. cbn [list_ascii_of_string]. rewrite !reverse_cons, <- !app_assoc.
  cbn [app].
  set (r := reverse (list_ascii_of_string u)) in *.
  assert (trim_rev (r ++ ["/"; "/"; ":"; "p"; "t"; "t"; "h"]%char)
          = r ++ ["/"; "/"; ":"; "p"; "t"; "t"; "h"]%char) as ->.
  { apply trim_rev_fixed. apply trim_rev_fixed in Hr.
    destruct r as [|c [|b [|a r3]]]; [done|..]; simpl in *;
      repeat split; tauto. }
  rewrite reverse_app. unfold r. rewrite reverse_involutive.
  change (reverse ["/"; "/"; ":"; "p"; "t"; "t"; "h"]%char)
    with ["h"; "t"; "t"; "p"; ":"; "/"; "/"]%char.
  cbn [app string_of_list_ascii].
  by rewrite string_of_list_ascii_of_string.
Qed.

Lemma add_scheme_nonempty (u : string) : u ≠ "" → add_scheme u ≠ "".
Proof.
  unfold add_scheme. destruct (_ && _); [|done]. intros _. discriminate.
Qed.

Lemma read_urls_keeps (x : string) (l : list string) :
  TrimSpace x = x → x ≠ "" → read_urls (x :: l) = x :: read_urls l.
Proof.
  intros Hx Hne. cbn [read_urls]. rewrite Hx. by rewrite decide_True.
Qed.

(** X19.  The endpoints of the list are trimmed and not empty, and so
    are their normalized forms, which are the urls the programs collect
    and write, one per line: a list of collected urls read again as an
    input list gives the same urls, and giving them their scheme again
    leaves them as they are. *)
Theorem collected_urls_read_back (lines : list string) :
  read_urls (read_urls lines) = read_urls lines
  ∧ read_urls (add_scheme <$> read_urls lines) = add_scheme <$> read_urls lines
  ∧ add_scheme <$> (add_scheme <$> read_urls lines)
    = add_scheme <$> read_urls lines
  ∧ Forall (λ u, TrimSpace u = u ∧ u ≠ "") (read_urls lines).
Proof.
  split_and!.
  - induction lines as [|line rest IH]; [done|]. cbn [read_urls].
    case_decide as Hne; [|done].
    rewrite read_urls_keeps; [by rewrite IH|apply TrimSpace_idempotent|done].
  - induction lines as [|line rest IH]; [done|]. cbn [read_urls].
    case_decide as Hne; [|done]. rewrite fmap_cons.
    rewrite read_urls_keeps;
      [by rewrite IH|by apply TrimSpace_add_scheme
      |by apply add_scheme_nonempty].
  - rewrite <- list_fmap_compose. apply list_fmap_ext.
    intros i u _. apply add_scheme_idempotent.
  - induction lines as [|line rest IH]; [constructor|]. cbn [read_urls].
    case_decide as Hne; [|done]. constructor; [|done].
    split; [apply TrimSpace_idempotent|done].
Qed.

(** ** The two probers side by side *)


(** ** The signal, once more *)





(** X22.  Closing [stopChan] does not stop the admissions at once.  With
    [stopChan] closed, the dispatcher at its select, an endpoint left and
    a free slot, the select may take the tick: one more endpoint is
    started. *)
Theorem tick_can_win_the_race_with_stop :
  (∀ Head creatable room (f : flags) (s : V2.state) u,
     status (Graceful.pl s) = Alive →
     Graceful.stopChan s = true →
     phase (Graceful.pl s) = LoopHead →
     urls (Graceful.pl s) !! next (Graceful.pl s) = Some u →
     Z.of_nat (slots (Graceful.pl s)) < capacity (Graceful.pl s) →
     ∃ s', rtc (V2.step Head creatable room f) s s'
           ∧ Graceful.stopChan s' = true
           ∧ status (Graceful.pl s') = Alive
           ∧ next (Graceful.pl s') = S (next (Graceful.pl s))
           ∧ running (Graceful.pl s') = running (Graceful.pl s) ++ [u])
  ∧ (∀ Head creatable room (f : V3.flags) (s : V3.state) u,
       status (Graceful.pl s) = Alive →
       Graceful.stopChan s = true →
       phase (Graceful.pl s) = LoopHead →
       urls (Graceful.pl s) !! next (Graceful.pl s) = Some u →
       Z.of_nat (slots (Graceful.pl s)) < capacity (Graceful.pl s) →
       ∃ s', rtc (V3.step Head creatable room f) s s'
             ∧ Graceful.stopChan s' = true
             ∧ status (Graceful.pl s') = Alive
             ∧ next (Graceful.pl s') = S (next (Graceful.pl s))
             ∧ running (Graceful.pl s') = running (Graceful.pl s) ++ [u]).
Proof.
  split; intros Head creatable room f s u Hal Hstop Hph Hu Hsl;
    pose proof (lookup_lt_Some _ _ _ Hu) as Hn;
    (eexists; split;
       [eapply rtc_l; [apply Graceful.workers; by apply loop_tick|];
        eapply rtc_l;
          [apply Graceful.workers; by apply (acquire_spawn _ _ _ u)|];
        apply rtc_refl
       |done]).
Qed.

Lemma tick_can_win_the_race_with_stop_witness :
  ∃ s : V2.state,
    rtc (V2.step (λ _, Status 200) (λ _, true) (λ _, None) default_flags)
        (V2.init default_flags ["a.test"; "b.test"] ∅) s
    ∧ Graceful.stopChan s = true
    ∧ status (Graceful.pl s) = Alive
    ∧ running (Graceful.pl s) = ["a.test"].
Proof.
  assert (∃ s0 : V2.state,
            rtc (V2.step (λ _, Status 200) (λ _, true) (λ _, None)
                         default_flags)
                (V2.init default_flags ["a.test"; "b.test"] ∅) s0
            ∧ status (Graceful.pl s0) = Alive
            ∧ Graceful.stopChan s0 = true
            ∧ phase (Graceful.pl s0) = LoopHead
            ∧ urls (Graceful.pl s0) !! next (Graceful.pl s0) = Some "a.test"
            ∧ Z.of_nat (slots (Graceful.pl s0)) < capacity (Graceful.pl s0)
            ∧ running (Graceful.pl s0) = [])
    as (s0 & Hrun & Hal & Hstop & Hph & Hu & Hsl & Hr).
  { eexists. split.
    - graceful_step ltac:(apply Graceful.workers;
                          by apply (setup_ok _ _ _ 10 100000000)).
      graceful_step ltac:(by apply Graceful.interrupt).
      graceful_step ltac:(by apply Graceful.select_signal).
      apply rtc_refl.
    - simpl. split_and!; try reflexivity. }
  destruct (proj1 tick_can_win_the_race_with_stop (λ _, Status 200)
              (λ _, true) (λ _, None) default_flags s0 "a.test"
              Hal Hstop Hph Hu Hsl)
    as (s' & Hrun' & Hstop' & Hal' & _ & Hr').
  exists s'. split; [by etrans|]. split; [exact Hstop'|].
  split; [exact Hal'|]. by rewrite Hr', Hr.
Defined.

(** ** The goroutine that closes [done] takes the values

    The schedule of the endpoints one at a time again, but each value
    sent is received by the goroutine that the select of [main] has
    started ([for range outputChan {}]) and not by the collector. *)

Section GracefulDrained.
Context {M A : Type}.
Variable checkURL : string → bool → list event * option M.
Variable collect : M → A → A.
Variable finish : A → files → files → Z → Prop.
Variables (us : list string) (rps : Z) (v : bool) (a0 : A) (fs0 : files).

Let step := Graceful.step checkURL collect finish.

Let idle (ph : dphase) (cap : Z) (n : nat) (out : list event)
    (cl dn : bool) (m : Graceful.mphase) : Graceful.state M A :=
  Graceful.mkState (mkPool us rps v ph cap n [] 0 [] cl out Alive)
                   false false None a0 dn m fs0.

Lemma Graceful_one_endpoint_drained (n : nat) (u : string) out :
  0 < rps → us !! n = Some u →
  ∃ out',
    rtc step (idle LoopHead rps n out false false Graceful.Selecting)
             (idle LoopHead rps (S n) out' false false Graceful.Selecting).
Proof.
  intros Hrate Hu. pose proof (lookup_lt_Some _ _ _ Hu) as Hn.
  destruct (checkURL u v) as [printed o] eqn:Hc.
  exists (out ++ printed). unfold idle.
  graceful_step ltac:(apply Graceful.workers; by apply loop_tick).
  graceful_step ltac:(apply Graceful.workers;
                      by apply (acquire_spawn _ _ _ u)).
  destruct o as [m|].
  - graceful_step ltac:(apply Graceful.workers;
                        apply (probe_send _ _ _ [] u [] printed m);
                        [done..|simpl; lia]).
    graceful_step ltac:(apply Graceful.workers;
                        by apply (slot_release _ _ _ 0%nat)).
    graceful_step ltac:(by apply (Graceful.drain_recv _ _ _ _ m [])).
    apply rtc_refl.
  - graceful_step ltac:(apply Graceful.workers;
                        by apply (probe_quiet _ _ _ [] u [] printed)).
    graceful_step ltac:(apply Graceful.workers;
                        by apply (slot_release _ _ _ 0%nat)).
    apply rtc_refl.
Qed.

Lemma Graceful_all_endpoints_drained (k n : nat) out :
  0 < rps → (n + k = length us)%nat →
  ∃ out',
    rtc step (idle LoopHead rps n out false false Graceful.Selecting)
             (idle LoopHead rps (length us) out' false false
                   Graceful.Selecting).
Proof.
  intros Hrate. revert n out. induction k as [|k IH]; intros n out Hlen.
  - exists out. replace n with (length us) by lia. apply rtc_refl.
  - destruct (us !! n) as [u|] eqn:Hu; cycle 1.
    { apply lookup_ge_None in Hu. lia. }
    destruct (Graceful_one_endpoint_drained n u out Hrate Hu) as [out1 H1].
    destruct (IH (S n) out1 ltac:(lia)) as [out2 H2].
    exists out2. by etrans.
Qed.

Lemma Graceful_drained_exit (fs' : files) (code : Z) :
  0 < rps ≤ 1000000000 → us ≠ [] →
  finish a0 fs0 fs' code →
  ∃ s, rtc step (Graceful.init us rps v a0 fs0) s
       ∧ status (Graceful.pl s) = Exited code
       ∧ Graceful.fs s = fs'
       ∧ Graceful.agg s = a0
       ∧ Graceful.stopChan s = false
       ∧ Graceful.sigChan s = false
       ∧ Graceful.holding s = None
       ∧ next (Graceful.pl s) = length us
       ∧ running (Graceful.pl s) = []
       ∧ chan (Graceful.pl s) = [].
Proof.
  intros Hrate Hne Hfin.
  destruct (Graceful_all_endpoints_drained (length us) 0 [] ltac:(lia) eq_refl)
    as [out Hrun].
  assert (rtc step (Graceful.init us rps v a0 fs0)
                   (idle Returned rps (length us) out true true
                         Graceful.Saving)) as Hsave.
  { assert (Graceful.init us rps v a0 fs0
            = idle Setup 0 0 [] false false Graceful.Selecting) as ->.
    { unfold Graceful.init, idle. case_decide as Hlen; [|done].
      by apply length_zero_iff_nil in Hlen. }
    graceful_step ltac:(apply Graceful.workers;
      apply (setup_ok _ _ _ rps (1000000000 `quot` rps));
      [reflexivity..|]).
    { simpl. unfold processURLs_setup.
      destruct (rps <? 0) eqn:E1; [apply Z.ltb_lt in E1; lia|].
      destruct (rps =? 0) eqn:E2; [apply Z.eqb_eq in E2; lia|].
      destruct (_ <=? 0) eqn:E3; [|done]. apply Z.leb_le in E3.
      assert (1 ≤ 1000000000 `quot` rps); [|lia].
      apply Z.quot_le_lower_bound; lia. }
    etrans; [exact Hrun|].
    graceful_step ltac:(apply Graceful.workers; by apply loop_end).
    graceful_step ltac:(apply Graceful.workers; by apply wait_done).
    graceful_step ltac:(by apply Graceful.close_output).
    graceful_step ltac:(by apply Graceful.drain_end).
    graceful_step ltac:(by apply Graceful.select_done).
    apply rtc_refl. }
  destruct (decide (code = 0)) as [->|Hcode].
  - eexists. split.
    + etrans; [exact Hsave|].
      graceful_step ltac:(apply (Graceful.save _ _ _ _ fs' 0);
                          [reflexivity..|exact Hfin]).
      graceful_step ltac:(apply Graceful.main_returns; reflexivity).
      apply rtc_refl.
    + done.
  - eexists. split.
    + etrans; [exact Hsave|].
      graceful_step ltac:(apply (Graceful.save _ _ _ _ fs' code);
                          [reflexivity..|exact Hfin]).
      apply rtc_refl.
    + simpl. by case_decide.
Qed.

End GracefulDrained.

(** X23.  A run without any signal can lose every result.  Whatever the
    endpoints answer, with a rate between 1 and 10^9 and a list that is
    not empty there is a run in which no signal arrives, every endpoint
    is probed, and every value sent on [outputChan] is received by the
    goroutine that closes [done] instead of the collector: the second
    program exits with status 0 and an empty output file, the
    classifying program (without filter) exits with status 0 and has
    written no file at all. *)
Theorem done_goroutine_can_discard_every_result :
  (∀ Head creatable room (f : flags) lines fs0,
     0 < flag_d f ≤ 1000000000 → read_urls lines ≠ [] →
     creatable (flag_o f) = true →
     ∃ s : V2.state,
       rtc (V2.step Head creatable room f) (V2.init f lines fs0) s
       ∧ Graceful.stopChan s = false ∧ Graceful.sigChan s = false
       ∧ next (Graceful.pl s) = length (read_urls lines)
       ∧ running (Graceful.pl s) = []
       ∧ status (Graceful.pl s) = Exited 0
       ∧ Graceful.agg s = []
       ∧ Graceful.fs s = <[flag_o f := file_of []]> fs0)
  ∧ (∀ Head creatable room (f : V3.flags) lines fs0,
       0 < V3.flag_d f ≤ 1000000000 → read_urls lines ≠ [] →
       V3.flag_only f = "" →
       ∃ s : V3.state,
         rtc (V3.step Head creatable room f) (V3.init f lines fs0) s
         ∧ Graceful.stopChan s = false ∧ Graceful.sigChan s = false
         ∧ next (Graceful.pl s) = length (read_urls lines)
         ∧ running (Graceful.pl s) = []
         ∧ status (Graceful.pl s) = Exited 0
         ∧ Graceful.agg s = ∅
         ∧ Graceful.fs s = fs0).
Proof.
  split.
  - intros Head creatable room f lines fs0 Hrate Hne Hcr.
    destruct (Graceful_drained_exit (Liveurls.checkURL Head)
                (λ url l, l ++ [url]) (V2.finish creatable room f)
                (read_urls lines) (flag_d f) (flag_v f) [] fs0
                (<[flag_o f := file_of []]> fs0) 0 Hrate Hne)
      as (s & ? & ? & ? & ? & ? & ? & ? & ? & ? & ?).
    { apply V2_finish_fits; [exact Hcr|apply fits_empty]. }
    by exists s.
  - intros Head creatable room f lines fs0 Hrate Hne Honly.
    destruct (Graceful_drained_exit (Classify.checkURL Head)
                V3.collect (V3.finish creatable room f)
                (read_urls lines) (V3.flag_d f) (V3.flag_v f) ∅ fs0
                fs0 0 Hrate Hne)
      as (s & ? & ? & ? & ? & ? & ? & ? & ? & ? & ?).
    { exists []. split; [by rewrite map_to_list_empty|].
      unfold V3.parseStatusRanges. by rewrite Honly. }
    by exists s.
Qed.

Lemma done_goroutine_can_discard_every_result_witness :
  ∃ s : V2.state,
    rtc (V2.step (λ _, Status 200) (λ _, true) (λ _, None) default_flags)
        (V2.init default_flags ["a.test"; "b.test"; "c.test"] ∅) s
    ∧ Graceful.stopChan s = false
    ∧ next (Graceful.pl s) = 3%nat
    ∧ status (Graceful.pl s) = Exited 0
    ∧ Graceful.fs s = <["live_urls.txt" := ""]> ∅.
Proof.
  destruct (proj1 done_goroutine_can_discard_every_result
              (λ _, Status 200) (λ _, true) (λ _, None) default_flags
              ["a.test"; "b.test"; "c.test"] ∅)
    as (s & Hrun & Hstop & _ & Hn & _ & Hst & _ & Hfs).
  - simpl. lia.
  - vm_compute. discriminate.
  - reflexivity.
  - exists s.
    split_and!; [exact Hrun|exact Hstop|exact Hn|exact Hst|exact Hfs].
Defined.

(** ** The first program, whatever the endpoints answer *)

(** X24.  The first program never ends well.  With a rate between 1 and
    10^9 and a list that is not empty, whatever the endpoints answer: in
    no state of any run has [main] left its range loop, has the channel
    been closed or has the process exited; and there is a run in which
    every endpoint is probed, [main] has collected the normalized forms
    of exactly the endpoints that answered 200, in the order of the list,
    and then no goroutine can move any more: [main] waits for a channel
    that only [main] would close. *)
Theorem v1_never_exits_and_can_always_deadlock
    (Head : string → response) (creatable : string → bool)
    (room : string → option nat)
    (f : flags)
    (lines : list string) (fs0 : files) :
  0 < flag_d f ≤ 1000000000 → read_urls lines ≠ [] →
  (∀ s, rtc (V1.step Head creatable room f) (V1.init f lines fs0) s →
        V1.at_main s = V1.Ranging ∧ closed (V1.pl s) = false
        ∧ ∀ code, status (V1.pl s) ≠ Exited code)
  ∧ ∃ s, rtc (V1.step Head creatable room f) (V1.init f lines fs0) s
         ∧ V1.stuck Head creatable room f s
         ∧ status (V1.pl s) = Alive
         ∧ next (V1.pl s) = length (read_urls lines)
         ∧ running (V1.pl s) = []
         ∧ chan (V1.pl s) = []
         ∧ V1.liveURLs s = omap (live_url Head) (read_urls lines).
Proof.
  intros Hrate Hne. split.
  - intros s Hrun.
    destruct (V1_reachable_inv _ _ _ _ _ _ _ Hrun)
      as (_ & _ & _ & _ & Hcl & Hat & _ & Hst & _).
    split_and!; [done..|]. intros code Hcode.
    by destruct (Hst code Hcode) as [_ Hnil].
  - destruct (V1_deadlock Head creatable room f lines fs0 Hrate Hne)
      as (s & Hrun & Hstuck & Hal & _ & Hr & Hn & Hlive & _).
    exists s. split_and!; try done.
    + destruct (chan (V1.pl s)) as [|x rest] eqn:Hch; [done|].
      destruct (V1_reachable_inv _ _ _ _ _ _ _ Hrun)
        as (_ & _ & _ & _ & _ & Hat & _).
      exfalso. eapply Hstuck. by apply (V1.range_recv _ _ _ _ _ x rest).
    + rewrite Hlive. apply omap_ext_sends. intros u.
      apply (sends_live_url Head (flag_v f) u).
Qed.

Lemma v1_never_exits_and_can_always_deadlock_witness :
  let Head := λ u, if String.eqb u "http://b.test" then Status 503
                   else Status 200 in
  ∃ s, rtc (V1.step Head (λ _, true) (λ _, None) default_flags)
           (V1.init default_flags ["a.test"; "b.test"; "c.test"] ∅) s
       ∧ V1.stuck Head (λ _, true) (λ _, None) default_flags s
       ∧ V1.liveURLs s = ["http://a.test"; "http://c.test"].
Proof.
  intros Head.
  destruct (v1_never_exits_and_can_always_deadlock Head (λ _, true) (λ _, None)
              default_flags ["a.test"; "b.test"; "c.test"] ∅)
    as (_ & s & Hrun & Hstuck & _ & _ & _ & _ & Hlive).
  - simpl. lia.
  - vm_compute. discriminate.
  - exists s. split; [exact Hrun|]. split; [exact Hstuck|]. exact Hlive.
Defined.

